(** * StreamGo preload: playback interception, change-watch coordination
      and quick resume

    A shallow embedding of the parts of [src/preload.ts] that divert playback
    to an external player, multiplex one MutationObserver over many handlers,
    suspend it while the user scrolls, and remember the last stream played
    per title; and, around them, of the cleanup registry, the wait with
    backoff, the lists of installed themes and plugins and the loading of the
    enabled plugins, the default settings, the theme stylesheet, the
    collapsible sections and the player branch of the navigation listener,
    with [getCurrentVersion] of [src/core/Updater.ts].

    Conventions.
    - JavaScript strings are [string]; [null]/[undefined] is [None]; a value
      is truthy when it is [Some] non-empty string, or [Some] non-zero number.
    - Numbers ([Date.now()], [performance.now()], season, episode) are [Z].
    - Optional chains [a?.b?.c] are flattened to one optional field.
    - [localStorage] is a record with one optional field per storage key the
      code reads; the key names live in [./constants], which the code only
      uses as opaque names.
    - [EXTERNAL_PLAYERS.BUILTIN] is a constant of [./constants]; every
      function that compares against it takes it as the argument [BUILTIN].
    - [JSON.parse] and [JSON.stringify] are represented by what they
      produce: the persisted text is given by the object it parses to, or
      as malformed.
    - A plain object is the list of its own properties in enumeration
      order. Its prototype is [Object.prototype]: a property read that
      finds no own property finds the members of the prototype, and an
      assignment to ["__proto__"] replaces the prototype instead of adding
      a property.
    - Logging is not modelled. *)

From Stdlib Require Import ZArith List Bool Lia Permutation Sorted.
From Stdlib Require Import Strings.String Strings.Ascii Numbers.DecimalString.
Import ListNotations.
Open Scope string_scope.
Open Scope Z_scope.

(* ================================================================== *)
(** * Part I: the embedding                                            *)
(* ================================================================== *)

(** ** JavaScript string primitives used by the code *)
Module Js.

(** [s.startsWith(p)] *)
Definition startsWith (s p : string) : bool := String.prefix p s.

(** [s.includes(p)] *)
Fixpoint includes (s p : string) : bool :=
  if String.prefix p s then true
  else match s with
       | EmptyString => false
       | String _ s' => includes s' p
       end.

(** Truthiness of an optional string: [undefined], [null] and [''] are falsy. *)
Definition truthy (v : option string) : bool :=
  match v with
  | Some (String _ _) => true
  | _ => false
  end.

(** Truthiness of an optional number: [undefined] and [0] are falsy. *)
Definition truthy_num (v : option Z) : bool :=
  match v with
  | Some n => negb (n =? 0)
  | None => false
  end.

(** [`${n}`] for an integral number. *)
Definition number_to_string (n : Z) : string :=
  NilEmpty.string_of_int (Z.to_int n).

(** [a || b] on optional strings. *)
Definition or_else (a : option string) (b : string) : string :=
  match a with
  | Some (String c s) => String c s
  | _ => b
  end.

(** Equality of optional strings is decidable. *)
Definition option_string_dec (x y : option string) : {x = y} + {x <> y}.
Proof. decide equality. apply string_dec. Defined.

End Js.

(** ** The persisted settings flags read by the interception code *)
Record LocalStorage := {
  EXTERNAL_PLAYER : option string;       (* STORAGE_KEYS.EXTERNAL_PLAYER *)
  EXTERNAL_PLAYER_PATH : option string   (* STORAGE_KEYS.EXTERNAL_PLAYER_PATH *)
}.

(** The test shared by [handleExternalPlayerInterception],
    [handlePlayButtonClick] and the patched [play]:
    [!externalPlayer || externalPlayer === EXTERNAL_PLAYERS.BUILTIN ||
     externalPlayer === '' || externalPlayer === 'disabled' ||
     externalPlayer === 'm3u']. *)
Definition uses_internal_player (BUILTIN : string) (externalPlayer : option string) : bool :=
  match externalPlayer with
  | None => true
  | Some p =>
      negb (Js.truthy (Some p)) || String.eqb p BUILTIN || String.eqb p ""
      || String.eqb p "disabled" || String.eqb p "m3u"
  end.

(** ** The patched [HTMLVideoElement.prototype.play]
       ([setupGlobalVideoInterception]) *)
Module VideoPlay.

Record video := {
  paused : bool;
  muted : bool
}.

(** How the promise returned by [play()] settles. *)
Inductive promise := Resolved | Rejected.

(** [HTMLVideoElement.prototype.play = function () { ... }].
    [originalVideoPlay] is the method saved before patching; the host's
    implementation is not part of this code, so it is an argument. *)
Definition play (BUILTIN : string) (originalVideoPlay : video -> video * promise)
    (ls : LocalStorage) (href : string) (this : video) : video * promise :=
  let externalPlayer := EXTERNAL_PLAYER ls in
  if negb (uses_internal_player BUILTIN externalPlayer)
     && Js.includes href "#/player"
  then
    (* this.pause(); this.muted = true; return Promise.resolve() *)
    ({| paused := true; muted := true |}, Resolved)
  else originalVideoPlay this.

(** An original method that starts playback and whose promise rejects. *)
Definition rejecting_play (v : video) : video * promise :=
  ({| paused := false; muted := muted v |}, Rejected).

End VideoPlay.

(** ** External-player interception ([handleExternalPlayerInterception],
       [handlePlayButtonClick]) *)
Module Interception.

(** The fields of the host's player state that the code reads
    ([interface PlayerState]), optional chains flattened. *)
Record PlayerState := {
  stream_content_url : option string;   (* stream?.content?.url *)
  selected_streaming : option string;   (* selected?.stream?.deepLinks?.externalPlayer?.streaming *)
  stream_url : option string;           (* stream?.url *)
  stream_externalUrl : option string;   (* stream?.externalUrl *)
  metaItem_content_name : option string;(* metaItem?.content?.name *)
  seriesInfo_season : option Z;         (* seriesInfo?.season *)
  seriesInfo_episode : option Z;        (* seriesInfo?.episode *)
  title : option string                 (* title *)
}.

(** Outcome of one [await Helpers._eval(...)]. *)
Inductive eval_result :=
| EvalThrew
| EvalValue (v : option PlayerState).

(** What the host shows to one iteration of the retry loop: the result of
    the primary and of the alternative state query and the [src] of the
    first [<video>] element ([None]: no such element). *)
Record attempt_obs := {
  eval1 : eval_result;
  eval2 : eval_result;
  video_src : option string
}.

(** The payload of [ipcRenderer.send(IPC_CHANNELS.LAUNCH_EXTERNAL_PLAYER, ...)]. *)
Record launch_request := {
  lr_player : string;
  lr_url : string;
  lr_title : string;
  lr_customPath : option string
}.

(** Effects visible outside the routine, in the order they happen. *)
Inductive effect :=
| EStopAllVideos
| ELaunch (req : launch_request)
| EKeepPausedStart
| EKeepPausedStop
| EHistoryBack.

(** The shared state the routine reads and writes. *)
Record world := {
  isHandlingExternalPlayer : bool;
  marker : bool;             (* body has class 'external-player-active' *)
  storage : LocalStorage;
  effects : list effect
}.

Definition set_busy (b : bool) (w : world) : world :=
  {| isHandlingExternalPlayer := b; marker := marker w;
     storage := storage w; effects := effects w |}.

Definition set_marker (m : bool) (w : world) : world :=
  {| isHandlingExternalPlayer := isHandlingExternalPlayer w; marker := m;
     storage := storage w; effects := effects w |}.

Definition set_storage (ls : LocalStorage) (w : world) : world :=
  {| isHandlingExternalPlayer := isHandlingExternalPlayer w; marker := marker w;
     storage := ls; effects := effects w |}.

Definition emit (e : effect) (w : world) : world :=
  {| isHandlingExternalPlayer := isHandlingExternalPlayer w; marker := marker w;
     storage := storage w; effects := effects w ++ [e] |}.

Definition stopAllVideos : world -> world := emit EStopAllVideos.

(** [url && typeof url === 'string' && url.startsWith('http')] *)
Definition qualifies (url : option string) : bool :=
  match url with
  | Some u => Js.truthy (Some u) && Js.startsWith u "http"
  | None => false
  end.

(** [for (const url of possibleUrls) { if (...) { streamUrl = url; break; } }] *)
Fixpoint first_qualifying (possibleUrls : list (option string)) : option string :=
  match possibleUrls with
  | [] => None
  | url :: rest => if qualifies url then url else first_qualifying rest
  end.

Definition possibleUrls (ps : PlayerState) : list (option string) :=
  [ stream_content_url ps; selected_streaming ps; stream_url ps; stream_externalUrl ps ].

(** The body of [if (playerState) { ... }]: the candidate fields in priority
    order, then the video element as last resort. *)
Definition find_url (ps : PlayerState) (videoSrc : option string) : option string :=
  match first_qualifying (possibleUrls ps) with
  | Some u => Some u
  | None =>
      match videoSrc with
      | Some src => if Js.truthy (Some src) && Js.startsWith src "http" then Some src else None
      | None => None
      end
  end.

(** [// Build title from available info] *)
Definition build_title (playerState : option PlayerState) : string :=
  match playerState with
  | None => "Stremio Stream"
  | Some ps =>
      match metaItem_content_name ps with
      | Some (String c n) =>
          let name := String c n in
          match seriesInfo_season ps, seriesInfo_episode ps with
          | Some s, Some e =>
              if Js.truthy_num (Some s) && Js.truthy_num (Some e)
              then name ++ " S" ++ Js.number_to_string s ++ "E" ++ Js.number_to_string e
              else name
          | _, _ => name
          end
      | _ =>
          match title ps with
          | Some (String c t) => String c t
          | _ => "Stremio Stream"
          end
      end
  end.

(** Where a running invocation is suspended. *)
Inductive await_point :=
| AwaitEval1      (* await Helpers._eval('core.transport.getState("player")') *)
| AwaitEval2      (* await Helpers._eval('window.stremio?.player?.state || ...') *)
| AwaitDelay      (* await new Promise(resolve => setTimeout(resolve, 200)) *)
| AwaitCooldown.  (* await new Promise(resolve => setTimeout(resolve, 10000)) *)

(** A suspended invocation: its local variables and its await point.
    [s_host] is what the host will answer to each iteration. *)
Record session := {
  s_host : nat -> attempt_obs;
  s_externalPlayer : string;
  s_playerState : option PlayerState;
  s_attempt : nat;
  s_at : await_point
}.

Definition suspend (s : session) (ps : option PlayerState) (k : nat) (a : await_point) : session :=
  {| s_host := s_host s; s_externalPlayer := s_externalPlayer s;
     s_playerState := ps; s_attempt := k; s_at := a |}.

Definition MAX_ATTEMPTS : nat := 20.

(** From [if (playerState) { ... }] to the next suspension, once
    [playerState] holds the answer of this iteration. *)
Definition after_evals (s : session) (ps : option PlayerState) (w : world)
  : option session * world :=
  let k := s_attempt s in
  match ps with
  | None => (Some (suspend s ps k AwaitDelay), stopAllVideos w)
  | Some st =>
      match find_url st (video_src (s_host s k)) with
      | None => (Some (suspend s ps k AwaitDelay), stopAllVideos w)
      | Some streamUrl =>
          (* break; title; stopAllVideos(); customPath; send; setInterval *)
          let title := build_title ps in
          let w1 := stopAllVideos w in
          let customPath :=
            match EXTERNAL_PLAYER_PATH (storage w1) with
            | Some (String c p) => Some (String c p)
            | _ => None
            end in
          let w2 := emit (ELaunch {| lr_player := s_externalPlayer s; lr_url := streamUrl;
                                     lr_title := title; lr_customPath := customPath |}) w1 in
          (Some (suspend s ps k AwaitCooldown), emit EKeepPausedStart w2)
      end
  end.

(** One continuation of a suspended invocation: from the await it is
    suspended at to the next await, or to its return ([None]). *)
Definition resume (s : session) (w : world) : option session * world :=
  let k := s_attempt s in
  match s_at s with
  | AwaitEval1 =>
      match eval1 (s_host s k) with
      | EvalThrew => (Some (suspend s (s_playerState s) k AwaitDelay), stopAllVideos w)
      | EvalValue None => (Some (suspend s None k AwaitEval2), w)
      | EvalValue (Some st) => after_evals s (Some st) w
      end
  | AwaitEval2 =>
      match eval2 (s_host s k) with
      | EvalThrew => (Some (suspend s (s_playerState s) k AwaitDelay), stopAllVideos w)
      | EvalValue ps => after_evals s ps w
      end
  | AwaitDelay =>
      if (S k <? MAX_ATTEMPTS)%nat
      then (Some (suspend s (s_playerState s) (S k) AwaitEval1), w)
      else
        (* if (!streamUrl) { classList.remove(...); isHandlingExternalPlayer = false; return; } *)
        (None, set_busy false (set_marker false w))
  | AwaitCooldown =>
      (* clearInterval; classList.remove; isHandlingExternalPlayer = false; history.back() *)
      (None, emit EHistoryBack (set_busy false (set_marker false (emit EKeepPausedStop w))))
  end.

(** The synchronous prefix of [handleExternalPlayerInterception]: from the
    call to the first await, or to an early return ([None]). *)
Definition start (BUILTIN : string) (host : nat -> attempt_obs) (w : world)
  : option session * world :=
  let externalPlayer := EXTERNAL_PLAYER (storage w) in
  if isHandlingExternalPlayer w then (None, w)
  else if uses_internal_player BUILTIN externalPlayer then (None, set_marker false w)
  else
    match externalPlayer with
    | None => (None, set_marker false w)
    | Some p =>
        if negb (String.eqb p "vlc") && negb (String.eqb p "mpchc")
        then (None, set_marker false w)
        else
          let w1 := stopAllVideos (set_marker true (set_busy true w)) in
          (Some {| s_host := host; s_externalPlayer := p; s_playerState := None;
                   s_attempt := 0; s_at := AwaitEval1 |}, w1)
    end.

(** Run a suspended invocation to its return, nothing else interleaved. *)
Fixpoint run (fuel : nat) (c : option session * world) : option session * world :=
  match fuel, fst c with
  | S fuel', Some s => run fuel' (resume s (snd c))
  | _, _ => c
  end.

(** Every iteration suspends at most three times. *)
Definition FUEL : nat := 3 * MAX_ATTEMPTS + 1.

(** A whole call of [handleExternalPlayerInterception], run in isolation. *)
Definition handleExternalPlayerInterception (BUILTIN : string)
    (host : nat -> attempt_obs) (w : world) : option session * world :=
  run FUEL (start BUILTIN host w).

(** [handlePlayButtonClick]; [onPlayButton] tells whether the click target
    has an ancestor matching one of the play-button selectors. *)
Definition handlePlayButtonClick (BUILTIN : string) (onPlayButton : bool) (w : world) : world :=
  if uses_internal_player BUILTIN (EXTERNAL_PLAYER (storage w)) then w
  else if onPlayButton then set_marker true (set_busy true w)
  else w.

(** *** The retry loop seen as a whole (the Stream Locator) *)

(** The value of [playerState] at [if (playerState)] in one iteration, when
    that point is reached with a state. *)
Definition polled (o : attempt_obs) : option PlayerState :=
  match eval1 o with
  | EvalThrew => None
  | EvalValue (Some st) => Some st
  | EvalValue None =>
      match eval2 o with
      | EvalThrew => None
      | EvalValue v => v
      end
  end.

(** What one iteration finds: the state it polled and the address. *)
Definition probe (o : attempt_obs) : option (PlayerState * string) :=
  match polled o with
  | Some st =>
      match find_url st (video_src o) with
      | Some u => Some (st, u)
      | None => None
      end
  | None => None
  end.

(** The first of the iterations [k], [k+1], ... below [k + n] that finds an
    address. *)
Fixpoint locate_from (host : nat -> attempt_obs) (k n : nat) : option (PlayerState * string) :=
  match n with
  | O => None
  | S n' =>
      match probe (host k) with
      | Some r => Some r
      | None => locate_from host (S k) n'
      end
  end.

Definition locate (host : nat -> attempt_obs) : option (PlayerState * string) :=
  locate_from host 0 MAX_ATTEMPTS.

(** The launch requests among the effects. *)
Fixpoint launches (es : list effect) : list launch_request :=
  match es with
  | [] => []
  | ELaunch r :: es' => r :: launches es'
  | _ :: es' => launches es'
  end.

(** *** Interleaving: everything that runs on the UI thread between awaits *)

Record machine := {
  m_world : world;
  m_sessions : list session     (* suspended invocations *)
}.

Inductive event :=
| Invoke (host : nat -> attempt_obs)     (* hashchange into a player route *)
| Continue (i : nat)                     (* the i-th suspended invocation resumes *)
| Click (onPlayButton : bool)            (* captured click *)
| SetSetting (ls : LocalStorage).        (* the settings panel writes localStorage *)

Fixpoint replace_or_drop (i : nat) (r : option session) (l : list session) : list session :=
  match l, i with
  | [], _ => []
  | _ :: l', O => match r with Some s' => s' :: l' | None => l' end
  | s :: l', S i' => s :: replace_or_drop i' r l'
  end.

Definition step (BUILTIN : string) (e : event) (m : machine) : machine :=
  match e with
  | Invoke host =>
      let '(r, w') := start BUILTIN host (m_world m) in
      {| m_world := w';
         m_sessions := match r with
                       | Some s => m_sessions m ++ [s]
                       | None => m_sessions m
                       end |}
  | Continue i =>
      match nth_error (m_sessions m) i with
      | Some s =>
          let '(r, w') := resume s (m_world m) in
          {| m_world := w'; m_sessions := replace_or_drop i r (m_sessions m) |}
      | None => m
      end
  | Click b =>
      {| m_world := handlePlayButtonClick BUILTIN b (m_world m);
         m_sessions := m_sessions m |}
  | SetSetting ls =>
      {| m_world := set_storage ls (m_world m); m_sessions := m_sessions m |}
  end.

Definition steps (BUILTIN : string) (es : list event) (m : machine) : machine :=
  fold_left (fun m e => step BUILTIN e m) es m.

(** The page right after load: [let isHandlingExternalPlayer = false]. *)
Definition initial (ls : LocalStorage) : machine :=
  {| m_world := {| isHandlingExternalPlayer := false; marker := false;
                   storage := ls; effects := [] |};
     m_sessions := [] |}.

(** *** Notions used to state what a call does *)

(** Two worlds that differ only by effects other than launches. *)
Definition quiet (w w' : world) : Prop :=
  isHandlingExternalPlayer w' = isHandlingExternalPlayer w /\
  marker w' = marker w /\ storage w' = storage w /\
  launches (effects w') = launches (effects w).

(** The world after the launch segment. *)
Definition launched (p : string) (st : PlayerState) (u : string) (w : world) : world :=
  emit EKeepPausedStart
    (emit (ELaunch {| lr_player := p; lr_url := u; lr_title := build_title (Some st);
                      lr_customPath := match EXTERNAL_PLAYER_PATH (storage w) with
                                       | Some (String c q) => Some (String c q)
                                       | _ => None
                                       end |})
          (stopAllVideos w)).

(** The world in which a call that passed its guards starts polling. *)
Definition primed (w : world) : world :=
  stopAllVideos (set_marker true (set_busy true w)).

(** The invariant behind the guard: a suspended invocation holds the flag,
    and there is never a second one. *)
Definition single_session (m : machine) : Prop :=
  m_sessions m = [] \/
  (exists s, m_sessions m = [s]) /\ isHandlingExternalPlayer (m_world m) = true.

(** *** Example hosts and worlds *)

(** The address of the example: found in the primary field on the third
    iteration, with no metadata at all. *)
Definition bare_state (url : option string) : PlayerState :=
  {| stream_content_url := url; selected_streaming := None; stream_url := None;
     stream_externalUrl := None; metaItem_content_name := None;
     seriesInfo_season := None; seriesInfo_episode := None; title := None |}.

(** A host whose primary query answers every time and shows the address from
    the third iteration on. *)
Definition third_attempt_host : nat -> attempt_obs :=
  fun k =>
    {| eval1 := EvalValue (Some (bare_state (if (k <? 2)%nat then None
                                             else Some "https://x/stream.m3u8")));
       eval2 := EvalThrew; video_src := None |}.

(** A host that only ever shows addresses that do not start with "http". *)
Definition never_host : nat -> attempt_obs :=
  fun k =>
    {| eval1 := EvalValue (Some (bare_state (Some "magnet:?xt=urn:btih:0")));
       eval2 := EvalThrew; video_src := Some "blob:x" |}.

(** The page at rest, with [player] as the stored external player. *)
Definition idle_world (player : string) : world :=
  {| isHandlingExternalPlayer := false; marker := false;
     storage := {| EXTERNAL_PLAYER := Some player; EXTERNAL_PLAYER_PATH := None |};
     effects := [] |}.

(** A host whose primary query answers null, whose alternative query throws
    twice and then shows episode 2 of season 1 of "Show". *)
Definition episode_host : nat -> attempt_obs :=
  fun k =>
    {| eval1 := EvalValue None;
       eval2 := if (k <? 2)%nat then EvalThrew
                else EvalValue (Some
                  {| stream_content_url := None;
                     selected_streaming := Some "https://x/stream.m3u8";
                     stream_url := None; stream_externalUrl := None;
                     metaItem_content_name := Some "Show";
                     seriesInfo_season := Some 1; seriesInfo_episode := Some 2;
                     title := None |});
       video_src := None |}.

(** The page while a call is polling. *)
Definition busy_world : world :=
  {| isHandlingExternalPlayer := true; marker := true;
     storage := {| EXTERNAL_PLAYER := Some "vlc"; EXTERNAL_PLAYER_PATH := None |};
     effects := [EStopAllVideos] |}.

End Interception.

(** ** Route patterns *)
Module Route.

(** The longest prefix matched by [[^/]*], and what follows it. *)
Fixpoint span_not_slash (s : string) : string * string :=
  match s with
  | EmptyString => ("", "")
  | String c s' =>
      if Ascii.eqb c "/" then ("", s)
      else let '(a, b) := span_not_slash s' in (String c a, b)
  end.

(** A line terminator at the head of [s] ([.] does not match it). Strings are
    read as UTF-8, where U+2028 and U+2029 are E2 80 A8 and E2 80 A9. *)
Definition at_line_terminator (s : string) : bool :=
  match s with
  | String c rest =>
      Ascii.eqb c "010" || Ascii.eqb c "013" ||
      match rest with
      | String c2 (String c3 _) =>
          Ascii.eqb c "226" && Ascii.eqb c2 "128" && (Ascii.eqb c3 "168" || Ascii.eqb c3 "169")
      | _ => false
      end
  | EmptyString => false
  end.

(** The longest prefix matched by [.*]. *)
Fixpoint span_dot (s : string) : string :=
  if at_line_terminator s then ""
  else match s with
       | EmptyString => ""
       | String c s' => String c (span_dot s')
       end.

Fixpoint strip_prefix (p s : string) : option string :=
  match p, s with
  | EmptyString, _ => Some s
  | String a p', String b s' => if Ascii.eqb a b then strip_prefix p' s' else None
  | String _ _, EmptyString => None
  end.

Definition nonempty (s : string) : bool :=
  match s with EmptyString => false | String _ _ => true end.

(** [/#\/player\/([^/]+)\/([^/]+)(?:\/(.+))?/] anchored at the head of [s]:
    the three groups. Both [[^/]+] are forced to their longest run: the first
    by the slash that must follow, the second because the optional group may
    match nothing. *)
Definition player_at (s : string) : option (string * string * option string) :=
  match strip_prefix "#/player/" s with
  | None => None
  | Some r1 =>
      let '(videoId, r2) := span_not_slash r1 in
      match r2 with
      | String _ r3 =>   (* the character that stopped the run is the slash *)
          let '(streamHash, r4) := span_not_slash r3 in
          if nonempty videoId && nonempty streamHash then
            Some (videoId, streamHash,
                  match r4 with
                  | String _ r5 =>
                      let ep := span_dot r5 in
                      if nonempty ep then Some ep else None
                  | EmptyString => None
                  end)
          else None
      | EmptyString => None
      end
  end.

(** [hash.match(/#\/player\/.../)]: the leftmost match. *)
Fixpoint match_player (s : string) : option (string * string * option string) :=
  match player_at s with
  | Some r => Some r
  | None =>
      match s with
      | EmptyString => None
      | String _ s' => match_player s'
      end
  end.

(** [/#\/detail\/([^/]+)\/([^/]+)/] anchored at the head of [s]: the groups. *)
Definition detail_at (s : string) : option (string * string) :=
  match strip_prefix "#/detail/" s with
  | None => None
  | Some r1 =>
      let '(type, r2) := span_not_slash r1 in
      match r2 with
      | String _ r3 =>
          let '(id, _) := span_not_slash r3 in
          if nonempty type && nonempty id then Some (type, id) else None
      | EmptyString => None
      end
  end.

(** [href.match(/#\/detail\/([^/]+)\/([^/]+)/)]: the leftmost match. *)
Fixpoint match_detail (s : string) : option (string * string) :=
  match detail_at s with
  | Some r => Some r
  | None =>
      match s with
      | EmptyString => None
      | String _ s' => match_detail s'
      end
  end.

End Route.

(** ** Plain JavaScript objects used as string-keyed maps *)
Module JsObject.

Section Obj.
Context {V : Type}.

(** The own properties in the order [Object.entries] and [JSON.stringify]
    list them: array-index keys in ascending order first, then the other
    keys in insertion order. *)
Definition obj := list (string * V).

Definition digit_val (c : ascii) : option N :=
  let n := N_of_ascii c in
  if ((48 <=? n) && (n <=? 57))%N then Some (n - 48)%N else None.

Fixpoint digits_val (s : string) (acc : N) : option N :=
  match s with
  | EmptyString => Some acc
  | String c s' =>
      match digit_val c with
      | Some d => digits_val s' (10 * acc + d)%N
      | None => None
      end
  end.

(** The value of [k] when it is an array index: a canonical decimal numeral
    below 2^32 - 1. *)
Definition array_index (k : string) : option N :=
  match k with
  | EmptyString => None
  | String c rest =>
      if Ascii.eqb c "0" then
        match rest with EmptyString => Some 0%N | _ => None end
      else
        match digits_val k 0 with
        | Some n => if (n <? 4294967295)%N then Some n else None
        | None => None
        end
  end.

(** The value of the own property [k], if the object has one. *)
Fixpoint get (k : string) (o : obj) : option V :=
  match o with
  | [] => None
  | (k', v) :: o' => if String.eqb k k' then Some v else get k o'
  end.

Definition has (k : string) (o : obj) : bool :=
  match get k o with Some _ => true | None => false end.

Fixpoint replace (k : string) (v : V) (o : obj) : obj :=
  match o with
  | [] => []
  | (k', v') :: o' =>
      if String.eqb k k' then (k', v) :: o' else (k', v') :: replace k v o'
  end.

(** A new array-index key goes to its numeric place among the index keys. *)
Fixpoint insert_index (n : N) (k : string) (v : V) (o : obj) : obj :=
  match o with
  | [] => [(k, v)]
  | (k', v') :: o' =>
      match array_index k' with
      | Some n' =>
          if (n <? n')%N then (k, v) :: o
          else (k', v') :: insert_index n k v o'
      | None => (k, v) :: o
      end
  end.

(** Defining the own data property [k] (what [JSON.parse] and
    [Object.fromEntries] do for each member): the value of an own property
    is replaced where it stands, a new property is added. *)
Definition define (k : string) (v : V) (o : obj) : obj :=
  if has k o then replace k v o
  else match array_index k with
       | Some n => insert_index n k v o
       | None => (o ++ [(k, v)])%list
       end.

(** The objects modelled are those [JSON.parse] makes: their prototype is
    [Object.prototype], whose members every one of them inherits. *)
Definition Object_prototype : list string :=
  ["constructor"; "hasOwnProperty"; "isPrototypeOf"; "propertyIsEnumerable";
   "toLocaleString"; "toString"; "valueOf"; "__proto__";
   "__defineGetter__"; "__defineSetter__"; "__lookupGetter__"; "__lookupSetter__"].

Definition inherited (k : string) : bool := existsb (String.eqb k) Object_prototype.

(** What a property read finds: the value of an own property, or a member
    of [Object.prototype] (a function; for ["__proto__"] the prototype
    itself). *)
Inductive property :=
| Own (v : V)
| Inherited.

(** [o[k]]: own properties first, then the prototype; [None] is
    [undefined]. *)
Definition lookup (k : string) (o : obj) : option property :=
  match get k o with
  | Some v => Some (Own v)
  | None => if inherited k then Some Inherited else None
  end.

(** [o[k] = v] for an object [v]. Every member of [Object.prototype] but one
    is a writable data property, which an assignment shadows by an own
    property; ["__proto__"] is an accessor, and assigning to it on an object
    that has no own property of that name runs its setter: the prototype
    becomes [v] and no property is added. *)
Definition set (k : string) (v : V) (o : obj) : obj :=
  if negb (has k o) && String.eqb k "__proto__" then o
  else define k v o.

(** [Object.entries(o)] *)
Definition entries (o : obj) : list (string * V) := o.

(** [Object.fromEntries(l)] *)
Definition fromEntries (l : list (string * V)) : obj :=
  fold_left (fun o kv => define (fst kv) (snd kv) o) l [].

Definition keys (o : obj) : list string := map fst o.

End Obj.
Arguments obj V : clear implicits.
Arguments property V : clear implicits.

End JsObject.

(** ** Quick resume ([saveCurrentStreamInfo], [getSavedStreamInfo],
       [handleContinueWatchingClick]) *)
Module QuickResume.

(** [interface SavedStreamInfo]; [streamUrl] is never written. *)
Record SavedStreamInfo := {
  streamHash : string;
  videoId : string;
  contentId : string;
  type : string;
  season : option Z;
  episode : option Z;
  timestamp : Z
}.

Definition store := JsObject.obj SavedStreamInfo.

(** What [localStorage.getItem(STORAGE_KEYS.LAST_STREAMS)] holds, by what
    [JSON.parse] makes of it. [Missing] is [null] or the empty string (both
    are replaced by ['{}']); [Malformed] is a text [JSON.parse] throws on;
    [Persisted o] is a text that parses to the object [o]. *)
Inductive persisted :=
| Missing
| Malformed
| Persisted (o : store).

(** The fields of the player state that [saveCurrentStreamInfo] reads. *)
Record PlayerState := {
  content_id : option string;               (* metaItem?.content?.id *)
  content_type : option string;             (* metaItem.content.type *)
  seriesInfo : option (option Z * option Z) (* seriesInfo: season, episode *)
}.

Inductive eval_result :=
| EvalThrew
| EvalValue (v : option PlayerState).

(** What the routine reads from its surroundings once the settle delay is
    over. *)
Record save_env := {
  sv_eval : eval_result;   (* await Helpers._eval('core.transport.getState("player")') *)
  sv_hash : string;        (* location.hash *)
  sv_now : Z               (* Date.now() *)
}.

Definition MAX_ENTRIES : nat := 100.

(** [entries.sort((a, b) => b[1].timestamp - a[1].timestamp)]: newest first;
    the sort is stable, entries with equal timestamps keep their order. *)
Fixpoint insert_desc (x : string * SavedStreamInfo) (l : list (string * SavedStreamInfo))
  : list (string * SavedStreamInfo) :=
  match l with
  | [] => [x]
  | y :: l' =>
      if timestamp (snd x) <? timestamp (snd y) then y :: insert_desc x l'
      else x :: l
  end.

Definition sort_desc (l : list (string * SavedStreamInfo)) : list (string * SavedStreamInfo) :=
  fold_right insert_desc [] l.

(** [// Keep only last 100 entries]: the object that is stringified. *)
Definition trim (savedStreams : store) : store :=
  let entries := JsObject.entries savedStreams in
  if (MAX_ENTRIES <? List.length entries)%nat
  then JsObject.fromEntries (firstn MAX_ENTRIES (sort_desc entries))
  else savedStreams.

(** What the routine has worked out before it touches the store: the key,
    the content id, the content type and the record. *)
Definition prepare (env : save_env) : option (string * string * string * SavedStreamInfo) :=
  match sv_eval env with
  | EvalThrew => None
  | EvalValue None => None
  | EvalValue (Some playerState) =>
      match content_id playerState with
      | Some (String c i) =>
          let contentId := String c i in
          match Route.match_player (sv_hash env) with
          | None => None
          | Some (videoId, streamHash, episodeId) =>
              let contentType := Js.or_else (content_type playerState) "movie" in
              let streamInfo :=
                {| streamHash := streamHash; videoId := videoId;
                   contentId := contentId; type := contentType;
                   season := match seriesInfo playerState with
                             | Some (s, _) => s
                             | None => None
                             end;
                   episode := match seriesInfo playerState with
                              | Some (_, e) => e
                              | None => None
                              end;
                   timestamp := sv_now env |} in
              let storageKey :=
                match episodeId with
                | Some ep =>
                    if String.eqb contentType "series" && Js.truthy (Some ep)
                    then contentId ++ ":" ++ ep
                    else contentId
                | None => contentId
                end in
              Some (storageKey, contentId, contentType, streamInfo)
          end
      | _ => None
      end
  end.

(** From [// Load existing streams] to [localStorage.setItem]. *)
Definition write (storageKey contentId contentType : string) (streamInfo : SavedStreamInfo)
    (savedStreams : store) : store :=
  let s1 := JsObject.set storageKey streamInfo savedStreams in
  let s2 := if String.eqb contentType "series"
            then JsObject.set contentId streamInfo s1
            else s1 in
  trim s2.

(** [saveCurrentStreamInfo], after its settle delay: the new content of the
    storage slot. Every early return and the [catch] leave it as it was. *)
Definition saveCurrentStreamInfo (env : save_env) (ls : persisted) : persisted :=
  match prepare env with
  | None => ls
  | Some (storageKey, contentId, contentType, streamInfo) =>
      match ls with
      | Malformed => Malformed        (* JSON.parse throws, caught *)
      | Missing => Persisted (write storageKey contentId contentType streamInfo [])
      | Persisted o => Persisted (write storageKey contentId contentType streamInfo o)
      end
  end.

(** [getSavedStreamInfo]: [savedStreams[contentId] || null]. Both a saved
    record and a member of [Object.prototype] are objects, hence truthy. *)
Definition getSavedStreamInfo (ls : persisted) (contentId : string)
  : option (JsObject.property SavedStreamInfo) :=
  match ls with
  | Missing => JsObject.lookup contentId []
  | Malformed => None                 (* catch { return null } *)
  | Persisted o => JsObject.lookup contentId o
  end.

(** What the click handler finds around the click target. *)
Record meta_item := {
  rowTitle : string;            (* boardRow?.querySelector('[class*="title"]')
                                   ?.textContent?.toLowerCase() || '' *)
  anchor_href : option string   (* metaItem.querySelector('a[href*="/detail/"]').href *)
}.

Record click := {
  target : bool;                (* e.target is set *)
  closest_meta_item : option meta_item   (* target.closest('[class*="meta-item"]') *)
}.

Inductive outcome :=
| NormalFlow                    (* return without touching the event *)
| Navigate (hash : string).     (* preventDefault, stopPropagation, location.hash = ... *)

Definition THIRTY_DAYS_MS : Z := 30 * 24 * 60 * 60 * 1000.

(** [// Construct the player URL] *)
Definition player_url (savedStream : SavedStreamInfo) : string :=
  let playerUrl := "#/player/" ++ videoId savedStream ++ "/" ++ streamHash savedStream in
  match season savedStream, episode savedStream with
  | Some s, Some e =>
      if String.eqb (type savedStream) "series" && Js.truthy_num (Some s) && Js.truthy_num (Some e)
      then playerUrl ++ "/" ++ Js.number_to_string s ++ ":" ++ Js.number_to_string e
      else playerUrl
  | _, _ => playerUrl
  end.

(** The staleness test and what follows it, for a saved stream that was
    found. *)
Definition resume_saved (now : Z) (savedStream : SavedStreamInfo) : outcome :=
  if THIRTY_DAYS_MS <? now - timestamp savedStream then NormalFlow
  else Navigate (player_url savedStream).

(** The same for a member of [Object.prototype] that was taken for a saved
    stream. None of the properties read exists on it: [Date.now() -
    undefined] is [NaN], which is not greater than thirty days, the template
    prints [undefined] twice, and [type === 'series'] is false. *)
Definition resume_inherited : outcome := Navigate "#/player/undefined/undefined".

(** [handleContinueWatchingClick]; [now] is [Date.now()]. *)
Definition handleContinueWatchingClick (ls : persisted) (now : Z) (e : click) : outcome :=
  if negb (target e) then NormalFlow
  else
    match closest_meta_item e with
    | None => NormalFlow
    | Some metaItem =>
        if negb (Js.includes (rowTitle metaItem) "continue")
           && negb (Js.includes (rowTitle metaItem) "watching")
        then NormalFlow
        else
          match anchor_href metaItem with
          | None => NormalFlow
          | Some href =>
              match Route.match_detail href with
              | None => NormalFlow
              | Some (_, contentId) =>
                  match getSavedStreamInfo ls contentId with
                  | None => NormalFlow
                  | Some (JsObject.Own savedStream) => resume_saved now savedStream
                  | Some JsObject.Inherited => resume_inherited
                  end
              end
          end
    end.

(** A sequence of saves, oldest first. *)
Definition save_all (envs : list save_env) (ls : persisted) : persisted :=
  fold_left (fun ls env => saveCurrentStreamInfo env ls) envs ls.

Definition size (ls : persisted) : nat :=
  match ls with
  | Persisted o => List.length o
  | _ => 0%nat
  end.

(** *** Notions used to state what a save does *)

(** The timestamp of an entry. *)
Definition ts (x : string * SavedStreamInfo) : Z := timestamp (snd x).

(** The order the entries are sorted in. *)
Definition newer_or_equal (x y : string * SavedStreamInfo) : Prop := ts y <= ts x.

(** The object a lookup or a save works on. *)
Definition entries_of (ls : persisted) : store :=
  match ls with
  | Persisted o => o
  | _ => []
  end.

(** The record the map holds under the key [k]: own properties are what
    [Object.entries] lists and [JSON.stringify] writes. *)
Definition stored (ls : persisted) (k : string) : option SavedStreamInfo :=
  JsObject.get k (entries_of ls).

(** The store right before [// Keep only last 100 entries]. *)
Definition written (k c t : string) (i : SavedStreamInfo) (o : store) : store :=
  let s1 := JsObject.set k i o in
  if String.eqb t "series" then JsObject.set c i s1 else s1.

(** The key a save stores its record under, when it gets that far. *)
Definition key_of (env : save_env) : option string :=
  match prepare env with
  | Some (k, _, _, _) => Some k
  | None => None
  end.

(** The keys of saves that all get as far as writing. *)
Definition keys_of (envs : list save_env) : list string :=
  map (fun env => match key_of env with Some k => k | None => "" end) envs.

(** Until the first eviction, every key ever written is still there. *)
Definition full_or_all_present (InK : string -> Prop) (o : store) : Prop :=
  (MAX_ENTRIES <= List.length o)%nat \/ forall k, InK k -> JsObject.get k o <> None.

(** While a record as old as [t1] survives, nothing newer has been evicted. *)
Definition old_implies_all_new (t1 : Z) (InK : string -> Prop) (o : store) : Prop :=
  (exists x, In x o /\ ts x <= t1) ->
  forall k, InK k -> exists i, JsObject.get k o = Some i /\ t1 < timestamp i.

(** *** Example saves and clicks *)

(** The example of the specification: "tt1", a series, on the route of
    episode "ep2"; then a hundred and one films saved a minute apart. *)
Definition series_env : save_env :=
  {| sv_eval := EvalValue (Some {| content_id := Some "tt1"; content_type := Some "series";
                                   seriesInfo := Some (Some 1, Some 2) |});
     sv_hash := "#/player/vid1/hashA/ep2";
     sv_now := 1700000000000 |}.

(** The save of film number [n], [n] minutes after the first. *)
Definition film_env (n : nat) : save_env :=
  {| sv_eval := EvalValue (Some {| content_id := Some ("tt" ++ Js.number_to_string (Z.of_nat n));
                                   content_type := Some "movie"; seriesInfo := None |});
     sv_hash := "#/player/vid" ++ Js.number_to_string (Z.of_nat n) ++ "/hashA";
     sv_now := 1700000000000 + 60000 * Z.of_nat n |}.

Definition films : list save_env := map film_env (seq 0 101).

(** A full map whose hundred records all carry a later time than the save of
    the example: the clock was set back in between. *)
Definition later_films : list save_env := map film_env (seq 2 100).

(** The save of a film whose content id is ["__proto__"]. *)
Definition proto_env : save_env :=
  {| sv_eval := EvalValue (Some {| content_id := Some "__proto__";
                                   content_type := Some "movie"; seriesInfo := None |});
     sv_hash := "#/player/vid1/hashA";
     sv_now := 1700000000000 |}.

(** A click on a card of the continue-watching row whose link names
    [contentId]. *)
Definition continue_click (contentId : string) : click :=
  {| target := true;
     closest_meta_item :=
       Some {| rowTitle := "continue watching";
               anchor_href := Some ("app://host/index.html#/detail/series/" ++ contentId) |} |}.

(** The saved stream of the failing input of C7: episode 5 of season 0,
    saved one day before the click. *)
Definition special_episode : SavedStreamInfo :=
  {| streamHash := "hashA"; videoId := "vid1"; contentId := "tt1"; type := "series";
     season := Some 0; episode := Some 5; timestamp := 1700000000000 |}.

End QuickResume.

(** ** The page: the unified MutationObserver, the scroll state detection
       and the browser facilities both schedule work with *)
Module Page.

(** A [MutationRecord[]] array as delivered by the browser; the code hands
    it on unread, so its identity is all that matters. *)
Definition batch := nat.

(** [interface ObserverHandler]; the callback belongs to the caller and is
    represented by the record of its calls in [dispatched]. *)
Record ObserverHandler := {
  id : string;
  active : bool
}.

(** The two closures this code passes to [requestAnimationFrame]. *)
Inductive frame_callback :=
| Dispatch (mutations : batch)   (* the closure made in the observer callback *)
| ScrollCheck.                   (* the closure made in the timeout callback *)

(** *** Browser facilities *)

Record browser := {
  frame_callbacks : list (positive * frame_callback);  (* waiting for the next frame *)
  next_frame_handle : positive;
  timers : list (positive * Z);                        (* pending timeouts of the scroll
                                                          detection, with due time *)
  next_timer_handle : positive;
  now : Z                                              (* performance.now(), in ms *)
}.

Definition requestAnimationFrame (cb : frame_callback) (b : browser) : positive * browser :=
  (next_frame_handle b,
   {| frame_callbacks := frame_callbacks b ++ [(next_frame_handle b, cb)];
      next_frame_handle := Pos.succ (next_frame_handle b);
      timers := timers b; next_timer_handle := next_timer_handle b; now := now b |}).

Definition cancelAnimationFrame (h : positive) (b : browser) : browser :=
  {| frame_callbacks := filter (fun c => negb (Pos.eqb (fst c) h)) (frame_callbacks b);
     next_frame_handle := next_frame_handle b;
     timers := timers b; next_timer_handle := next_timer_handle b; now := now b |}.

Definition setTimeout (delay : Z) (b : browser) : positive * browser :=
  (next_timer_handle b,
   {| frame_callbacks := frame_callbacks b; next_frame_handle := next_frame_handle b;
      timers := timers b ++ [(next_timer_handle b, now b + delay)];
      next_timer_handle := Pos.succ (next_timer_handle b); now := now b |}).

Definition clearTimeout (h : positive) (b : browser) : browser :=
  {| frame_callbacks := frame_callbacks b; next_frame_handle := next_frame_handle b;
     timers := filter (fun t => negb (Pos.eqb (fst t) h)) (timers b);
     next_timer_handle := next_timer_handle b; now := now b |}.

Definition take_frame_callbacks (b : browser) : browser :=
  {| frame_callbacks := []; next_frame_handle := next_frame_handle b;
     timers := timers b; next_timer_handle := next_timer_handle b; now := now b |}.

Definition advance (d : Z) (b : browser) : browser :=
  {| frame_callbacks := frame_callbacks b; next_frame_handle := next_frame_handle b;
     timers := timers b; next_timer_handle := next_timer_handle b; now := now b + d |}.

Definition due (h : positive) (b : browser) : bool :=
  existsb (fun t => Pos.eqb (fst t) h && (snd t <=? now b)) (timers b).

(** *** The unified observer *)

Record coordinator := {
  observerHandlers : list (string * ObserverHandler);  (* a Map, in insertion order *)
  unifiedObserver : option bool;     (* null, or the observer and whether it observes *)
  observerRafId : option positive;
  dispatched : list (string * batch);(* calls of handler callbacks, oldest first *)
  pause_calls : nat;                 (* calls of pauseAllObservers *)
  resume_calls : nat                 (* calls of resumeAllObservers *)
}.

Definition with_handlers (hs : list (string * ObserverHandler)) (c : coordinator) : coordinator :=
  {| observerHandlers := hs; unifiedObserver := unifiedObserver c;
     observerRafId := observerRafId c; dispatched := dispatched c;
     pause_calls := pause_calls c; resume_calls := resume_calls c |}.

Definition with_observer (o : option bool) (c : coordinator) : coordinator :=
  {| observerHandlers := observerHandlers c; unifiedObserver := o;
     observerRafId := observerRafId c; dispatched := dispatched c;
     pause_calls := pause_calls c; resume_calls := resume_calls c |}.

Definition with_observerRafId (h : option positive) (c : coordinator) : coordinator :=
  {| observerHandlers := observerHandlers c; unifiedObserver := unifiedObserver c;
     observerRafId := h; dispatched := dispatched c;
     pause_calls := pause_calls c; resume_calls := resume_calls c |}.

Definition with_dispatched (d : list (string * batch)) (c : coordinator) : coordinator :=
  {| observerHandlers := observerHandlers c; unifiedObserver := unifiedObserver c;
     observerRafId := observerRafId c; dispatched := d;
     pause_calls := pause_calls c; resume_calls := resume_calls c |}.

(** [Map.prototype.set]: an existing key keeps its place. *)
Fixpoint map_set (k : string) (v : ObserverHandler) (m : list (string * ObserverHandler))
  : list (string * ObserverHandler) :=
  match m with
  | [] => [(k, v)]
  | (k', v') :: m' =>
      if String.eqb k k' then (k', v) :: m' else (k', v') :: map_set k v m'
  end.

(** [Map.prototype.delete] *)
Fixpoint map_delete (k : string) (m : list (string * ObserverHandler))
  : list (string * ObserverHandler) :=
  match m with
  | [] => []
  | (k', v') :: m' =>
      if String.eqb k k' then m' else (k', v') :: map_delete k m'
  end.

(** [initUnifiedObserver]: the observer is created observing. *)
Definition initUnifiedObserver (c : coordinator) : coordinator :=
  match unifiedObserver c with
  | Some _ => c
  | None => with_observer (Some true) c
  end.

Definition registerObserverHandler (i : string) (c : coordinator) : coordinator :=
  let c1 := initUnifiedObserver c in
  with_handlers (map_set i {| id := i; active := true |} (observerHandlers c1)) c1.

Definition unregisterObserverHandler (i : string) (c : coordinator) : coordinator :=
  let c1 := with_handlers (map_delete i (observerHandlers c)) c in
  match observerHandlers c1, unifiedObserver c1 with
  | [], Some _ => with_observer None c1    (* disconnect(); unifiedObserver = null *)
  | _, _ => c1
  end.

Definition setObserverHandlerActive (i : string) (a : bool) (c : coordinator) : coordinator :=
  with_handlers
    (map (fun kv => if String.eqb i (fst kv)
                    then (fst kv, {| id := id (snd kv); active := a |})
                    else kv)
         (observerHandlers c)) c.

Definition pauseAllObservers (c : coordinator) : coordinator :=
  let o := match unifiedObserver c with
           | Some _ => Some false
           | None => None
           end in
  {| observerHandlers := observerHandlers c; unifiedObserver := o;
     observerRafId := observerRafId c; dispatched := dispatched c;
     pause_calls := S (pause_calls c); resume_calls := resume_calls c |}.

Definition resumeAllObservers (c : coordinator) : coordinator :=
  let o := match unifiedObserver c with
           | Some _ => Some true
           | None => None
           end in
  {| observerHandlers := observerHandlers c; unifiedObserver := o;
     observerRafId := observerRafId c; dispatched := dispatched c;
     pause_calls := pause_calls c; resume_calls := S (resume_calls c) |}.

(** The calls [observerHandlers.forEach(...)] makes for one batch. *)
Definition calls_for (mutations : batch) (hs : list (string * ObserverHandler))
  : list (string * batch) :=
  map (fun kv => (id (snd kv), mutations)) (filter (fun kv => active (snd kv)) hs).

(** The closure passed to [requestAnimationFrame] by the observer callback. *)
Definition dispatch (mutations : batch) (c : coordinator) : coordinator :=
  with_observerRafId None
    (with_dispatched (dispatched c ++ calls_for mutations (observerHandlers c)) c).

(** The callback of [new MutationObserver(...)]. *)
Definition on_mutations (mutations : batch) (c : coordinator) (b : browser)
  : coordinator * browser :=
  let b1 := match observerRafId c with
            | Some h => cancelAnimationFrame h b
            | None => b
            end in
  let '(h, b2) := requestAnimationFrame (Dispatch mutations) b1 in
  (with_observerRafId (Some h) c, b2).

(** *** Scroll state detection: the variables closed over by [handleScroll] *)

Record scroll := {
  scrollTimeout : option positive;
  rafId : option positive;
  isScrolling : bool;
  lastScrollTime : Z;
  scrolling_active : bool;     (* body has class 'scrolling-active' *)
  performance_mode : bool      (* html has class 'performance-mode' *)
}.

Definition SCROLL_DEBOUNCE : Z := 50.

Record state := {
  br : browser;
  co : coordinator;
  sc : scroll
}.

(** [handleScroll] *)
Definition handleScroll (s : state) : state :=
  let t := now (br s) in
  let first := negb (isScrolling (sc s)) in
  let co1 := if first then pauseAllObservers (co s) else co s in
  let b1 := match scrollTimeout (sc s) with
            | Some h => clearTimeout h (br s)
            | None => br s
            end in
  let '(h, b2) := setTimeout SCROLL_DEBOUNCE b1 in
  {| br := b2; co := co1;
     sc := {| scrollTimeout := Some h; rafId := rafId (sc s);
              isScrolling := true; lastScrollTime := t;
              scrolling_active := if first then true else scrolling_active (sc s);
              performance_mode := if first then true else performance_mode (sc s) |} |}.

(** The callback of [setTimeout(..., SCROLL_DEBOUNCE)]. *)
Definition on_timeout (s : state) : state :=
  let b1 := match rafId (sc s) with
            | Some h => cancelAnimationFrame h (br s)
            | None => br s
            end in
  let '(h, b2) := requestAnimationFrame ScrollCheck b1 in
  {| br := b2; co := co s;
     sc := {| scrollTimeout := scrollTimeout (sc s); rafId := Some h;
              isScrolling := isScrolling (sc s); lastScrollTime := lastScrollTime (sc s);
              scrolling_active := scrolling_active (sc s);
              performance_mode := performance_mode (sc s) |} |}.

(** The closure passed to [requestAnimationFrame] by the timeout callback. *)
Definition scroll_check (s : state) : state :=
  if SCROLL_DEBOUNCE <=? now (br s) - lastScrollTime (sc s) then
    {| br := br s; co := resumeAllObservers (co s);
       sc := {| scrollTimeout := scrollTimeout (sc s); rafId := rafId (sc s);
                isScrolling := false; lastScrollTime := lastScrollTime (sc s);
                scrolling_active := false; performance_mode := false |} |}
  else s.

Definition run_frame_callback (cb : frame_callback) (s : state) : state :=
  match cb with
  | Dispatch mutations => {| br := br s; co := dispatch mutations (co s); sc := sc s |}
  | ScrollCheck => scroll_check s
  end.

(** A paint frame: the callbacks waiting for it run in the order they were
    requested. *)
Definition frame (s : state) : state :=
  fold_left (fun s c => run_frame_callback (snd c) s) (frame_callbacks (br s))
            {| br := take_frame_callbacks (br s); co := co s; sc := sc s |}.

(** *** What can happen on the page *)

Inductive event :=
| Register (i : string)
| Unregister (i : string)
| SetActive (i : string) (a : bool)
| Mutations (mutations : batch)   (* the observer delivers a batch *)
| Input                           (* a scroll, wheel or touchmove event *)
| Timeout (h : positive)          (* the timeout with handle h fires *)
| Frame                           (* a paint frame *)
| Tick (d : Z).                   (* d ms go by *)

(** [None]: the browser cannot produce this event in this state. *)
Definition step (e : event) (s : state) : option state :=
  match e with
  | Register i => Some {| br := br s; co := registerObserverHandler i (co s); sc := sc s |}
  | Unregister i => Some {| br := br s; co := unregisterObserverHandler i (co s); sc := sc s |}
  | SetActive i a => Some {| br := br s; co := setObserverHandlerActive i a (co s); sc := sc s |}
  | Mutations m =>
      match unifiedObserver (co s) with
      | Some true =>
          let '(c, b) := on_mutations m (co s) (br s) in
          Some {| br := b; co := c; sc := sc s |}
      | _ => None
      end
  | Input => Some (handleScroll s)
  | Timeout h =>
      if due h (br s)
      then Some (on_timeout {| br := clearTimeout h (br s); co := co s; sc := sc s |})
      else None
  | Frame => Some (frame s)
  | Tick d =>
      if 0 <=? d then Some {| br := advance d (br s); co := co s; sc := sc s |}
      else None
  end.

Fixpoint run (es : list event) (s : state) : option state :=
  match es with
  | [] => Some s
  | e :: es' =>
      match step e s with
      | Some s' => run es' s'
      | None => None
      end
  end.

(** The page once [setupScrollStateDetection] has run, at time [t0]. *)
Definition initial (t0 : Z) : state :=
  {| br := {| frame_callbacks := []; next_frame_handle := 1%positive;
              timers := []; next_timer_handle := 1%positive; now := t0 |};
     co := {| observerHandlers := []; unifiedObserver := None; observerRafId := None;
              dispatched := []; pause_calls := 0; resume_calls := 0 |};
     sc := {| scrollTimeout := None; rafId := None; isScrolling := false;
              lastScrollTime := 0; scrolling_active := false;
              performance_mode := false |} |}.

(** *** Notions used to state what the page does *)

(** The batches whose dispatch is waiting for the next frame. *)
Definition pending_dispatches (q : list (positive * frame_callback)) : list batch :=
  flat_map (fun c => match snd c with
                     | Dispatch b => [b]
                     | ScrollCheck => []
                     end) q.

(** How often the handler named [i] is called in a list of calls. *)
Definition calls_to (i : string) (calls : list (string * batch)) : nat :=
  List.length (filter (fun c => String.eqb (fst c) i) calls).

(** The states the page can be in at time [t0] or later. *)
Definition reachable (s : state) : Prop :=
  exists t0 es, run es (initial t0) = Some s.

(** Every waiting dispatch is the one [observerRafId] names, there is at
    most one, and the registry maps each name to the handler of that name. *)
Definition observer_inv (s : state) : Prop :=
  (forall h b, In (h, Dispatch b) (frame_callbacks (br s)) -> observerRafId (co s) = Some h) /\
  (List.length (pending_dispatches (frame_callbacks (br s))) <= 1)%nat /\
  NoDup (map fst (observerHandlers (co s))) /\
  (forall k h, In (k, h) (observerHandlers (co s)) -> id h = k).


(** Frame handles are handed out in increasing order: those in use are
    below the next one. *)
Definition handles_fresh (s : state) : Prop :=
  (forall h, observerRafId (co s) = Some h -> (h < next_frame_handle (br s))%positive) /\
  (forall h cb, In (h, cb) (frame_callbacks (br s)) -> (h < next_frame_handle (br s))%positive).




(** A page with one active and one inactive handler. *)
Definition one_active_one_inactive : state :=
  match run [Register "title-bar"; Register "icon-injection";
             SetActive "icon-injection" false] (initial 0) with
  | Some s => s
  | None => initial 0
  end.

End Page.

(** ** Notions for the interception seen over whole event sequences *)
Module InterceptionTrace.
Import Interception.

(** What every payload sent on the launch channel looks like. *)
Definition well_formed (r : launch_request) : Prop :=
  (lr_player r = "vlc" \/ lr_player r = "mpchc") /\
  Js.startsWith (lr_url r) "http" = true /\
  lr_customPath r <> Some "".

(** The calls of the entry point among the events. *)
Fixpoint invocations (es : list event) : nat :=
  match es with
  | [] => 0%nat
  | Invoke _ :: es' => S (invocations es')
  | _ :: es' => invocations es'
  end.

(** A suspended invocation that has not sent its launch request. *)
Definition polling (s : session) : bool :=
  match s_at s with
  | AwaitCooldown => false
  | _ => true
  end.

(** The suspended invocations that may still send a launch request. *)
Definition pollers (ss : list session) : nat :=
  List.length (filter polling ss).

(** The stored settings of the examples: VLC, no custom path. *)
Definition vlc_settings : LocalStorage :=
  {| EXTERNAL_PLAYER := Some "vlc"; EXTERNAL_PLAYER_PATH := None |}.

End InterceptionTrace.

(** ** Notions for the life of the observer *)
Module PageLifecycle.
Import Page.

(** An observer exists exactly while a handler is registered, and it is
    disconnected only while the scroll monitor is active. *)
Definition lifecycle_inv (s : state) : Prop :=
  (observerHandlers (co s) = [] <-> unifiedObserver (co s) = None) /\
  (unifiedObserver (co s) = Some false -> isScrolling (sc s) = true).

(** The handler named [i] is registered. *)
Definition registered (i : string) (c : coordinator) : Prop :=
  In i (map fst (observerHandlers c)).

(** A page that is being scrolled while the title-bar handler is
    registered. *)
Definition scrolling_page : state :=
  match run [Register "title-bar"; Input] (initial 0) with
  | Some s => s
  | None => initial 0
  end.

End PageLifecycle.

(** ** The event listener cleanup registry ([registerEventCleanup],
       [runEventCleanups]) *)
Module EventCleanup.

Section Registry.
(** What the cleanup closures act on: the listeners attached to the page.
    The closures registered by this code remove listeners; none of them
    touches the registry itself. *)
Context {W : Type}.

(** A cleanup closure [() => void]: what a call of it does, and whether the
    call throws. *)
Definition cleanup := W -> W * bool.

(** [eventCleanupRegistry]: a [Map] from context to array, in insertion
    order. *)
Definition registry := list (string * list cleanup).

(** [eventCleanupRegistry.get(context)] *)
Fixpoint get (context : string) (r : registry) : option (list cleanup) :=
  match r with
  | [] => None
  | (k, cleanups) :: r' => if String.eqb context k then Some cleanups else get context r'
  end.

(** [eventCleanupRegistry.get(context)!.push(cleanup)]: the array is
    extended in place. *)
Fixpoint push (context : string) (c : cleanup) (r : registry) : registry :=
  match r with
  | [] => []
  | (k, cleanups) :: r' =>
      if String.eqb context k then (k, (cleanups ++ [c])%list) :: r'
      else (k, cleanups) :: push context c r'
  end.

(** [eventCleanupRegistry.delete(context)] *)
Fixpoint delete (context : string) (r : registry) : registry :=
  match r with
  | [] => []
  | (k, cleanups) :: r' =>
      if String.eqb context k then r' else (k, cleanups) :: delete context r'
  end.

Definition registerEventCleanup (context : string) (c : cleanup) (r : registry) : registry :=
  let r1 := match get context r with
            | Some _ => r
            | None => (r ++ [(context, [])])%list    (* set(context, []) *)
            end in
  push context c r1.

(** [cleanups.forEach(fn => { try { fn(); } catch (e) { logger.error(...) } })]:
    the page afterwards and the number of errors caught. *)
Definition run_all (cleanups : list cleanup) (w : W) : W * nat :=
  fold_left (fun (a : W * nat) (fn : cleanup) =>
               let '(w', threw) := fn (fst a) in
               (w', if threw then S (snd a) else snd a))
            cleanups (w, 0%nat).

Definition runEventCleanups (context : string) (r : registry) (w : W)
  : registry * W * nat :=
  match get context r with
  | Some cleanups =>
      let '(w', errors) := run_all cleanups w in
      (delete context r, w', errors)
  | None => (r, w, 0%nat)
  end.

(** *** Notions used to state what the registry does *)

(** The cleanups waiting under a context. *)
Definition pending (context : string) (r : registry) : list cleanup :=
  match get context r with
  | Some cleanups => cleanups
  | None => []
  end.

(** A series of registrations, oldest first. *)
Definition register_all (regs : list (string * cleanup)) (r : registry) : registry :=
  fold_left (fun r x => registerEventCleanup (fst x) (snd x) r) regs r.

(** The cleanups registered under a context by a series of registrations. *)
Definition registered_under (context : string) (regs : list (string * cleanup))
  : list cleanup :=
  map snd (filter (fun x => String.eqb (fst x) context) regs).

End Registry.
Arguments cleanup W : clear implicits.
Arguments registry W : clear implicits.

(** *** Example: the page as the list of listeners removed so far *)

Definition removes (name : string) : cleanup (list string) :=
  fun w => ((w ++ [name])%list, false).

(** A cleanup that removes its listener and then throws. *)
Definition removes_and_throws (name : string) : cleanup (list string) :=
  fun w => ((w ++ [name])%list, true).

Definition menu_registrations : list (string * cleanup (list string)) :=
  [ ("external-player-menu", removes "vlc-click");
    ("other", removes "other-click");
    ("external-player-menu", removes_and_throws "hover");
    ("external-player-menu", removes "native-click") ].

End EventCleanup.

(** ** Waiting for an element with exponential backoff
       ([waitForElementWithBackoff]) *)
Module Backoff.

Section Wait.
Context {Element : Type}.

(** [const delays = [50, 100, 200, 400, 800]] *)
Definition delays : list Z := [50; 100; 200; 400; 800].

(** [delays[Math.min(attempts, delays.length - 1)]] *)
Definition delay (attempts : nat) : Z :=
  nth (Nat.min attempts (List.length delays - 1)) delays 0.

(** The closure [check], called with [attempts] timers behind it;
    [querySelector k] is what [document.querySelector(selector)] returns to
    the call made after [k] timers, and [remaining] is
    [maxAttempts - attempts], so that [attempts < maxAttempts] is
    [remaining > 0]. The result is what the promise resolves to and the
    delays of the timers set on the way. *)
Fixpoint check (querySelector : nat -> option Element) (attempts remaining : nat)
  : option Element * list Z :=
  match querySelector attempts with
  | Some element => (Some element, [])
  | None =>
      match remaining with
      | S remaining' =>
          let '(r, ds) := check querySelector (S attempts) remaining' in
          (r, delay attempts :: ds)
      | O => (None, [])
      end
  end.

(** [waitForElementWithBackoff(selector, maxAttempts)], for an integral
    [maxAttempts]. *)
Definition waitForElementWithBackoff (querySelector : nat -> option Element)
    (maxAttempts : Z) : option Element * list Z :=
  check querySelector 0 (Z.to_nat maxAttempts).

End Wait.

(** The time spent in timers, at least. *)
Definition total (ds : list Z) : Z := fold_right Z.add 0 ds.

(** The delays of the first [k] timers. *)
Definition first_delays (k : nat) : list Z := map delay (seq 0 k).

(** A page on which the element appears after three timers. *)
Definition appears_after_three : nat -> option string :=
  fun k => if (k <? 3)%nat then None else Some "option-container".

End Backoff.

(** ** The lists of installed themes and plugins ([getModListsAsync]) *)
Module ModLists.

(** [f.endsWith(suffix)] *)
Fixpoint endsWith (s suffix : string) : bool :=
  if String.eqb s suffix then true
  else match s with
       | EmptyString => false
       | String _ s' => endsWith s' suffix
       end.

(** [Set.prototype.add] on the elements in insertion order. *)
Definition set_add (seen : list string) (x : string) : list string :=
  if existsb (String.eqb x) seen then seen else (seen ++ [x])%list.

(** [[...new Set(l)]] *)
Definition spread_set (l : list string) : list string := fold_left set_add l [].

(** [interface ModListCache] *)
Record ModListCache := {
  themes : option (list string);
  plugins : option (list string);
  lastUpdate : Z
}.

(** [const modCache = { themes: null, plugins: null, lastUpdate: 0 }] *)
Definition empty_cache : ModListCache :=
  {| themes := None; plugins := None; lastUpdate := 0 |}.

Definition CACHE_TTL : Z := 5000.

(** What the file system shows of one directory: [existsSync] is false, or
    [readdir] rejects, or [readdir] resolves to the names. *)
Inductive directory :=
| Absent
| Unreadable
| Listing (files : list string).

(** The four directories of [properties]. *)
Record disk := {
  themesPath : directory;
  bundledThemesPath : directory;
  pluginsPath : directory;
  bundledPluginsPath : directory
}.

(** [existsSync(p) ? readdir(p).then(files => files.filter(f => f.endsWith(ext)))
                   : Promise.resolve([])]; [None] when the promise rejects. *)
Definition list_mods (d : directory) (ext : string) : option (list string) :=
  match d with
  | Absent => Some []
  | Unreadable => None
  | Listing files => Some (filter (fun f => endsWith f ext) files)
  end.

(** [getModListsAsync]; [THEME] and [PLUGIN] are [FILE_EXTENSIONS.THEME] and
    [FILE_EXTENSIONS.PLUGIN] of [./constants], [now] is [Date.now()]. The
    first component is [None] when the returned promise rejects. *)
Definition getModListsAsync (THEME PLUGIN : string) (fs : disk) (now : Z)
    (modCache : ModListCache) : option (list string * list string) * ModListCache :=
  let refresh :=
    match list_mods (themesPath fs) THEME, list_mods (bundledThemesPath fs) THEME,
          list_mods (pluginsPath fs) PLUGIN, list_mods (bundledPluginsPath fs) PLUGIN with
    | Some userThemes, Some bundledThemes, Some userPlugins, Some bundledPlugins =>
        let t := spread_set (userThemes ++ bundledThemes) in
        let p := spread_set (userPlugins ++ bundledPlugins) in
        (Some (t, p), {| themes := Some t; plugins := Some p; lastUpdate := now |})
    | _, _, _, _ => (None, modCache)
    end in
  match themes modCache, plugins modCache with
  | Some t, Some p =>
      if now - lastUpdate modCache <? CACHE_TTL then (Some (t, p), modCache)
      else refresh
  | _, _ => refresh
  end.

(** *** Example disks *)

Definition two_sources : disk :=
  {| themesPath := Listing ["mine.theme.css"; "notes.txt"; "liquid-glass.theme.css"];
     bundledThemesPath := Listing ["liquid-glass.theme.css"];
     pluginsPath := Absent;
     bundledPluginsPath := Listing ["card-hover-info.plugin.js"; "readme.md"] |}.

Definition emptied : disk :=
  {| themesPath := Absent; bundledThemesPath := Unreadable;
     pluginsPath := Absent; bundledPluginsPath := Absent |}.

End ModLists.

(** ** Loading the enabled plugins ([loadEnabledPlugins]) *)
Module Plugins.
Import ModLists.

(** What [localStorage.getItem(STORAGE_KEYS.ENABLED_PLUGINS)] holds, by what
    the code makes of it: [NotStored] is [null] or the empty string;
    [EmptyLiteral] is the text ["[]"]; [Array l] is any other text that
    [JSON.parse] reads as the array of strings [l]; [Malformed] is a text
    [JSON.parse] throws on. *)
Inductive stored_plugins :=
| NotStored
| EmptyLiteral
| Array (l : list string)
| Malformed.

(** [JSON.stringify(enabledPlugins)] as the stored text is read back. *)
Definition stringify (enabledPlugins : list string) : stored_plugins :=
  match enabledPlugins with
  | [] => EmptyLiteral
  | _ => Array enabledPlugins
  end.

(** [l.includes(x)] *)
Definition includes (l : list string) (x : string) : bool := existsb (String.eqb x) l.

Definition cardHoverPlugin : string := "card-hover-info.plugin.js".

(** [loadEnabledPlugins]: the calls of [ModManager.loadPlugin] in order
    ([None] when the returned promise rejects, in which case none was made),
    the stored text and the cache afterwards. *)
Definition loadEnabledPlugins (THEME PLUGIN : string) (fs : disk) (now : Z)
    (modCache : ModListCache) (ENABLED_PLUGINS : stored_plugins)
  : option (list string) * stored_plugins * ModListCache :=
  match getModListsAsync THEME PLUGIN fs now modCache with
  | (None, modCache1) => (None, ENABLED_PLUGINS, modCache1)
  | (Some (_, pluginsToLoad), modCache1) =>
      match list_mods (bundledPluginsPath fs) PLUGIN with
      | None => (None, ENABLED_PLUGINS, modCache1)
      | Some bundledPlugins =>
          let first_run :=
            match ENABLED_PLUGINS with
            | NotStored | EmptyLiteral => true
            | _ => false
            end in
          let parsed :=
            if first_run then Some (bundledPlugins, stringify bundledPlugins)
            else match ENABLED_PLUGINS with
                 | Array l => Some (l, ENABLED_PLUGINS)
                 | _ => None         (* JSON.parse throws *)
                 end in
          match parsed with
          | None => (None, ENABLED_PLUGINS, modCache1)
          | Some (enabledPlugins, stored1) =>
              let '(enabledPlugins2, stored2) :=
                if includes pluginsToLoad cardHoverPlugin
                   && negb (includes enabledPlugins cardHoverPlugin)
                then let e := (enabledPlugins ++ [cardHoverPlugin])%list in (e, stringify e)
                else (enabledPlugins, stored1) in
              (Some (filter (fun plugin => includes enabledPlugins2 plugin) pluginsToLoad),
               stored2, modCache1)
          end
      end
  end.

(** The array a stored text stands for. *)
Definition enabled_of (s : stored_plugins) : list string :=
  match s with
  | Array l => l
  | _ => []
  end.

(** *** Example *)

Definition user_and_bundled : disk :=
  {| themesPath := Absent; bundledThemesPath := Absent;
     pluginsPath := Listing ["mine.plugin.js"; "other.plugin.js"];
     bundledPluginsPath := Listing ["card-hover-info.plugin.js"] |}.

End Plugins.

(** ** Default settings ([initializeUserSettings]) *)
Module UserSettings.

(** [localStorage] as a whole: its keys with their values. *)
Definition storage := list (string * string).

(** [localStorage.getItem(key)] *)
Fixpoint getItem (key : string) (ls : storage) : option string :=
  match ls with
  | [] => None
  | (k, v) :: ls' => if String.eqb key k then Some v else getItem key ls'
  end.

(** [localStorage.setItem(key, value)] *)
Fixpoint setItem (key value : string) (ls : storage) : storage :=
  match ls with
  | [] => [(key, value)]
  | (k, v) :: ls' =>
      if String.eqb key k then (k, value) :: ls' else (k, v) :: setItem key value ls'
  end.

(** [initializeUserSettings]; [defaults] is the object literal of that name,
    whose keys and several of whose values are constants of [./constants]. *)
Definition initializeUserSettings (defaults : JsObject.obj string) (localStorage : storage)
  : storage :=
  fold_left (fun ls kv =>
               if negb (Js.truthy (getItem (fst kv) ls))
               then setItem (fst kv) (snd kv) ls
               else ls)
            (JsObject.entries defaults) localStorage.

(** *** Example: three of the defaults, over a profile that has chosen VLC
        and has an empty update flag *)

Definition three_defaults : JsObject.obj string :=
  [("externalPlayer", "internal"); ("externalPlayerPath", ""); ("checkUpdates", "true")].

Definition vlc_profile : storage :=
  [("externalPlayer", "vlc"); ("checkUpdates", ""); ("volume", "0.5")].

End UserSettings.

(** ** Notions for the lists of themes and plugins *)
Module Installed.
Import ModLists.

(** The names [readdir] shows in a directory; none when it is absent. *)
Definition files_of (d : directory) : list string :=
  match d with
  | Listing files => files
  | _ => []
  end.

(** The cache does not answer at time [now]: it is not filled, or it is at
    least [CACHE_TTL] old. *)
Definition stale (now : Z) (modCache : ModListCache) : Prop :=
  themes modCache = None \/ plugins modCache = None \/
  CACHE_TTL <= now - lastUpdate modCache.

End Installed.

(** ** The theme stylesheet ([applyUserTheme], [refreshThemePosition]) *)
Module Theme.

(** An element, by what this code reads of it: its id and, for the element
    with the id "activeTheme", which the code types as an [HTMLLinkElement],
    its [href]. An [href] set from a file URL reads back as that URL. *)
Record node := {
  n_id : string;
  n_href : string
}.

(** The document: the elements inside [document.head] and those after it,
    each in document order; [head] is [None] while [document.head] is null.
    [loading] is [document.readyState === 'loading']. *)
Record document := {
  head : option (list node);
  body : list node;
  loading : bool
}.

(** The page: the document and [localStorage[STORAGE_KEYS.CURRENT_THEME]]. *)
Record page := {
  doc : document;
  CURRENT_THEME : option string
}.

(** How [applyUserTheme] arranges to be called again when there is no head. *)
Inductive retry :=
| OnDOMContentLoaded     (* document.addEventListener('DOMContentLoaded', applyUserTheme) *)
| OnAnimationFrame.      (* requestAnimationFrame(applyUserTheme) *)

Definition has_id (i : string) (n : node) : bool := String.eqb (n_id n) i.

Definition elements (d : document) : list node :=
  (match head d with
   | Some h => h
   | None => []
   end ++ body d)%list.

(** [document.getElementById(i)]: the first element in document order. *)
Definition getElementById (i : string) (d : document) : option node :=
  find (has_id i) (elements d).

Fixpoint remove_first (i : string) (l : list node) : list node :=
  match l with
  | [] => []
  | n :: l' => if has_id i n then l' else n :: remove_first i l'
  end.

(** [document.getElementById(i)?.remove()] *)
Definition remove_found (i : string) (d : document) : document :=
  match head d with
  | Some h =>
      if existsb (has_id i) h
      then {| head := Some (remove_first i h); body := body d; loading := loading d |}
      else {| head := Some h; body := remove_first i (body d); loading := loading d |}
  | None => {| head := None; body := remove_first i (body d); loading := loading d |}
  end.

Definition set_theme (t : string) (p : page) : page :=
  {| doc := doc p; CURRENT_THEME := Some t |}.

Definition set_doc (d : document) (p : page) : page :=
  {| doc := d; CURRENT_THEME := CURRENT_THEME p |}.

Definition DEFAULT_BUNDLED_THEME : string := "liquid-glass.theme.css".

(** The link element both routines create. *)
Definition theme_link (href : string) : node :=
  {| n_id := "activeTheme"; n_href := href |}.

Section Host.
(** [path.join], [pathToFileURL(p).toString()], [properties.themesPath],
    [properties.bundledThemesPath] and [existsSync]. *)
Variable join : string -> string -> string.
Variable pathToFileURL : string -> string.
Variables themesPath bundledThemesPath : string.
Variable existsSync : string -> bool.

(** [applyUserTheme]: the page afterwards, and the retry it has arranged
    when [document.head] was null. *)
Definition applyUserTheme (p : page) : page * option retry :=
  match head (doc p) with
  | None => (p, Some (if loading (doc p) then OnDOMContentLoaded else OnAnimationFrame))
  | Some _ =>
      let '(currentTheme, p1) :=
        match CURRENT_THEME p with
        | Some (String c t) => (String c t, p)
        | _ => (DEFAULT_BUNDLED_THEME, set_theme DEFAULT_BUNDLED_THEME p)
        end in
      if String.eqb currentTheme "Default" then (p1, None)
      else
        let userThemePath := join themesPath currentTheme in
        let bundledThemePath := join bundledThemesPath currentTheme in
        let themePath := if existsSync userThemePath then userThemePath else bundledThemePath in
        if negb (existsSync themePath) then (set_theme "Default" p1, None)
        else
          let url := pathToFileURL themePath in
          let already :=
            match getElementById "activeTheme" (doc p1) with
            | Some existingTheme => String.eqb (n_href existingTheme) url
            | None => false
            end in
          if already then (p1, None)
          else
            (* existingTheme?.remove(); insertBefore(themeElement, firstChild)
               or appendChild(themeElement) on an empty head *)
            let d := remove_found "activeTheme" (doc p1) in
            let h := match head d with Some h => h | None => [] end in
            (set_doc {| head := Some (theme_link url :: h); body := body d;
                        loading := loading d |} p1, None)
  end.

End Host.

(** [refreshThemePosition]: the page afterwards, and whether the call threw
    ([document.head] being null at [appendChild]). *)
Definition refreshThemePosition (p : page) : page * bool :=
  match getElementById "activeTheme" (doc p) with
  | None => (p, false)
  | Some themeElement =>
      let href := n_href themeElement in
      let d := remove_found "activeTheme" (doc p) in
      match head d with
      | Some h =>
          (set_doc {| head := Some (h ++ [theme_link href])%list; body := body d;
                      loading := loading d |} p, false)
      | None => (set_doc d p, true)
      end
  end.

(** *** Notions used to state what the routines do *)

(** The theme [applyUserTheme] works with. *)
Definition chosen_theme (p : page) : string :=
  match CURRENT_THEME p with
  | Some (String c t) => String c t
  | _ => DEFAULT_BUNDLED_THEME
  end.

(** How many elements carry the id "activeTheme". *)
Definition theme_count (d : document) : nat :=
  List.length (filter (has_id "activeTheme") (elements d)).

(** The elements that do not carry the id "activeTheme", in document
    order. *)
Definition others (d : document) : list node :=
  filter (fun n => negb (has_id "activeTheme" n)) (elements d).

(** *** Example: a profile with one theme, installed by the user *)

Definition example_join (a b : string) : string := a ++ "/" ++ b.
Definition example_url (p : string) : string := "file://" ++ p.
Definition example_exists (p : string) : bool := String.eqb p "/user/themes/mine.theme.css".

Definition stremio_style : node := {| n_id := "stremio"; n_href := "" |}.

Definition example_page : page :=
  {| doc := {| head := Some [stremio_style]; body := []; loading := false |};
     CURRENT_THEME := Some "mine.theme.css" |}.

End Theme.

(** ** Notions for the scroll monitor in every reachable state *)
Module ScrollMonitor.
Import Page.

(** The marker classes follow the flag; at most one debounce timer is
    pending, the one [scrollTimeout] names, due [SCROLL_DEBOUNCE] after the
    last input; while the monitor is active, that timer is pending or a
    check that will pass is waiting for the next frame; and the observer's
    frame request is never the one of a waiting check. *)
Definition scroll_inv (s : state) : Prop :=
  (scrolling_active (sc s) = isScrolling (sc s) /\
   performance_mode (sc s) = isScrolling (sc s)) /\
  (timers (br s) = [] \/
   exists h, timers (br s) = [(h, lastScrollTime (sc s) + SCROLL_DEBOUNCE)] /\
             scrollTimeout (sc s) = Some h) /\
  (isScrolling (sc s) = true ->
   timers (br s) <> [] \/
   ((exists h, In (h, ScrollCheck) (frame_callbacks (br s))) /\
    lastScrollTime (sc s) + SCROLL_DEBOUNCE <= now (br s))) /\
  (forall h, In (h, ScrollCheck) (frame_callbacks (br s)) -> observerRafId (co s) <> Some h).

(** A page scrolled at 0 ms and again at 30 ms, with a batch of mutations
    in between. *)
Definition scrolled_twice : state :=
  match run [Register "title-bar"; Mutations 1%nat; Input; Tick 30; Input] (initial 0) with
  | Some s => s
  | None => initial 0
  end.

End ScrollMonitor.

(** ** Collapsible sections ([setupCollapsibleHandlers],
       [createPluginGroupSection], [setupPluginGroupHandlers]) *)
Module Collapsible.
Import UserSettings.

(** The two click closures: the one added by [setupCollapsibleHandlers] and
    the one added by [setupPluginGroupHandlers]. *)
Inductive listener :=
| CollapsibleClick
| PluginGroupClick.

(** An element with the class [enhanced-collapsible-header], by what the
    code reads and writes of it and around it. *)
Record header := {
  data_section : option string;        (* getAttribute('data-section') *)
  data_collapsible_handler : bool;     (* hasAttribute('data-collapsible-handler') *)
  data_plugin_group_handler : bool;    (* hasAttribute('data-plugin-group-handler') *)
  in_plugin_group : bool;              (* matches '.plugin-group .enhanced-collapsible-header' *)
  collapsible : option bool;           (* closest('.enhanced-collapsible'): null, or whether
                                          it has the class 'collapsed' *)
  click_listeners : list listener      (* in the order they were added *)
}.

Definition set_collapsed (c : bool) (h : header) : header :=
  {| data_section := data_section h;
     data_collapsible_handler := data_collapsible_handler h;
     data_plugin_group_handler := data_plugin_group_handler h;
     in_plugin_group := in_plugin_group h;
     collapsible := match collapsible h with Some _ => Some c | None => None end;
     click_listeners := click_listeners h |}.

(** The storage key prefix each routine uses. *)
Definition prefix (l : listener) : string :=
  match l with
  | CollapsibleClick => "enhanced-collapsible-"
  | PluginGroupClick => "plugin-group-"
  end.

Definition has_handler (l : listener) (h : header) : bool :=
  match l with
  | CollapsibleClick => data_collapsible_handler h
  | PluginGroupClick => data_plugin_group_handler h
  end.

(** [header.setAttribute(..., 'true'); header.addEventListener('click', ...)] *)
Definition attach (l : listener) (h : header) : header :=
  {| data_section := data_section h;
     data_collapsible_handler :=
       match l with CollapsibleClick => true | _ => data_collapsible_handler h end;
     data_plugin_group_handler :=
       match l with PluginGroupClick => true | _ => data_plugin_group_handler h end;
     in_plugin_group := in_plugin_group h;
     collapsible := collapsible h;
     click_listeners := (click_listeners h ++ [l])%list |}.

(** The click closure of either routine. *)
Definition on_click (l : listener) (h : header) (ls : storage) : header * storage :=
  match collapsible h with
  | Some c =>
      (* collapsible.classList.toggle('collapsed') *)
      let isCollapsed := negb c in
      let h' := set_collapsed isCollapsed h in
      match data_section h with
      | Some (String a section) =>
          (h', setItem (prefix l ++ String a section)
                       (if isCollapsed then "collapsed" else "expanded") ls)
      | _ => (h', ls)
      end
  | None => (h, ls)
  end.

(** The body of [headers.forEach(header => { ... })] of either routine. *)
Definition setup_header (l : listener) (ls : storage) (h : header) : header :=
  if has_handler l h then h
  else
    let h1 := attach l h in
    (* Restore saved state *)
    match data_section h1 with
    | Some (String a section) =>
        match getItem (prefix l ++ String a section) ls, collapsible h1 with
        | Some savedState, Some _ =>
            if String.eqb savedState "collapsed" then set_collapsed true h1 else h1
        | _, _ => h1
        end
    | _ => h1
    end.

(** The timer callback of [setupCollapsibleHandlers], over the elements
    [querySelectorAll('.enhanced-collapsible-header')] finds. *)
Definition setupCollapsibleHandlers (ls : storage) (headers : list header) : list header :=
  map (setup_header CollapsibleClick ls) headers.

(** The timer callback of [setupPluginGroupHandlers]: of the same elements,
    those that [querySelectorAll('.plugin-group .enhanced-collapsible-header')]
    finds. *)
Definition setupPluginGroupHandlers (ls : storage) (headers : list header) : list header :=
  map (fun h => if in_plugin_group h then setup_header PluginGroupClick ls h else h) headers.

(** The header inside the element [createPluginGroupSection] returns: the
    section carries both classes [enhanced-collapsible] and [plugin-group]
    and is not collapsed. *)
Definition createPluginGroupSection (groupId : string) : header :=
  {| data_section := Some groupId;
     data_collapsible_handler := false; data_plugin_group_handler := false;
     in_plugin_group := true; collapsible := Some false; click_listeners := [] |}.

(** A click on the header: its listeners run in the order they were
    added. *)
Definition click (h : header) (ls : storage) : header * storage :=
  fold_left (fun (a : header * storage) l => on_click l (fst a) (snd a))
            (click_listeners h) (h, ls).

Fixpoint clicks (n : nat) (h : header) (ls : storage) : header * storage :=
  match n with
  | O => (h, ls)
  | S n' => let '(h', ls') := click h ls in clicks n' h' ls'
  end.

(** *** Notions and examples *)

(** A header as the page is built: in a collapsible that is not collapsed,
    outside the plugin groups, with nothing attached yet. *)
Definition fresh_header (section : string) : header :=
  {| data_section := Some section;
     data_collapsible_handler := false; data_plugin_group_handler := false;
     in_plugin_group := false; collapsible := Some false; click_listeners := [] |}.

(** A plugin group header once both timer callbacks have run over it. *)
Definition visit (groupId : string) (ls : storage) : header :=
  match setupPluginGroupHandlers ls
          (setupCollapsibleHandlers ls [createPluginGroupSection groupId]) with
  | [h] => h
  | _ => createPluginGroupSection groupId
  end.

End Collapsible.

(** ** Navigation to and from the player route (the [hashchange] listener,
       from [// Handle external player interception] to the end of that
       branch) *)
Module Navigation.
Import Interception.

(** The calls the listener makes besides the interception, in order. *)
Inductive action :=
| InitPlayerOverlay
| InitVideoFilter
| SaveCurrentStreamInfo       (* saveCurrentStreamInfo() is started, not awaited *)
| CleanupPlayerOverlay
| CleanupVideoFilter.

(** [!savedPlayer || savedPlayer === EXTERNAL_PLAYERS.BUILTIN ||
     savedPlayer === 'm3u'] *)
Definition wants_overlay (BUILTIN : string) (savedPlayer : option string) : bool :=
  match savedPlayer with
  | None => true
  | Some p => negb (Js.truthy (Some p)) || String.eqb p BUILTIN || String.eqb p "m3u"
  end.

(** The listener awaits the interception, run here with nothing
    interleaved, before it goes on: the world is the one the interception
    leaves, and the actions follow it. *)
Definition on_hashchange (BUILTIN : string) (href : string)
    (host : nat -> attempt_obs) (w : world) : world * list action :=
  if Js.includes href "#/player" then
    let savedPlayer := EXTERNAL_PLAYER (storage w) in
    let w' := snd (handleExternalPlayerInterception BUILTIN host w) in
    (w',
     ((if wants_overlay BUILTIN savedPlayer then [InitPlayerOverlay; InitVideoFilter] else [])
      ++ [SaveCurrentStreamInfo])%list)
  else (w, [CleanupPlayerOverlay; CleanupVideoFilter]).

End Navigation.

(** ** The installed version ([Updater.getCurrentVersion] of
       [src/core/Updater.ts], which [writeAbout] calls) *)
Module Updater.

(** [JSON.parse(readFileSync(path, "utf-8"))] as far as the code looks:
    the read or the parse throws (or yields a value whose property access
    throws), or it yields an object with this [version] property. *)
Inductive package_json :=
| NotParsed
| Parsed (version : option string).

(** Electron's [app], when it could be required. *)
Record electron_app := {
  isPackaged : bool;
  getAppPath : option string      (* app.getAppPath ? app.getAppPath() : absent *)
}.

Section Host.
(** [path.join], [String.prototype.trim], [app], [process.resourcesPath],
    [__dirname] and the file system as the two loops read it. *)
Variable join : list string -> string.
Variable trim : string -> string.
Variable app : option electron_app.
Variable resourcesPath : option string.
Variable dirname : string.
Variable read_package : string -> package_json.
Variable read_text : string -> option string.

(** [isPackaged && app] *)
Definition packaged : option electron_app :=
  match app with
  | Some a => if isPackaged a then Some a else None
  | None => None
  end.

Definition pathsToTry : list string :=
  match packaged with
  | Some a =>
      (match resourcesPath with
       | Some (String c r) =>
           [join [String c r; "app.asar"; "package.json"]; join [String c r; "package.json"]]
       | _ => []
       end
       ++ match getAppPath a with
          | Some p => [join [p; "package.json"]]
          | None => []
          end)%list
  | None => [join [dirname; "../"; "../"; "package.json"]]
  end.

Definition versionPathsToTry : list string :=
  match packaged with
  | Some a =>
      (match resourcesPath with
       | Some (String c r) =>
           [join [String c r; "app.asar"; "dist"; "version"]; join [String c r; "version"]]
       | _ => []
       end
       ++ match getAppPath a with
          | Some p => [join [p; "dist"; "version"]; join [p; "version"]]
          | None => []
          end)%list
  | None => [join [dirname; "../"; "version"]; join [dirname; "../"; "../"; "version"]]
  end.

(** [for (const packageJsonPath of pathsToTry) { try { ... } catch { continue; } }] *)
Fixpoint first_package_version (paths : list string) : option string :=
  match paths with
  | [] => None
  | p :: rest =>
      match read_package p with
      | Parsed (Some (String c v)) => Some (String c v)
      | _ => first_package_version rest
      end
  end.

(** [for (const versionFilePath of versionPathsToTry) { try { ... } catch { continue; } }] *)
Fixpoint first_version_file (paths : list string) : option string :=
  match paths with
  | [] => None
  | p :: rest =>
      match read_text p with
      | Some text => Some (trim text)
      | None => first_version_file rest
      end
  end.

(** [getCurrentVersion]: the version returned and [versionCache]
    afterwards. *)
Definition getCurrentVersion (versionCache : option string) : string * option string :=
  match versionCache with
  | Some (String c v) => (String c v, versionCache)
  | _ =>
      match first_package_version pathsToTry with
      | Some v => (v, Some v)
      | None =>
          match first_version_file versionPathsToTry with
          | Some v => (v, Some v)
          | None => ("0.0.0", Some "0.0.0")
          end
      end
  end.

End Host.

(** *** Example: a development checkout whose package.json says 1.2.3 *)

Definition example_join (parts : list string) : string := String.concat "" parts.

Definition checkout_package (p : string) : package_json :=
  if String.eqb p "/src/dist/../../package.json" then Parsed (Some "1.2.3") else NotParsed.

Definition no_file (p : string) : option string := None.

(** *** Example: a packaged application with no package.json in the archive,
        one beside it and one in the application directory; and one with no
        package.json at all and two version files *)

Definition slash_join (parts : list string) : string := String.concat "/" parts.

Definition packaged_app : electron_app :=
  {| isPackaged := true; getAppPath := Some "/app" |}.

Definition two_packages (p : string) : package_json :=
  if String.eqb p "/res/package.json" then Parsed (Some "2.0.0")
  else if String.eqb p "/app/package.json" then Parsed (Some "1.0.0")
  else NotParsed.

Definition two_version_files (p : string) : option string :=
  if String.eqb p "/res/version" then Some "3.1.0"
  else if String.eqb p "/app/version" then Some "3.0.0"
  else None.

End Updater.

(* ================================================================== *)
(** * Part II: properties                                              *)
(* ================================================================== *)

(** ** String primitives *)

Lemma prefix_app (p s : string) : String.prefix p (p ++ s) = true.
Proof.
  induction p as [|c p IH]; simpl.
  - now destruct s.
  - destruct (ascii_dec c c) as [_|N]; [exact IH | now elim N].
Qed.

Lemma prefix_inv (p s : string) :
  String.prefix p s = true -> exists b, s = p ++ b.
Proof.
  revert s. induction p as [|c p IH]; intros s H.
  - now exists s.
  - destruct s as [|d s]; simpl in H; [discriminate|].
    destruct (ascii_dec c d) as [->|]; [|discriminate].
    destruct (IH s H) as [b ->]. now exists b.
Qed.

Lemma includes_prefix (s p : string) :
  String.prefix p s = true -> Js.includes s p = true.
Proof.
  intros H. destruct s; unfold Js.includes; fold Js.includes; now rewrite H.
Qed.

Lemma includes_app (a p b : string) : Js.includes (a ++ p ++ b) p = true.
Proof.
  induction a as [|c a IH].
  - change ("" ++ p ++ b) with (p ++ b). apply includes_prefix, prefix_app.
  - simpl append. unfold Js.includes; fold Js.includes.
    destruct (String.prefix p (String c (a ++ p ++ b))); [reflexivity | exact IH].
Qed.

Lemma includes_inv (s p : string) :
  Js.includes s p = true -> exists a b, s = a ++ p ++ b.
Proof.
  induction s as [|c s IH]; unfold Js.includes; fold Js.includes.
  - destruct (String.prefix p "") eqn:E; [|discriminate].
    intros _. destruct (prefix_inv _ _ E) as [b Hb]. exists "", b. exact Hb.
  - destruct (String.prefix p (String c s)) eqn:E.
    + intros _. destruct (prefix_inv _ _ E) as [b Hb]. exists "", b. exact Hb.
    + intros H. destruct (IH H) as (a & b & ->).
      now exists (String c a), b.
Qed.

(** ** Route patterns on the routes of the specification *)

Example match_player_film :
  Route.match_player "#/player/vid1/hashA" = Some ("vid1", "hashA", None).
Proof. reflexivity. Qed.

Example match_player_episode_route :
  Route.match_player "app://host/index.html#/player/vid1/hashA/ep2"
  = Some ("vid1", "hashA", Some "ep2").
Proof. reflexivity. Qed.

Example match_player_needs_two_segments :
  Route.match_player "#/player/vid1" = None /\ Route.match_player "#/player//hashA" = None.
Proof. split; reflexivity. Qed.

Example match_detail_card :
  Route.match_detail "app://host/index.html#/detail/series/tt1/tt1:1:2"
  = Some ("series", "tt1").
Proof. reflexivity. Qed.

(** ** The patched play method *)

Lemma uses_internal_player_false (BUILTIN p : string) :
  p <> "" -> p <> BUILTIN -> p <> "disabled" -> p <> "m3u" ->
  uses_internal_player BUILTIN (Some p) = false.
Proof.
  intros H0 H1 H2 H3. unfold uses_internal_player.
  apply String.eqb_neq in H0, H1, H2, H3. rewrite H0, H1, H2, H3.
  destruct p; [discriminate | reflexivity].
Qed.

Lemma uses_internal_player_true (BUILTIN : string) (v : option string) :
  v = None \/ v = Some "" \/ v = Some BUILTIN \/ v = Some "disabled" \/ v = Some "m3u" ->
  uses_internal_player BUILTIN v = true.
Proof.
  intros [-> | [-> | [-> | [-> | ->]]]]; unfold uses_internal_player; try reflexivity.
  - rewrite String.eqb_refl. destruct (Js.truthy (Some BUILTIN)); reflexivity.
  - destruct (String.eqb "disabled" BUILTIN); reflexivity.
  - destruct (String.eqb "m3u" BUILTIN); reflexivity.
Qed.

(** ** Interception *)
Section InterceptionFacts.
Import Interception.
Variable BUILTIN : string.

Lemma launches_app (a b : list effect) :
  launches (a ++ b) = (launches a ++ launches b)%list.
Proof.
  induction a as [|e a IH]; [reflexivity|].
  destruct e; simpl; now rewrite ?IH.
Qed.

Lemma quiet_refl (w : world) : quiet w w.
Proof. now repeat split. Qed.

Lemma quiet_trans (a b c : world) : quiet a b -> quiet b c -> quiet a c.
Proof.
  intros (H1 & H2 & H3 & H4) (K1 & K2 & K3 & K4).
  repeat split; congruence.
Qed.

Lemma quiet_stop (w : world) : quiet w (stopAllVideos w).
Proof.
  repeat split. simpl. rewrite launches_app. simpl. now rewrite app_nil_r.
Qed.

Lemma run_None (fuel : nat) (w : world) : run fuel (None, w) = (None, w).
Proof. now destruct fuel. Qed.

Lemma run_step (fuel : nat) (s : session) (w : world) :
  run (S fuel) (Some s, w) = run fuel (resume s w).
Proof. reflexivity. Qed.

Lemma run_add (n m : nat) (c : option session * world) :
  run (n + m) c = run m (run n c).
Proof.
  revert c. induction n as [|n IH]; intros [[s|] w]; simpl.
  - reflexivity.
  - reflexivity.
  - apply IH.
  - now rewrite run_None.
Qed.

(** Once returned, more fuel changes nothing. *)
Lemma run_finished (n m : nat) (c : option session * world) (w : world) :
  (n <= m)%nat -> run n c = (None, w) -> run m c = (None, w).
Proof.
  intros Hle H. replace m with (n + (m - n))%nat by lia.
  now rewrite run_add, H, run_None.
Qed.

(** One iteration that finds nothing reaches the delay within two
    continuations, quietly. *)
Lemma iteration_without_url (s : session) (w : world) :
  s_at s = AwaitEval1 ->
  probe (s_host s (s_attempt s)) = None ->
  exists n ps w',
    (n <= 2)%nat /\
    run n (Some s, w) = (Some (suspend s ps (s_attempt s) AwaitDelay), w') /\ quiet w w'.
Proof.
  intros Hat Hp. unfold probe, polled in Hp.
  destruct (eval1 (s_host s (s_attempt s))) as [|[st|]] eqn:E1.
  - exists 1%nat, (s_playerState s), (stopAllVideos w).
    split; [lia|]. split; [|apply quiet_stop].
    simpl. unfold resume. now rewrite Hat, E1.
  - destruct (find_url st (video_src (s_host s (s_attempt s)))) eqn:EF; [discriminate|].
    exists 1%nat, (Some st), (stopAllVideos w).
    split; [lia|]. split; [|apply quiet_stop].
    simpl. unfold resume. rewrite Hat, E1. unfold after_evals. now rewrite EF.
  - assert (R1 : resume s w = (Some (suspend s None (s_attempt s) AwaitEval2), w)).
    { unfold resume. now rewrite Hat, E1. }
    destruct (eval2 (s_host s (s_attempt s))) as [|[st|]] eqn:E2.
    + exists 2%nat, None, (stopAllVideos w).
      split; [lia|]. split; [|apply quiet_stop].
      rewrite run_step, R1, run_step. unfold resume. simpl. now rewrite E2.
    + destruct (find_url st (video_src (s_host s (s_attempt s)))) eqn:EF; [discriminate|].
      exists 2%nat, (Some st), (stopAllVideos w).
      split; [lia|]. split; [|apply quiet_stop].
      rewrite run_step, R1, run_step. unfold resume. simpl. rewrite E2.
      unfold after_evals. simpl. now rewrite EF.
    + exists 2%nat, None, (stopAllVideos w).
      split; [lia|]. split; [|apply quiet_stop].
      rewrite run_step, R1, run_step. unfold resume. simpl. now rewrite E2.
Qed.

(** One iteration that finds an address reaches the cooldown within two
    continuations, having sent one launch request. *)
Lemma iteration_with_url (s : session) (w : world) (st : PlayerState) (u : string) :
  s_at s = AwaitEval1 ->
  probe (s_host s (s_attempt s)) = Some (st, u) ->
  exists n,
    (n <= 2)%nat /\
    run n (Some s, w)
    = (Some (suspend s (Some st) (s_attempt s) AwaitCooldown),
       launched (s_externalPlayer s) st u w).
Proof.
  intros Hat Hp. unfold probe, polled in Hp.
  destruct (eval1 (s_host s (s_attempt s))) as [|[st1|]] eqn:E1; [discriminate| |].
  - destruct (find_url st1 (video_src (s_host s (s_attempt s)))) eqn:EF; [|discriminate].
    injection Hp as -> ->. exists 1%nat. split; [lia|].
    simpl. unfold resume. rewrite Hat, E1. unfold after_evals. now rewrite EF.
  - assert (R1 : resume s w = (Some (suspend s None (s_attempt s) AwaitEval2), w)).
    { unfold resume. now rewrite Hat, E1. }
    destruct (eval2 (s_host s (s_attempt s))) as [|[st2|]] eqn:E2; try discriminate.
    destruct (find_url st2 (video_src (s_host s (s_attempt s)))) eqn:EF; [|discriminate].
    injection Hp as -> ->. exists 2%nat. split; [lia|].
    rewrite run_step, R1, run_step. unfold resume. simpl. rewrite E2.
    unfold after_evals. simpl. now rewrite EF.
Qed.

(** Iterations that find nothing only move the loop counter. *)
Lemma skip_iterations (d : nat) :
  forall (s : session) (w : world),
    s_at s = AwaitEval1 ->
    (s_attempt s + d < MAX_ATTEMPTS)%nat ->
    (forall j, (s_attempt s <= j < s_attempt s + d)%nat -> probe (s_host s j) = None) ->
    exists m ps w',
      (m <= 3 * d)%nat /\
      run m (Some s, w) = (Some (suspend s ps (s_attempt s + d) AwaitEval1), w') /\
      quiet w w'.
Proof.
  induction d as [|d IH]; intros s w Hat Hlt Hnone.
  - exists 0%nat, (s_playerState s), w. split; [lia|]. split; [|apply quiet_refl].
    simpl. rewrite Nat.add_0_r. destruct s; simpl in *. now subst.
  - destruct (iteration_without_url s w Hat) as (n & ps & w1 & Hn & Hrun & Hq).
    { apply Hnone. lia. }
    set (s1 := suspend s ps (S (s_attempt s)) AwaitEval1).
    assert (R : resume (suspend s ps (s_attempt s) AwaitDelay) w1 = (Some s1, w1)).
    { unfold resume. simpl.
      replace (S (s_attempt s) <? MAX_ATTEMPTS)%nat with true; [reflexivity|].
      symmetry. apply Nat.ltb_lt. lia. }
    destruct (IH s1 w1) as (m & ps' & w2 & Hm & Hrun2 & Hq2).
    + reflexivity.
    + simpl. lia.
    + intros j Hj. simpl in Hj |- *. apply Hnone. lia.
    + exists (n + (1 + m))%nat, ps', w2. split; [lia|]. split.
      * rewrite run_add, Hrun, run_add. simpl run at 2. rewrite R.
        rewrite Hrun2. simpl. do 2 f_equal. unfold suspend. simpl. f_equal. lia.
      * eapply quiet_trans; eassumption.
Qed.

(** A loop in which no iteration finds an address ends in the clean-up of
    [if (!streamUrl)]. *)
Lemma loop_exhausted (s : session) (w : world) :
  s_at s = AwaitEval1 -> s_attempt s = 0%nat ->
  (forall j, (j < MAX_ATTEMPTS)%nat -> probe (s_host s j) = None) ->
  exists w',
    run (3 * MAX_ATTEMPTS) (Some s, w) = (None, set_busy false (set_marker false w')) /\
    quiet w w'.
Proof.
  intros Hat H0 Hnone.
  destruct (skip_iterations 19 s w Hat) as (m & ps & w1 & Hm & Hrun & Hq).
  { rewrite H0. unfold MAX_ATTEMPTS. lia. }
  { intros j Hj. apply Hnone. unfold MAX_ATTEMPTS. lia. }
  rewrite H0 in Hrun. simpl in Hrun.
  set (s1 := suspend s ps 19 AwaitEval1) in *.
  destruct (iteration_without_url s1 w1 eq_refl) as (n & ps' & w2 & Hn & Hrun2 & Hq2).
  { simpl. apply Hnone. unfold MAX_ATTEMPTS. lia. }
  exists w2. split; [|eapply quiet_trans; eassumption].
  apply run_finished with (n := (m + (n + 1))%nat); [unfold MAX_ATTEMPTS; lia|].
  rewrite run_add, Hrun, run_add, Hrun2. reflexivity.
Qed.

(** A loop whose iteration [k] is the first to find an address ends with one
    launch request, the cooldown and the clean-up. *)
Lemma loop_found (s : session) (w : world) (k : nat) (st : PlayerState) (u : string) :
  s_at s = AwaitEval1 -> s_attempt s = 0%nat -> (k < MAX_ATTEMPTS)%nat ->
  (forall j, (j < k)%nat -> probe (s_host s j) = None) ->
  probe (s_host s k) = Some (st, u) ->
  exists w',
    run (3 * MAX_ATTEMPTS) (Some s, w)
    = (None, emit EHistoryBack
               (set_busy false (set_marker false
                  (emit EKeepPausedStop (launched (s_externalPlayer s) st u w'))))) /\
    quiet w w'.
Proof.
  intros Hat H0 Hk Hnone Hsome.
  destruct (skip_iterations k s w Hat) as (m & ps & w1 & Hm & Hrun & Hq).
  { rewrite H0. simpl. exact Hk. }
  { intros j Hj. apply Hnone. lia. }
  rewrite H0 in Hrun. simpl in Hrun.
  set (s1 := suspend s ps k AwaitEval1) in *.
  destruct (iteration_with_url s1 w1 st u eq_refl Hsome) as (n & Hn & Hrun2).
  exists w1. split; [|exact Hq].
  apply run_finished with (n := (m + (n + 1))%nat); [unfold MAX_ATTEMPTS in *; lia|].
  rewrite run_add, Hrun, run_add, Hrun2. reflexivity.
Qed.

Lemma locate_from_none (host : nat -> attempt_obs) (n : nat) :
  forall k, (forall j, (k <= j < k + n)%nat -> probe (host j) = None) ->
            locate_from host k n = None.
Proof.
  induction n as [|n IH]; intros k H; simpl; [reflexivity|].
  rewrite (H k) by lia. apply IH. intros j Hj. apply H. lia.
Qed.

Lemma locate_from_first (host : nat -> attempt_obs) (r : PlayerState * string) (d : nat) :
  forall k n, (d < n)%nat ->
    (forall j, (k <= j < k + d)%nat -> probe (host j) = None) ->
    probe (host (k + d)%nat) = Some r ->
    locate_from host k n = Some r.
Proof.
  induction d as [|d IH]; intros k n Hn Hnone Hsome.
  - destruct n; [lia|]. simpl. rewrite Nat.add_0_r in Hsome. now rewrite Hsome.
  - destruct n; [lia|]. simpl. rewrite (Hnone k) by lia.
    apply IH; [lia| |].
    + intros j Hj. apply Hnone. lia.
    + now replace (S k + d)%nat with (k + S d)%nat by lia.
Qed.

Lemma start_intercepts (host : nat -> attempt_obs) (w : world) (p : string) :
  isHandlingExternalPlayer w = false ->
  EXTERNAL_PLAYER (storage w) = Some p ->
  p = "vlc" \/ p = "mpchc" ->
  p <> BUILTIN ->
  start BUILTIN host w
  = (Some {| s_host := host; s_externalPlayer := p; s_playerState := None;
             s_attempt := 0; s_at := AwaitEval1 |}, primed w).
Proof.
  intros Hb Hp Hv Hn. unfold start. rewrite Hb, Hp.
  rewrite uses_internal_player_false; try assumption;
    try (destruct Hv as [-> | ->]; discriminate).
  destruct Hv as [-> | ->]; reflexivity.
Qed.

(** Whatever its guards decide, a call made while idle either returns at once
    with the marker removed or starts polling. *)
Lemma start_cases (host : nat -> attempt_obs) (w : world) :
  isHandlingExternalPlayer w = false ->
  start BUILTIN host w = (None, set_marker false w) \/
  exists p, start BUILTIN host w
            = (Some {| s_host := host; s_externalPlayer := p; s_playerState := None;
                       s_attempt := 0; s_at := AwaitEval1 |}, primed w).
Proof.
  intros Hb. unfold start. rewrite Hb.
  destruct (uses_internal_player BUILTIN (EXTERNAL_PLAYER (storage w))); [now left|].
  destruct (EXTERNAL_PLAYER (storage w)) as [p|]; [|now left].
  destruct (negb (p =? "vlc")%string && negb (p =? "mpchc")%string); [now left|].
  right. now exists p.
Qed.

(** Either no iteration below [n] finds an address, or there is a first one
    that does. *)
Lemma first_hit (host : nat -> attempt_obs) (n : nat) :
  (forall j, (j < n)%nat -> probe (host j) = None) \/
  exists k st u,
    (k < n)%nat /\ (forall j, (j < k)%nat -> probe (host j) = None) /\
    probe (host k) = Some (st, u).
Proof.
  induction n as [|n [IH | (k & st & u & Hk & Hnone & Hsome)]].
  - left. intros j Hj. lia.
  - destruct (probe (host n)) as [[st u]|] eqn:E.
    + right. exists n, st, u. repeat split; auto.
    + left. intros j Hj. destruct (Nat.eq_dec j n) as [->|]; [exact E | apply IH; lia].
  - right. exists k, st, u. repeat split; auto.
Qed.

(** Run in isolation, every call returns: the fuel is enough whatever the
    host answers. *)
Lemma call_returns (host : nat -> attempt_obs) (w : world) :
  fst (handleExternalPlayerInterception BUILTIN host w) = None.
Proof.
  unfold handleExternalPlayerInterception.
  destruct (isHandlingExternalPlayer w) eqn:Hb.
  - unfold start. rewrite Hb. now rewrite run_None.
  - destruct (start_cases host w Hb) as [-> | [p ->]]; [now rewrite run_None|].
    set (s := {| s_host := host; s_externalPlayer := p; s_playerState := None;
                 s_attempt := 0; s_at := AwaitEval1 |}).
    destruct (first_hit host MAX_ATTEMPTS) as [Hnone | (k & st & u & Hk & Hnone & Hsome)].
    + destruct (loop_exhausted s (primed w) eq_refl eq_refl Hnone) as (w' & Hrun & _).
      now rewrite (run_finished _ FUEL _ _ (Nat.le_succ_diag_r _) Hrun).
    + destruct (loop_found s (primed w) k st u eq_refl eq_refl Hk Hnone Hsome)
        as (w' & Hrun & _).
      now rewrite (run_finished _ FUEL _ _ (Nat.le_succ_diag_r _) Hrun).
Qed.

(** A continuation that does not return leaves the busy flag alone. *)
Lemma resume_keeps_busy (s s' : session) (w w' : world) :
  resume s w = (Some s', w') ->
  isHandlingExternalPlayer w' = isHandlingExternalPlayer w.
Proof.
  unfold resume, after_evals.
  destruct (s_at s).
  - destruct (eval1 _) as [|[st|]]; try (intros [= _ <-]; reflexivity).
    destruct (find_url _ _); intros [= _ <-]; reflexivity.
  - destruct (eval2 _) as [|[st|]]; try (intros [= _ <-]; reflexivity).
    destruct (find_url _ _); intros [= _ <-]; reflexivity.
  - destruct (_ <? _)%nat; [|discriminate]. intros [= _ <-]; reflexivity.
  - discriminate.
Qed.

Lemma single_session_step (e : event) (m : machine) :
  single_session m -> single_session (step BUILTIN e m).
Proof.
  intros Inv. destruct e as [host | i | b | ls]; simpl.
  - (* Invoke *)
    destruct (isHandlingExternalPlayer (m_world m)) eqn:Hb.
    + unfold start. rewrite Hb. simpl. exact Inv.
    + destruct Inv as [Hnil | [_ Habs]]; [|congruence].
      destruct (start_cases host (m_world m) Hb) as [-> | [p ->]]; simpl.
      * now left.
      * right. rewrite Hnil. split; [eexists; reflexivity | reflexivity].
  - (* Continue *)
    destruct (nth_error (m_sessions m) i) as [s|] eqn:Hn; [|exact Inv].
    destruct Inv as [Hnil | [[s0 Hs0] Hb]].
    { rewrite Hnil in Hn. now destruct i. }
    rewrite Hs0 in Hn |- *.
    destruct i as [|i]; [|now destruct i].
    simpl in Hn. injection Hn as ->.
    destruct (resume s (m_world m)) as [[s'|] w'] eqn:R; simpl.
    + right. split; [eexists; reflexivity|].
      simpl. now rewrite (resume_keeps_busy _ _ _ _ R).
    + now left.
  - (* Click *)
    destruct Inv as [Hnil | [Hs Hb]]; [now left|].
    right. split; [exact Hs|]. unfold handlePlayButtonClick.
    destruct (uses_internal_player _ _); [exact Hb|]. now destruct b.
  - (* SetSetting *)
    destruct Inv as [Hnil | [Hs Hb]]; [now left | now right].
Qed.

Lemma single_session_steps (es : list event) :
  forall m, single_session m -> single_session (steps BUILTIN es m).
Proof.
  induction es as [|e es IH]; intros m Inv; [exact Inv|].
  apply IH, single_session_step, Inv.
Qed.

End InterceptionFacts.

Section InterceptionClaims.
Import Interception.

(** C1, as stated, fails: with the player "vlc", an address found on the
    third iteration and no name in the player state, the one launch request
    carries the title "Stremio Stream", not "Stream". *)
Lemma launch_fallback_title_is_not_Stream :
  metaItem_content_name (bare_state (Some "https://x/stream.m3u8")) = None /\
  launches (effects (snd (handleExternalPlayerInterception "internal" third_attempt_host
                            (idle_world "vlc"))))
  = [ {| lr_player := "vlc"; lr_url := "https://x/stream.m3u8";
         lr_title := "Stremio Stream"; lr_customPath := None |} ] /\
  "Stremio Stream" <> "Stream".
Proof.
  split; [reflexivity|]. split; [vm_compute; reflexivity | discriminate].
Qed.

(** C1 (amended): in a call made while idle with the player "vlc" or "mpchc"
    (neither being the built-in marker), when iteration k < 20 is the first whose probe finds an address u in the
    state st, the call returns having sent exactly one launch request; it
    carries the configured player, u, the stored custom path when that is a
    non-empty string, and a title that is: the content name followed by
    " S<season>E<episode>" when the name is non-empty and season and episode
    are both present and non-zero; the content name alone when season or
    episode is absent; the state's own title when there is no content name
    and that title is non-empty; "Stremio Stream" when there is neither. *)
Theorem one_launch_with_derived_title :
  forall (BUILTIN : string) (host : nat -> attempt_obs) (w : world) (p : string)
         (k : nat) (st : PlayerState) (u : string),
    isHandlingExternalPlayer w = false ->
    EXTERNAL_PLAYER (storage w) = Some p ->
    p = "vlc" \/ p = "mpchc" ->
    p <> BUILTIN ->
    (k < 20)%nat ->
    (forall j, (j < k)%nat -> probe (host j) = None) ->
    probe (host k) = Some (st, u) ->
    let r := handleExternalPlayerInterception BUILTIN host w in
    exists (t : string) (cp : option string),
      fst r = None /\
      locate host = Some (st, u) /\
      launches (effects (snd r))
      = (launches (effects w)
         ++ [ {| lr_player := p; lr_url := u; lr_title := t; lr_customPath := cp |} ])%list /\
      (forall q, EXTERNAL_PLAYER_PATH (storage w) = Some q -> q <> "" -> cp = Some q) /\
      (EXTERNAL_PLAYER_PATH (storage w) = None \/ EXTERNAL_PLAYER_PATH (storage w) = Some ""
       -> cp = None) /\
      (forall n s e,
          metaItem_content_name st = Some n -> n <> "" ->
          seriesInfo_season st = Some s -> seriesInfo_episode st = Some e ->
          s <> 0 -> e <> 0 ->
          t = n ++ " S" ++ Js.number_to_string s ++ "E" ++ Js.number_to_string e) /\
      (forall n,
          metaItem_content_name st = Some n -> n <> "" ->
          seriesInfo_season st = None \/ seriesInfo_episode st = None ->
          t = n) /\
      (forall x,
          metaItem_content_name st = None \/ metaItem_content_name st = Some "" ->
          title st = Some x -> x <> "" ->
          t = x) /\
      (metaItem_content_name st = None \/ metaItem_content_name st = Some "" ->
       title st = None \/ title st = Some "" ->
       t = "Stremio Stream").
Proof.
  intros BUILTIN host w p k st u Hb Hp Hv Hn Hk Hnone Hsome r.
  exists (build_title (Some st)),
         (match EXTERNAL_PLAYER_PATH (storage w) with
          | Some (String c q) => Some (String c q)
          | _ => None
          end).
  subst r. unfold handleExternalPlayerInterception.
  rewrite (start_intercepts BUILTIN host w p Hb Hp Hv Hn).
  destruct (loop_found
              {| s_host := host; s_externalPlayer := p; s_playerState := None;
                 s_attempt := 0; s_at := AwaitEval1 |}
              (primed w) k st u eq_refl eq_refl Hk Hnone Hsome)
    as (w' & Hrun & Hq1 & Hq2 & Hq3 & Hq4).
  rewrite (run_finished _ FUEL _ _ (Nat.le_succ_diag_r _) Hrun) by (unfold FUEL; lia).
  split; [reflexivity|]. split.
  { apply (locate_from_first host (st, u) k 0 MAX_ATTEMPTS Hk); [|exact Hsome].
    intros j Hj. apply Hnone. lia. }
  split.
  { simpl. rewrite !launches_app. simpl. rewrite Hq3, Hq4. simpl.
    rewrite launches_app. simpl. now rewrite !app_nil_r. }
  split.
  { intros q -> Hq. destruct q; [now elim Hq | reflexivity]. }
  split.
  { intros [-> | ->]; reflexivity. }
  unfold build_title. split; [|split; [|split]].
  - intros n s e -> Hne -> -> Hs He. destruct n as [|c n]; [now elim Hne|].
    unfold Js.truthy_num. apply Z.eqb_neq in Hs, He. now rewrite Hs, He.
  - intros n -> Hne Hse. destruct n as [|c n]; [now elim Hne|].
    destruct Hse as [-> | ->]; [reflexivity|]. now destruct (seriesInfo_season st).
  - intros x Hname -> Hx. destruct x as [|c x]; [now elim Hx|].
    destruct Hname as [-> | ->]; reflexivity.
  - intros [-> | ->] [-> | ->]; reflexivity.
Qed.

(** The theorem of C1 at the episode of the example: found by the alternative
    query on the third iteration, launched once as "Show S1E2". *)
Lemma one_launch_with_derived_title_witness :
  exists cp,
    launches (effects (snd (handleExternalPlayerInterception "internal" episode_host
                              (idle_world "mpchc"))))
    = [ {| lr_player := "mpchc"; lr_url := "https://x/stream.m3u8";
           lr_title := "Show S1E2"; lr_customPath := cp |} ].
Proof.
  destruct (one_launch_with_derived_title "internal" episode_host (idle_world "mpchc")
              "mpchc" 2 _ "https://x/stream.m3u8"
              eq_refl eq_refl (or_intror eq_refl)
              ltac:(discriminate) ltac:(lia)
              ltac:(intros [|[|j]] Hj; [reflexivity | reflexivity | lia])
              eq_refl)
    as (t & cp & _ & _ & Hl & _ & _ & Ht & _).
  exists cp. rewrite Hl.
  rewrite (Ht "Show" 1 2 eq_refl ltac:(discriminate) eq_refl eq_refl
              ltac:(discriminate) ltac:(discriminate)).
  reflexivity.
Defined.

(** C2: a call of the entry point made while the busy flag is set returns at
    once and leaves the busy flag, the marker class, the settings and the
    effects (so also the launch requests) exactly as they were, and it
    suspends no invocation; and however calls, their continuations,
    play-button clicks and settings changes interleave from page load on, at
    most one invocation is ever suspended. *)
Theorem busy_call_is_noop_and_sessions_are_single :
  forall (BUILTIN : string),
    (forall (host : nat -> attempt_obs) (w : world),
        isHandlingExternalPlayer w = true ->
        handleExternalPlayerInterception BUILTIN host w = (None, w)) /\
    (forall (host : nat -> attempt_obs) (m : machine),
        isHandlingExternalPlayer (m_world m) = true ->
        step BUILTIN (Invoke host) m = m) /\
    (forall (ls : LocalStorage) (es : list event),
        (List.length (m_sessions (steps BUILTIN es (initial ls))) <= 1)%nat).
Proof.
  intros BUILTIN. split; [|split].
  - intros host w Hb. unfold handleExternalPlayerInterception, start.
    rewrite Hb. apply run_None.
  - intros host [w ss] Hb. simpl in Hb. unfold step, start. simpl. now rewrite Hb.
  - intros ls es.
    destruct (single_session_steps BUILTIN es (initial ls)) as [-> | [[s ->] _]].
    + now left.
    + simpl. lia.
    + simpl. lia.
Qed.

(** The theorem of C2 at a page that is polling. *)
Lemma busy_call_is_noop_witness :
  handleExternalPlayerInterception "internal" third_attempt_host busy_world
  = (None, busy_world).
Proof.
  apply (proj1 (busy_call_is_noop_and_sessions_are_single "internal")
               third_attempt_host busy_world).
  reflexivity.
Defined.

(** The flag is also set by [handlePlayButtonClick], outside any call: a
    call that follows a click on a play button finds the flag set, returns at
    once, and nothing clears the flag afterwards. *)
Remark call_after_play_button_click_is_skipped :
  forall (BUILTIN : string) (host : nat -> attempt_obs) (w : world) (p : string),
    EXTERNAL_PLAYER (storage w) = Some p ->
    p = "vlc" \/ p = "mpchc" -> p <> BUILTIN ->
    let w1 := handlePlayButtonClick BUILTIN true w in
    isHandlingExternalPlayer w1 = true /\
    handleExternalPlayerInterception BUILTIN host w1 = (None, w1).
Proof.
  intros BUILTIN host w p Hp Hv Hn w1.
  assert (Hb : isHandlingExternalPlayer w1 = true).
  { subst w1. unfold handlePlayButtonClick. rewrite Hp.
    rewrite uses_internal_player_false; try assumption;
      try (destruct Hv as [-> | ->]; discriminate).
    reflexivity. }
  split; [exact Hb|].
  unfold handleExternalPlayerInterception, start. rewrite Hb. apply run_None.
Qed.

(** C3: in a call made while idle, if on none of the 20 iterations a polled
    player state has a candidate field ([stream.content.url],
    [selected.stream.deepLinks.externalPlayer.streaming], [stream.url],
    [stream.externalUrl]) that starts with "http", nor the first video
    element a source that does, then the locator finds nothing and the call
    returns with the busy flag false, the marker class removed and no launch
    request sent. *)
Theorem exhausted_locator_returns_to_idle :
  forall (BUILTIN : string) (host : nat -> attempt_obs) (w : world),
    isHandlingExternalPlayer w = false ->
    (forall k st c u,
        (k < 20)%nat ->
        eval1 (host k) = EvalValue (Some st) \/ eval2 (host k) = EvalValue (Some st) ->
        In c (possibleUrls st) -> c = Some u -> Js.startsWith u "http" = false) ->
    (forall k src,
        (k < 20)%nat -> video_src (host k) = Some src -> Js.startsWith src "http" = false) ->
    let r := handleExternalPlayerInterception BUILTIN host w in
    locate host = None /\
    fst r = None /\
    isHandlingExternalPlayer (snd r) = false /\
    marker (snd r) = false /\
    launches (effects (snd r)) = launches (effects w).
Proof.
  intros BUILTIN host w Hb Hfields Hvideo r.
  assert (Hprobe : forall j, (j < MAX_ATTEMPTS)%nat -> probe (host j) = None).
  { intros j Hj. unfold probe.
    destruct (polled (host j)) as [st|] eqn:Hpo; [|reflexivity].
    assert (Hst : eval1 (host j) = EvalValue (Some st) \/ eval2 (host j) = EvalValue (Some st)).
    { unfold polled in Hpo.
      destruct (eval1 (host j)) as [|[st1|]]; [discriminate | left; congruence |].
      destruct (eval2 (host j)) as [|v]; [discriminate | right; congruence]. }
    assert (Hq : forall c, In c (possibleUrls st) -> qualifies c = false).
    { intros [x|] Hin; [|reflexivity]. unfold qualifies.
      rewrite (Hfields j st (Some x) x Hj Hst Hin eq_refl). apply andb_false_r. }
    unfold find_url.
    replace (first_qualifying (possibleUrls st)) with (@None string).
    - destruct (video_src (host j)) as [src|] eqn:Hsrc; [|reflexivity].
      rewrite (Hvideo j src Hj Hsrc). now rewrite andb_false_r.
    - symmetry. revert Hq. generalize (possibleUrls st).
      induction l as [|c l IH]; intros Hq; [reflexivity|]. simpl.
      rewrite (Hq c (or_introl eq_refl)). apply IH.
      intros c' Hc'. apply Hq. now right. }
  split.
  { apply locate_from_none. intros j Hj. apply Hprobe. lia. }
  subst r. unfold handleExternalPlayerInterception.
  destruct (start_cases BUILTIN host w Hb) as [-> | [p ->]].
  - rewrite run_None. simpl. repeat split; assumption.
  - destruct (loop_exhausted
                {| s_host := host; s_externalPlayer := p; s_playerState := None;
                   s_attempt := 0; s_at := AwaitEval1 |}
                (primed w) eq_refl eq_refl Hprobe)
      as (w' & Hrun & Hq1 & Hq2 & Hq3 & Hq4).
    rewrite (run_finished _ FUEL _ _ (Nat.le_succ_diag_r _) Hrun).
    simpl. repeat split. rewrite Hq4. simpl. rewrite launches_app. simpl.
    now rewrite app_nil_r.
Qed.

(** The theorem of C3 at a host that shows a magnet link and a blob source. *)
Lemma exhausted_locator_returns_to_idle_witness :
  let r := handleExternalPlayerInterception "internal" never_host (idle_world "vlc") in
  locate never_host = None /\
  fst r = None /\
  isHandlingExternalPlayer (snd r) = false /\
  marker (snd r) = false /\
  launches (effects (snd r)) = launches (effects (idle_world "vlc")).
Proof.
  apply (exhausted_locator_returns_to_idle "internal" never_host (idle_world "vlc")).
  - reflexivity.
  - intros k st c u _ [H | H]; [|discriminate].
    injection H as <-. simpl.
    intros [<- | [<- | [<- | [<- | []]]]]; try discriminate.
    intros [= <-]. reflexivity.
  - intros k src _ [= <-]. reflexivity.
Defined.

End InterceptionClaims.

(** ** The patched play method: the claim *)
Section PlayClaims.
Import VideoPlay.

Lemma includes_iff (s p : string) :
  Js.includes s p = true <-> exists a b, s = a ++ p ++ b.
Proof.
  split; [apply includes_inv|]. intros (a & b & ->). apply includes_app.
Qed.

(** C10: for every video element, when the stored external player is set
    and is none of the built-in marker, the empty string, "disabled" and
    "m3u", and the location contains "#/player", the patched play leaves the
    element paused and muted and returns a resolved promise, without calling
    the original method; under any other setting, or at any other location,
    it returns exactly what the original method returns for that element. *)
Theorem play_is_blocked_or_original :
  forall (BUILTIN : string) (originalVideoPlay : video -> video * promise)
         (ls : LocalStorage) (href : string) (v : video),
    (forall p,
        EXTERNAL_PLAYER ls = Some p ->
        p <> "" -> p <> BUILTIN -> p <> "disabled" -> p <> "m3u" ->
        (exists a b, href = a ++ "#/player" ++ b) ->
        play BUILTIN originalVideoPlay ls href v
        = ({| paused := true; muted := true |}, Resolved)) /\
    (EXTERNAL_PLAYER ls = None \/ EXTERNAL_PLAYER ls = Some "" \/
     EXTERNAL_PLAYER ls = Some BUILTIN \/ EXTERNAL_PLAYER ls = Some "disabled" \/
     EXTERNAL_PLAYER ls = Some "m3u" \/
     ~ (exists a b, href = a ++ "#/player" ++ b) ->
     play BUILTIN originalVideoPlay ls href v = originalVideoPlay v).
Proof.
  intros BUILTIN orig ls href v. split.
  - intros p Hp H0 H1 H2 H3 Hroute. unfold play. rewrite Hp.
    rewrite (uses_internal_player_false BUILTIN p H0 H1 H2 H3).
    apply includes_iff in Hroute. now rewrite Hroute.
  - intros H. unfold play.
    destruct (Js.includes href "#/player") eqn:Hinc.
    + rewrite uses_internal_player_true; [reflexivity|].
      destruct H as [H | [H | [H | [H | [H | H]]]]]; auto.
      elim H. now apply includes_iff.
    + now rewrite andb_false_r.
Qed.

(** The theorem of C10 on a player route, with "vlc" and with "m3u". *)
Lemma play_is_blocked_or_original_witness :
  play "internal" rejecting_play
       {| EXTERNAL_PLAYER := Some "vlc"; EXTERNAL_PLAYER_PATH := None |}
       "app://host/index.html#/player/vid1/hashA"
       {| paused := false; muted := false |}
  = ({| paused := true; muted := true |}, Resolved) /\
  play "internal" rejecting_play
       {| EXTERNAL_PLAYER := Some "m3u"; EXTERNAL_PLAYER_PATH := None |}
       "app://host/index.html#/player/vid1/hashA"
       {| paused := false; muted := false |}
  = rejecting_play {| paused := false; muted := false |}.
Proof.
  split.
  - apply (proj1 (play_is_blocked_or_original "internal" rejecting_play _ _ _) "vlc");
      try reflexivity; try discriminate.
    exists "app://host/index.html", "/vid1/hashA". reflexivity.
  - apply (proj2 (play_is_blocked_or_original "internal" rejecting_play _ _ _)).
    do 4 right. left. reflexivity.
Defined.

End PlayClaims.

(** ** Objects as maps *)
Section ObjectFacts.
Import JsObject.
Context {V : Type}.
Implicit Types (o : obj V) (k : string) (v : V).

Lemma get_In k v o : get k o = Some v -> In (k, v) o.
Proof.
  induction o as [|[k' v'] o IH]; simpl; [discriminate|].
  destruct (String.eqb_spec k k') as [->|].
  - intros [= ->]. now left.
  - intros H. right. now apply IH.
Qed.

Lemma get_None k o : get k o = None <-> ~ In k (keys o).
Proof.
  induction o as [|[k' v'] o IH]; simpl.
  - split; auto.
  - destruct (String.eqb_spec k k') as [->|Hne].
    + split; [discriminate|]. intros H. elim H. now left.
    + rewrite IH. split.
      * intros H [E|E]; [now elim Hne | now elim H].
      * intros H E. apply H. now right.
Qed.

Lemma has_false k o : has k o = false <-> ~ In k (keys o).
Proof.
  unfold has. rewrite <- get_None. destruct (get k o); split; congruence.
Qed.

Lemma In_get k v o : NoDup (keys o) -> In (k, v) o -> get k o = Some v.
Proof.
  induction o as [|[k' v'] o IH]; simpl; [contradiction|].
  intros Hnd [E|Hin].
  - injection E as -> ->. now rewrite String.eqb_refl.
  - inversion Hnd as [|? ? Hnotin Hnd']; subst.
    destruct (String.eqb_spec k k') as [->|].
    + elim Hnotin. change k' with (fst (k', v)). now apply in_map.
    + now apply IH.
Qed.

Lemma keys_replace k v o : keys (replace k v o) = keys o.
Proof.
  induction o as [|[k' v'] o IH]; simpl; [reflexivity|].
  destruct (String.eqb k k'); simpl; [reflexivity | now rewrite IH].
Qed.

Lemma get_replace_same k v o : has k o = true -> get k (replace k v o) = Some v.
Proof.
  unfold has. induction o as [|[k' v'] o IH]; simpl; [discriminate|].
  destruct (String.eqb k k') eqn:E; simpl; rewrite E; [reflexivity | exact IH].
Qed.

Lemma get_replace_other k k0 v o : k0 <> k -> get k0 (replace k v o) = get k0 o.
Proof.
  intros Hne. induction o as [|[k' v'] o IH]; simpl; [reflexivity|].
  destruct (String.eqb_spec k k') as [->|]; simpl.
  - destruct (String.eqb_spec k0 k'); [contradiction | reflexivity].
  - now rewrite IH.
Qed.

Lemma insert_index_perm n k v o : Permutation (insert_index n k v o) ((k, v) :: o).
Proof.
  induction o as [|[k' v'] o IH]; simpl; [reflexivity|].
  destruct (array_index k') as [n'|]; [|reflexivity].
  destruct (n <? n')%N; [reflexivity|].
  rewrite IH. apply perm_swap.
Qed.

(** Defining a key the object lacks adds one property. *)
Lemma define_new_perm k v o : has k o = false -> Permutation (define k v o) ((k, v) :: o).
Proof.
  intros H. unfold define. rewrite H.
  destruct (array_index k).
  - apply insert_index_perm.
  - symmetry. apply Permutation_cons_append.
Qed.

Lemma keys_perm (l l' : list (string * V)) :
  Permutation l l' -> Permutation (keys l) (keys l').
Proof. apply Permutation_map. Qed.

Lemma get_perm k (l l' : list (string * V)) :
  NoDup (keys l) -> Permutation l l' -> get k l = get k l'.
Proof.
  intros Hnd Hp.
  assert (Hnd' : NoDup (keys l')) by (eapply Permutation_NoDup; [apply keys_perm|]; eassumption).
  destruct (get k l) as [v|] eqn:E.
  - symmetry. apply In_get; [assumption|].
    eapply Permutation_in; [eassumption|]. now apply get_In.
  - symmetry. apply get_None. apply get_None in E. intros Hin. apply E.
    eapply Permutation_in; [symmetry; apply keys_perm; eassumption | assumption].
Qed.

Lemma define_NoDup k v o : NoDup (keys o) -> NoDup (keys (define k v o)).
Proof.
  intros Hnd. destruct (has k o) eqn:H.
  - unfold define. rewrite H. now rewrite keys_replace.
  - eapply Permutation_NoDup.
    + symmetry. apply keys_perm, define_new_perm, H.
    + simpl. constructor; [now apply has_false | assumption].
Qed.

Lemma get_define_same k v o : NoDup (keys o) -> get k (define k v o) = Some v.
Proof.
  intros Hnd. destruct (has k o) eqn:H.
  - unfold define. rewrite H. now apply get_replace_same.
  - rewrite (get_perm k _ _ (define_NoDup k v o Hnd) (define_new_perm k v o H)).
    simpl. now rewrite String.eqb_refl.
Qed.

Lemma get_define_other k k0 v o :
  NoDup (keys o) -> k0 <> k -> get k0 (define k v o) = get k0 o.
Proof.
  intros Hnd Hne. destruct (has k o) eqn:H.
  - unfold define. rewrite H. now apply get_replace_other.
  - rewrite (get_perm k0 _ _ (define_NoDup k v o Hnd) (define_new_perm k v o H)).
    simpl. destruct (String.eqb_spec k0 k); [contradiction | reflexivity].
Qed.

Lemma length_replace k v o : List.length (replace k v o) = List.length o.
Proof.
  induction o as [|[k' v'] o IH]; simpl; [reflexivity|].
  destruct (String.eqb k k'); simpl; [reflexivity | now rewrite IH].
Qed.

Lemma length_define k v o :
  List.length (define k v o) = if has k o then List.length o else S (List.length o).
Proof.
  destruct (has k o) eqn:H.
  - unfold define. rewrite H. apply length_replace.
  - now rewrite (Permutation_length (define_new_perm k v o H)).
Qed.

(** An assignment defines the property, or, for ["__proto__"] on an object
    that does not own it, leaves the properties as they are. *)
Lemma set_cases k v o :
  set k v o = define k v o \/ (k = "__proto__" /\ has k o = false /\ set k v o = o).
Proof.
  unfold set. destruct (has k o) eqn:H; [now left|].
  destruct (String.eqb_spec k "__proto__") as [->|]; [right | now left]. auto.
Qed.

Lemma set_stores k v o : k <> "__proto__" -> set k v o = define k v o.
Proof. intros H. destruct (set_cases k v o) as [E | (E & _)]; [exact E | contradiction]. Qed.

Lemma set_NoDup k v o : NoDup (keys o) -> NoDup (keys (set k v o)).
Proof.
  intros Hnd. destruct (set_cases k v o) as [-> | (_ & _ & ->)];
    [now apply define_NoDup | exact Hnd].
Qed.

Lemma get_set_same k v o :
  NoDup (keys o) -> k <> "__proto__" -> get k (set k v o) = Some v.
Proof. intros Hnd Hk. rewrite set_stores by exact Hk. now apply get_define_same. Qed.

Lemma get_set_other k k0 v o : NoDup (keys o) -> k0 <> k -> get k0 (set k v o) = get k0 o.
Proof.
  intros Hnd Hne. destruct (set_cases k v o) as [-> | (_ & _ & ->)];
    [now apply get_define_other | reflexivity].
Qed.

(** After an assignment a key holds the value assigned or what it held. *)
Lemma get_set_cases k k0 v o :
  NoDup (keys o) -> get k0 (set k v o) = Some v \/ get k0 (set k v o) = get k0 o.
Proof.
  intros Hnd. destruct (set_cases k v o) as [-> | (_ & _ & ->)]; [|now right].
  destruct (string_dec k0 k) as [->|Hne].
  - left. now apply get_define_same.
  - right. now apply get_define_other.
Qed.

Lemma length_set_bounds k v o :
  (List.length o <= List.length (set k v o) <= S (List.length o))%nat.
Proof.
  destruct (set_cases k v o) as [-> | (_ & _ & ->)]; [|lia].
  rewrite length_define. destruct (has k o); lia.
Qed.

(** No assignment gives an object an own property ["__proto__"]. *)
Lemma get_set_proto k v o :
  NoDup (keys o) -> get "__proto__" o = None -> get "__proto__" (set k v o) = None.
Proof.
  intros Hnd H. destruct (string_dec k "__proto__") as [->|Hne].
  - unfold set, has. now rewrite H.
  - rewrite get_set_other; [exact H | exact Hnd | congruence].
Qed.

(** A read finds the own property where there is one; where there is none
    it finds nothing unless the name is one of [Object.prototype]. *)
Lemma lookup_Own k v o : lookup k o = Some (Own v) <-> get k o = Some v.
Proof.
  unfold lookup. destruct (get k o) as [w|].
  - split; intros [= ->]; reflexivity.
  - destruct (inherited k); split; discriminate.
Qed.


Lemma lookup_inherited k o : get k o = None -> inherited k = true -> lookup k o = Some Inherited.
Proof. intros H I. unfold lookup. now rewrite H, I. Qed.

(** [Object.fromEntries] of entries with distinct keys keeps them all. *)
Lemma fromEntries_acc (l : list (string * V)) :
  forall o, NoDup (keys (o ++ l)%list) ->
    Permutation (fold_left (fun o kv => define (fst kv) (snd kv) o) l o) (o ++ l)%list.
Proof.
  induction l as [|[k v] l IH]; intros o Hnd; simpl.
  - now rewrite app_nil_r.
  - assert (Hk : has k o = false).
    { apply has_false. intros Hin. unfold keys in Hnd. rewrite map_app in Hnd.
      simpl in Hnd. apply NoDup_remove_2 in Hnd. apply Hnd.
      apply in_or_app. now left. }
    assert (Hp : Permutation (define k v o ++ l)%list (o ++ (k, v) :: l)%list).
    { rewrite (define_new_perm k v o Hk). apply Permutation_middle. }
    rewrite IH.
    + exact Hp.
    + eapply Permutation_NoDup; [symmetry; apply keys_perm, Hp | exact Hnd].
Qed.

Lemma fromEntries_perm (l : list (string * V)) :
  NoDup (keys l) -> Permutation (fromEntries l) l.
Proof. intros H. apply (fromEntries_acc l []). exact H. Qed.

End ObjectFacts.

(** ** Quick resume: the store *)
Section StoreFacts.
Import JsObject QuickResume.
Implicit Types (o : store) (x y : string * SavedStreamInfo).

Lemma insert_desc_perm x l : Permutation (insert_desc x l) (x :: l).
Proof.
  induction l as [|y l IH]; simpl; [reflexivity|].
  destruct (timestamp (snd x) <? timestamp (snd y)); [|reflexivity].
  rewrite IH. apply perm_swap.
Qed.

Lemma sort_desc_perm l : Permutation (sort_desc l) l.
Proof.
  induction l as [|x l IH]; simpl; [reflexivity|].
  rewrite insert_desc_perm. now constructor.
Qed.

Lemma insert_desc_sorted x l :
  StronglySorted newer_or_equal l -> StronglySorted newer_or_equal (insert_desc x l).
Proof.
  induction l as [|y l IH]; intros Hs; simpl.
  - constructor; constructor.
  - inversion Hs as [|? ? Hs' Hall]; subst.
    destruct (Z.ltb_spec (timestamp (snd x)) (timestamp (snd y))) as [Hlt|Hge].
    + constructor; [now apply IH|].
      rewrite (insert_desc_perm x l). constructor; [unfold newer_or_equal, ts; lia | exact Hall].
    + constructor; [exact Hs|]. constructor; [exact Hge|].
      eapply Forall_impl; [|exact Hall]. unfold newer_or_equal, ts. intros; lia.
Qed.

Lemma sort_desc_sorted l : StronglySorted newer_or_equal (sort_desc l).
Proof.
  induction l as [|x l IH]; simpl; [constructor | now apply insert_desc_sorted].
Qed.

Lemma in_skipn_in {A : Type} (n : nat) (l : list A) (a : A) : In a (skipn n l) -> In a l.
Proof.
  intros H. rewrite <- (firstn_skipn n l). apply in_or_app. now right.
Qed.

Lemma in_firstn_in {A : Type} (n : nat) (l : list A) (a : A) : In a (firstn n l) -> In a l.
Proof.
  intros H. rewrite <- (firstn_skipn n l). apply in_or_app. now left.
Qed.

(** In a list sorted newest first, what [slice(0, n)] keeps is at least as
    new as what it drops. *)
Lemma sorted_firstn_skipn l n x y :
  StronglySorted newer_or_equal l ->
  In x (firstn n l) -> In y (skipn n l) -> ts y <= ts x.
Proof.
  revert n. induction l as [|a l IH]; intros [|n] Hs Hx Hy; simpl in *; try contradiction.
  inversion Hs as [|? ? Hs' Hall]; subst.
  destruct Hx as [<-|Hx].
  - rewrite Forall_forall in Hall. apply Hall.
    exact (in_skipn_in n l y Hy).
  - now apply (IH n).
Qed.

Lemma length_keys o : List.length (keys o) = List.length o.
Proof. apply length_map. Qed.

(** The entries [trim] keeps, up to order. *)
Lemma trim_perm o :
  NoDup (keys o) ->
  Permutation (trim o)
    (if (MAX_ENTRIES <? List.length o)%nat then firstn MAX_ENTRIES (sort_desc o) else o).
Proof.
  intros Hnd. unfold trim, entries.
  destruct (MAX_ENTRIES <? List.length o)%nat; [|reflexivity].
  apply fromEntries_perm.
  assert (Hs : NoDup (keys (sort_desc o))).
  { eapply Permutation_NoDup; [symmetry; apply keys_perm, sort_desc_perm | exact Hnd]. }
  rewrite <- (firstn_skipn MAX_ENTRIES (sort_desc o)) in Hs.
  unfold keys in Hs |- *. rewrite map_app in Hs. now apply NoDup_app_remove_r in Hs.
Qed.

Lemma trim_incl o x : NoDup (keys o) -> In x (trim o) -> In x o.
Proof.
  intros Hnd Hin. apply (Permutation_in _ (trim_perm o Hnd)) in Hin.
  destruct (MAX_ENTRIES <? List.length o)%nat; [|exact Hin].
  apply (Permutation_in _ (sort_desc_perm o)).
  exact (in_firstn_in _ _ _ Hin).
Qed.

Lemma trim_NoDup o : NoDup (keys o) -> NoDup (keys (trim o)).
Proof.
  intros Hnd.
  eapply Permutation_NoDup; [symmetry; apply keys_perm, trim_perm, Hnd|].
  destruct (MAX_ENTRIES <? List.length o)%nat; [|exact Hnd].
  assert (Hs : NoDup (keys (sort_desc o))).
  { eapply Permutation_NoDup; [symmetry; apply keys_perm, sort_desc_perm | exact Hnd]. }
  rewrite <- (firstn_skipn MAX_ENTRIES (sort_desc o)) in Hs.
  unfold keys in Hs |- *. rewrite map_app in Hs. now apply NoDup_app_remove_r in Hs.
Qed.

Lemma trim_length o :
  NoDup (keys o) -> List.length (trim o) = Nat.min (List.length o) MAX_ENTRIES.
Proof.
  intros Hnd. rewrite (Permutation_length (trim_perm o Hnd)).
  destruct (Nat.ltb_spec MAX_ENTRIES (List.length o)) as [Hlt|Hge].
  - rewrite length_firstn, (Permutation_length (sort_desc_perm o)). lia.
  - lia.
Qed.

(** Eviction takes the oldest: an entry strictly newer than one that was
    kept is kept too. *)
Lemma trim_keeps_newer o x y :
  NoDup (keys o) -> In x o -> In y (trim o) -> ts y < ts x -> In x (trim o).
Proof.
  intros Hnd Hx Hy Hlt.
  apply (Permutation_in _ (Permutation_sym (trim_perm o Hnd))).
  apply (Permutation_in _ (trim_perm o Hnd)) in Hy.
  destruct (MAX_ENTRIES <? List.length o)%nat; [|exact Hx].
  apply (Permutation_in _ (Permutation_sym (sort_desc_perm o))) in Hx.
  rewrite <- (firstn_skipn MAX_ENTRIES (sort_desc o)) in Hx.
  apply in_app_or in Hx. destruct Hx as [Hx|Hx]; [exact Hx|].
  pose proof (sorted_firstn_skipn _ _ _ _ (sort_desc_sorted o) Hy Hx). lia.
Qed.

End StoreFacts.

(** ** Quick resume: saving *)
Section SaveFacts.
Import JsObject QuickResume.
Implicit Types (o : store) (x y : string * SavedStreamInfo) (i : SavedStreamInfo).

Lemma write_trim k c t i o : write k c t i o = trim (written k c t i o).
Proof. reflexivity. Qed.

Lemma written_NoDup k c t i o : NoDup (keys o) -> NoDup (keys (written k c t i o)).
Proof.
  intros H. unfold written. destruct (String.eqb t "series"); auto using set_NoDup.
Qed.

Lemma write_NoDup k c t i o : NoDup (keys o) -> NoDup (keys (write k c t i o)).
Proof. intros H. rewrite write_trim. now apply trim_NoDup, written_NoDup. Qed.

Lemma written_length k c t i o :
  (List.length o <= List.length (written k c t i o))%nat.
Proof.
  unfold written. destruct (String.eqb t "series").
  - pose proof (length_set_bounds k i o).
    pose proof (length_set_bounds c i (set k i o)). lia.
  - pose proof (length_set_bounds k i o). lia.
Qed.

Lemma write_length k c t i o :
  NoDup (keys o) ->
  List.length (write k c t i o) = Nat.min (List.length (written k c t i o)) MAX_ENTRIES.
Proof. intros H. rewrite write_trim. now apply trim_length, written_NoDup. Qed.

(** What the store holds before trimming. *)
Lemma written_get k c t i o k0 :
  NoDup (keys o) -> k <> "__proto__" -> c <> "__proto__" ->
  get k0 (written k c t i o)
  = if String.eqb k0 k then Some i
    else if String.eqb t "series" && String.eqb k0 c then Some i
    else get k0 o.
Proof.
  intros Hnd Hkp Hcp. unfold written.
  destruct (String.eqb t "series"); simpl.
  - destruct (String.eqb_spec k0 c) as [->|Hc].
    + rewrite get_set_same by (auto using set_NoDup).
      now destruct (String.eqb c k).
    + rewrite get_set_other by (auto using set_NoDup).
      destruct (String.eqb_spec k0 k) as [->|Hk].
      * now apply get_set_same.
      * now apply get_set_other.
  - destruct (String.eqb_spec k0 k) as [->|Hk].
    + now apply get_set_same.
    + now apply get_set_other.
Qed.

(** Whatever the keys are, a key holds the new record or what it held. *)
Lemma written_get_cases k c t i o k0 :
  NoDup (keys o) ->
  get k0 (written k c t i o) = Some i \/ get k0 (written k c t i o) = get k0 o.
Proof.
  intros Hnd. unfold written. destruct (String.eqb t "series").
  - destruct (get_set_cases c k0 i (set k i o) (set_NoDup k i o Hnd)) as [E|E];
      [now left | rewrite E; now apply get_set_cases].
  - now apply get_set_cases.
Qed.

Lemma written_get_key k c t i o :
  NoDup (keys o) -> k <> "__proto__" -> get k (written k c t i o) = Some i.
Proof.
  intros Hnd Hkp. unfold written. destruct (String.eqb t "series").
  - destruct (get_set_cases c k i (set k i o) (set_NoDup k i o Hnd)) as [E|E];
      [exact E | rewrite E; now apply get_set_same].
  - now apply get_set_same.
Qed.

Lemma trim_get o k i : NoDup (keys o) -> get k (trim o) = Some i -> get k o = Some i.
Proof.
  intros Hnd H. apply In_get; [exact Hnd|]. apply trim_incl; [exact Hnd|]. now apply get_In.
Qed.

(** A record newer than everything else in the store survives trimming. *)
Lemma trim_keeps_newest o k i :
  NoDup (keys o) -> get k o = Some i ->
  (forall k' i', get k' o = Some i' -> timestamp i' < timestamp i \/ i' = i) ->
  (forall k1 k2 k3, get k1 o = Some i -> get k2 o = Some i -> get k3 o = Some i ->
                    k1 = k2 \/ k1 = k3 \/ k2 = k3) ->
  get k (trim o) = Some i.
Proof.
  intros Hnd Hget Hnew Hfew.
  destruct (Nat.ltb_spec MAX_ENTRIES (List.length o)) as [Hlt|Hge].
  2:{ unfold trim, entries. apply Nat.ltb_ge in Hge. now rewrite Hge. }
  apply In_get; [now apply trim_NoDup|].
  (* some kept entry is older, or all hundred kept entries are the new record *)
  assert (Hlen : List.length (trim o) = MAX_ENTRIES).
  { rewrite trim_length by assumption. lia. }
  destruct (trim o) as [|[ka ia] [|[kb ib] [|[kc ic] rest]]] eqn:Et; try discriminate Hlen.
  assert (Hndt : NoDup (keys (trim o))) by now apply trim_NoDup.
  assert (Ha : get ka o = Some ia).
  { apply trim_get; [exact Hnd|]. rewrite Et. simpl. now rewrite String.eqb_refl. }
  assert (Hb : get kb o = Some ib).
  { apply trim_get; [exact Hnd|]. apply In_get; [exact Hndt|]. rewrite Et. simpl. auto. }
  assert (Hc : get kc o = Some ic).
  { apply trim_get; [exact Hnd|]. apply In_get; [exact Hndt|]. rewrite Et. simpl. auto. }
  rewrite Et in Hndt. simpl in Hndt.
  inversion Hndt as [|? ? Hab Hndt']; subst. inversion Hndt' as [|? ? Hbc _]; subst.
  simpl in Hab, Hbc.
  assert (Hold : exists y, In y (trim o) /\ ts y < timestamp i).
  { destruct (Hnew _ _ Ha) as [Hlt1 | ->].
    { exists (ka, ia). rewrite Et. split; [now left | exact Hlt1]. }
    destruct (Hnew _ _ Hb) as [Hlt2 | ->].
    { exists (kb, ib). rewrite Et. split; [simpl; auto | exact Hlt2]. }
    destruct (Hnew _ _ Hc) as [Hlt3 | ->].
    { exists (kc, ic). rewrite Et. split; [simpl; auto | exact Hlt3]. }
    exfalso. destruct (Hfew _ _ _ Ha Hb Hc) as [E | [E | E]]; subst; tauto. }
  destruct Hold as (y & Hy & Hlt').
  rewrite <- Et. apply (trim_keeps_newer o (k, i) y Hnd); [now apply get_In | exact Hy | exact Hlt'].
Qed.

Lemma save_entries env ls k c t i :
  prepare env = Some (k, c, t, i) -> ls <> Malformed ->
  saveCurrentStreamInfo env ls = Persisted (write k c t i (entries_of ls)).
Proof.
  intros Hp Hm. unfold saveCurrentStreamInfo. rewrite Hp.
  destruct ls; [reflexivity | now elim Hm | reflexivity].
Qed.

Lemma getSaved_entries ls k :
  ls <> Malformed -> getSavedStreamInfo ls k = lookup k (entries_of ls).
Proof. intros H. destruct ls; [reflexivity | now elim H | reflexivity]. Qed.

(** A lookup returns a saved record exactly when the map holds it under the
    key. *)
Lemma getSaved_stored ls k i :
  getSavedStreamInfo ls k = Some (Own i) <-> stored ls k = Some i.
Proof.
  unfold stored. destruct ls as [| |o].
  - apply (lookup_Own k i []).
  - split; discriminate.
  - apply (lookup_Own k i o).
Qed.

(** A key with a colon in it is not ["__proto__"]. *)
Lemma episode_key_not_proto (c e : string) : c ++ ":" ++ e <> "__proto__".
Proof.
  intros H.
  do 9 (destruct c as [|? c]; [discriminate H|]; simpl in H; injection H as _ H).
  destruct c; discriminate H.
Qed.

(** The key of a save is the content id, alone or followed by a colon and
    the episode id. *)
Lemma prepare_key env k c t i :
  prepare env = Some (k, c, t, i) -> k = c \/ exists e, k = c ++ ":" ++ e.
Proof.
  unfold prepare.
  destruct (sv_eval env) as [|[st|]]; try discriminate.
  destruct (content_id st) as [[|a c0]|]; try discriminate.
  destruct (Route.match_player (sv_hash env)) as [[[vid hash] oe]|]; [|discriminate].
  intros [= <- <- _ _].
  destruct oe as [ep|]; [|now left].
  destruct (String.eqb (Js.or_else (content_type st) "movie") "series");
    destruct ep; simpl; try (now left).
  right. eexists. reflexivity.
Qed.

Lemma prepare_key_not_proto env k c t i :
  prepare env = Some (k, c, t, i) -> c <> "__proto__" -> k <> "__proto__".
Proof.
  intros Hp Hc. destruct (prepare_key _ _ _ _ _ Hp) as [-> | [e ->]];
    [exact Hc | apply episode_key_not_proto].
Qed.

(** The third group of the player route is never empty. *)
Lemma match_player_episode s vid hash e :
  Route.match_player s = Some (vid, hash, Some e) -> e <> "".
Proof.
  induction s as [|a s IH]; unfold Route.match_player; fold Route.match_player.
  - unfold Route.player_at. simpl. discriminate.
  - destruct (Route.player_at (String a s)) as [[[v h] oe]|] eqn:E; [|exact IH].
    intros [= -> -> ->]. unfold Route.player_at in E.
    destruct (Route.strip_prefix _ _) as [r1|]; [|discriminate].
    destruct (Route.span_not_slash r1) as [v r2].
    destruct r2 as [|? r3]; [discriminate|].
    destruct (Route.span_not_slash r3) as [h r4].
    destruct (_ && _); [|discriminate].
    destruct r4 as [|? r5]; [discriminate|].
    destruct (Route.span_dot r5) eqn:D; simpl in E; [discriminate|].
    injection E as _ _ <-. discriminate.
Qed.

Lemma prepare_series env st c e vid hash :
  sv_eval env = EvalValue (Some st) ->
  content_id st = Some c -> c <> "" ->
  content_type st = Some "series" ->
  Route.match_player (sv_hash env) = Some (vid, hash, Some e) ->
  exists i,
    prepare env = Some (c ++ ":" ++ e, c, "series", i) /\
    streamHash i = hash /\ videoId i = vid /\ contentId i = c /\
    type i = "series" /\ timestamp i = sv_now env.
Proof.
  intros He Hc Hne Ht Hm. unfold prepare. rewrite He, Hc, Hm, Ht.
  destruct c as [|a c]; [now elim Hne|].
  pose proof (match_player_episode _ _ _ _ Hm) as Hep.
  destruct e as [|b e]; [now elim Hep|].
  eexists. split; [reflexivity|]. repeat split.
Qed.

Lemma prepare_other env st c vid hash oe :
  sv_eval env = EvalValue (Some st) ->
  content_id st = Some c -> c <> "" ->
  content_type st <> Some "series" ->
  Route.match_player (sv_hash env) = Some (vid, hash, oe) ->
  exists t i,
    prepare env = Some (c, c, t, i) /\ t <> "series" /\
    streamHash i = hash /\ videoId i = vid /\ contentId i = c /\
    timestamp i = sv_now env.
Proof.
  intros He Hc Hne Ht Hm. unfold prepare. rewrite He, Hc, Hm.
  destruct c as [|a c]; [now elim Hne|].
  assert (Hty : Js.or_else (content_type st) "movie" <> "series").
  { destruct (content_type st) as [[|b t]|]; simpl; try discriminate. congruence. }
  apply String.eqb_neq in Hty. rewrite Hty. simpl.
  exists (Js.or_else (content_type st) "movie").
  eexists. split; [destruct oe; reflexivity|].
  split; [now apply String.eqb_neq|]. repeat split.
Qed.

(** With a clock that has moved on since the stored records were written,
    a series save leaves its record under both keys. *)
Lemma series_written_twice k c i o :
  NoDup (keys o) -> k <> "__proto__" -> c <> "__proto__" ->
  (forall k' i', get k' o = Some i' -> timestamp i' < timestamp i) ->
  get k (write k c "series" i o) = Some i /\ get c (write k c "series" i o) = Some i.
Proof.
  intros Hnd Hkp Hcp Hclock. rewrite write_trim.
  assert (Hw : forall k0, get k0 (written k c "series" i o)
                          = if String.eqb k0 k then Some i
                            else if String.eqb k0 c then Some i else get k0 o).
  { intros k0. now rewrite written_get. }
  assert (Hnew : forall k' i', get k' (written k c "series" i o) = Some i' ->
                               timestamp i' < timestamp i \/ i' = i).
  { intros k' i'. rewrite Hw.
    destruct (String.eqb k' k); [intros [= <-]; now right|].
    destruct (String.eqb k' c); [intros [= <-]; now right|].
    intros H. left. eapply Hclock, H. }
  assert (Hfew : forall k1 k2 k3,
             get k1 (written k c "series" i o) = Some i ->
             get k2 (written k c "series" i o) = Some i ->
             get k3 (written k c "series" i o) = Some i ->
             k1 = k2 \/ k1 = k3 \/ k2 = k3).
  { assert (Hkc : forall k0, get k0 (written k c "series" i o) = Some i -> k0 = k \/ k0 = c).
    { intros k0. rewrite Hw.
      destruct (String.eqb_spec k0 k); [now left|].
      destruct (String.eqb_spec k0 c); [now right|].
      intros H. apply Hclock in H. lia. }
    intros k1 k2 k3 H1 H2 H3.
    destruct (Hkc _ H1), (Hkc _ H2), (Hkc _ H3); subst; auto. }
  split; apply trim_keeps_newest; auto using written_NoDup; rewrite Hw.
  - now rewrite String.eqb_refl.
  - rewrite String.eqb_refl. now destruct (String.eqb c k).
Qed.

(** A save that is not for a series writes one key and touches no other. *)
Lemma other_written_once c t i o :
  NoDup (keys o) -> c <> "__proto__" -> t <> "series" ->
  (forall k' i', get k' o = Some i' -> timestamp i' < timestamp i) ->
  get c (write c c t i o) = Some i /\
  forall k, k <> c -> get k (write c c t i o) = get k o \/ get k (write c c t i o) = None.
Proof.
  intros Hnd Hcp Ht Hclock. rewrite write_trim.
  assert (Hw : forall k0, get k0 (written c c t i o)
                          = if String.eqb k0 c then Some i else get k0 o).
  { intros k0. rewrite written_get by assumption.
    apply String.eqb_neq in Ht. now rewrite Ht. }
  split.
  - apply trim_keeps_newest; auto using written_NoDup.
    + rewrite Hw. now rewrite String.eqb_refl.
    + intros k' i'. rewrite Hw. destruct (String.eqb k' c); [intros [= <-]; now right|].
      intros H. left. eapply Hclock, H.
    + intros k1 k2 k3. rewrite !Hw.
      destruct (String.eqb_spec k1 c) as [->|]; [|intros H; apply Hclock in H; lia].
      destruct (String.eqb_spec k2 c) as [->|]; [auto|intros _ H; apply Hclock in H; lia].
  - intros k Hk.
    destruct (get k (trim (written c c t i o))) as [v|] eqn:E; [left | now right].
    apply trim_get in E; [|now apply written_NoDup].
    rewrite Hw in E. apply String.eqb_neq in Hk. rewrite Hk in E. now rewrite E.
Qed.

Lemma save_size_bound env o :
  NoDup (keys o) -> prepare env <> None ->
  (size (saveCurrentStreamInfo env (Persisted o)) <= MAX_ENTRIES)%nat.
Proof.
  intros Hnd Hp. destruct (prepare env) as [[[[k c] t] i]|] eqn:E; [|now elim Hp].
  rewrite (save_entries env (Persisted o) k c t i E) by discriminate.
  simpl. rewrite write_length by assumption. lia.
Qed.

(** Starting from an absent map, the stored object has distinct keys and
    never more than a hundred of them. *)
Lemma save_all_invariant envs :
  forall ls, ls <> Malformed -> NoDup (keys (entries_of ls)) ->
             (size ls <= MAX_ENTRIES)%nat ->
    let ls' := save_all envs ls in
    ls' <> Malformed /\ NoDup (keys (entries_of ls')) /\ (size ls' <= MAX_ENTRIES)%nat.
Proof.
  induction envs as [|env envs IH]; intros ls Hm Hnd Hsz; simpl; [auto|].
  apply IH.
  - unfold saveCurrentStreamInfo. destruct (prepare env) as [[[[k c] t] i]|]; [|exact Hm].
    destruct ls; [discriminate | now elim Hm | discriminate].
  - destruct (prepare env) as [[[[k c] t] i]|] eqn:E.
    + rewrite (save_entries env ls k c t i E Hm). simpl. now apply write_NoDup.
    + unfold saveCurrentStreamInfo. now rewrite E.
  - destruct (prepare env) as [[[[k c] t] i]|] eqn:E.
    + rewrite (save_entries env ls k c t i E Hm). simpl.
      rewrite write_length by assumption. lia.
    + unfold saveCurrentStreamInfo. now rewrite E.
Qed.

Lemma prepare_timestamp env k c t i :
  prepare env = Some (k, c, t, i) -> timestamp i = sv_now env.
Proof.
  unfold prepare. destruct (sv_eval env) as [|[st|]]; try discriminate.
  destruct (content_id st) as [[|a cid]|]; try discriminate.
  destruct (Route.match_player (sv_hash env)) as [[[v h] oe]|]; [|discriminate].
  intros [= _ _ _ <-]. reflexivity.
Qed.

Lemma get_present_In k o : get k o <> None -> In k (keys o).
Proof.
  intros H. destruct (in_dec string_dec k (keys o)) as [Hin|Hout]; [exact Hin|].
  elim H. now apply get_None.
Qed.

(** Keys that are all present, and distinct, are no more than the entries. *)
Lemma present_keys_bound (ks : list string) o :
  NoDup ks -> (forall k, In k ks -> get k o <> None) ->
  (List.length ks <= List.length o)%nat.
Proof.
  intros Hnd Hall. rewrite <- (length_keys o).
  apply NoDup_incl_length; [exact Hnd|].
  intros k Hk. now apply get_present_In, Hall.
Qed.

Lemma written_keeps_present k c t i o k0 :
  NoDup (keys o) -> k <> "__proto__" ->
  get k0 o <> None \/ k0 = k -> get k0 (written k c t i o) <> None.
Proof.
  intros Hnd Hkp [H | ->].
  - destruct (written_get_cases k c t i o k0 Hnd) as [E|E]; rewrite E;
      [discriminate | exact H].
  - now rewrite written_get_key.
Qed.

Lemma full_or_all_present_write (InK : string -> Prop) k c t i o :
  NoDup (keys o) -> k <> "__proto__" ->
  full_or_all_present InK o ->
  full_or_all_present (fun k0 => InK k0 \/ k0 = k) (write k c t i o).
Proof.
  intros Hnd Hkp [Hfull | Hall].
  - left. rewrite write_length by assumption.
    pose proof (written_length k c t i o). lia.
  - destruct (Nat.ltb_spec MAX_ENTRIES (List.length (written k c t i o))) as [Hlt|Hge].
    + left. rewrite write_length by assumption. lia.
    + right. intros k0 Hk0. rewrite write_trim. unfold trim, entries.
      apply Nat.ltb_ge in Hge. rewrite Hge.
      apply written_keeps_present; [assumption | assumption |].
      destruct Hk0 as [Hk0 | ->]; [left; now apply Hall | now right].
Qed.

Lemma old_implies_all_new_write t1 (InK : string -> Prop) k c t i o :
  NoDup (keys o) -> k <> "__proto__" -> t1 < timestamp i ->
  old_implies_all_new t1 InK o ->
  old_implies_all_new t1 (fun k0 => InK k0 \/ k0 = k) (write k c t i o).
Proof.
  intros Hnd Hkp Hi Hinv [[kx ix] [Hx Hxold]] k0 Hk0. unfold ts in Hxold. simpl in Hxold.
  assert (Hndw : NoDup (keys (written k c t i o))) by now apply written_NoDup.
  rewrite write_trim in Hx |- *.
  assert (Hxw : get kx (written k c t i o) = Some ix).
  { apply In_get; [exact Hndw|]. now apply trim_incl. }
  (* the old record was already in the store *)
  assert (Hxo : get kx o = Some ix).
  { destruct (written_get_cases k c t i o kx Hnd) as [E|E]; rewrite E in Hxw;
      [injection Hxw as <-; lia | exact Hxw]. }
  assert (Hold : exists x, In x o /\ ts x <= t1).
  { exists (kx, ix). split; [now apply get_In | exact Hxold]. }
  (* so the key asked for holds a newer record before trimming *)
  assert (Hk0w : exists i0, get k0 (written k c t i o) = Some i0 /\ t1 < timestamp i0).
  { destruct Hk0 as [Hk0 | ->].
    - destruct (Hinv Hold k0 Hk0) as (i0 & Hg0 & Hn0).
      destruct (written_get_cases k c t i o k0 Hnd) as [E|E]; rewrite E;
        [now exists i | now exists i0].
    - exists i. split; [now apply written_get_key | exact Hi]. }
  destruct Hk0w as (i0 & Hget0 & Hnew0).
  exists i0. split; [|exact Hnew0].
  apply In_get; [now apply trim_NoDup|].
  apply (trim_keeps_newer _ (k0, i0) (kx, ix) Hndw); [now apply get_In | exact Hx|].
  unfold ts. simpl. lia.
Qed.

Lemma full_or_all_present_fold envs :
  forall ls (InK : string -> Prop),
    ls <> Malformed -> NoDup (keys (entries_of ls)) ->
    Forall (fun env => prepare env <> None) envs ->
    Forall (fun env => key_of env <> Some "__proto__") envs ->
    full_or_all_present InK (entries_of ls) ->
    full_or_all_present (fun k => InK k \/ In (Some k) (map key_of envs))
                        (entries_of (save_all envs ls)).
Proof.
  induction envs as [|env envs IH]; intros ls InK Hm Hnd Hall Hpr HQ; simpl.
  - destruct HQ as [H|H]; [now left | right]. intros k [Hk|[]]. now apply H.
  - inversion Hall as [|? ? Hp Hall']; subst. inversion Hpr as [|? ? Hkp Hpr']; subst.
    destruct (prepare env) as [[[[k c] t] i]|] eqn:E; [|now elim Hp].
    assert (Hk : k <> "__proto__").
    { intros ->. apply Hkp. unfold key_of. now rewrite E. }
    rewrite (save_entries env ls k c t i E Hm).
    specialize (IH (Persisted (write k c t i (entries_of ls)))
                   (fun k0 => InK k0 \/ k0 = k)).
    destruct IH as [H|H]; try assumption; try discriminate.
    + simpl. now apply write_NoDup.
    + simpl. now apply full_or_all_present_write.
    + now left.
    + right. intros k0 Hk0. apply H.
      unfold key_of at 1 in Hk0. rewrite E in Hk0.
      destruct Hk0 as [Hk0 | [[= <-] | Hk0]]; auto.
Qed.

Lemma old_implies_all_new_fold t1 envs :
  forall ls (InK : string -> Prop),
    ls <> Malformed -> NoDup (keys (entries_of ls)) ->
    Forall (fun env => prepare env <> None) envs ->
    Forall (fun env => key_of env <> Some "__proto__") envs ->
    Forall (fun env => t1 < sv_now env) envs ->
    old_implies_all_new t1 InK (entries_of ls) ->
    old_implies_all_new t1 (fun k => InK k \/ In (Some k) (map key_of envs))
                        (entries_of (save_all envs ls)).
Proof.
  induction envs as [|env envs IH]; intros ls InK Hm Hnd Hall Hpr Hts HP; simpl.
  - intros Hold k [Hk|[]]. now apply HP.
  - inversion Hall as [|? ? Hp Hall']; subst. inversion Hts as [|? ? Ht Hts']; subst.
    inversion Hpr as [|? ? Hkp Hpr']; subst.
    destruct (prepare env) as [[[[k c] t] i]|] eqn:E; [|now elim Hp].
    assert (Hk : k <> "__proto__").
    { intros ->. apply Hkp. unfold key_of. now rewrite E. }
    rewrite (save_entries env ls k c t i E Hm).
    specialize (IH (Persisted (write k c t i (entries_of ls)))
                   (fun k0 => InK k0 \/ k0 = k)).
    intros Hold k0 Hk0. apply IH; try assumption; try discriminate.
    + simpl. now apply write_NoDup.
    + simpl. apply old_implies_all_new_write; try assumption.
      now rewrite (prepare_timestamp _ _ _ _ _ E).
    + unfold key_of at 1 in Hk0. rewrite E in Hk0.
      destruct Hk0 as [Hk0 | [[= <-] | Hk0]]; auto.
Qed.

Lemma keys_of_Some envs :
  Forall (fun env => prepare env <> None) envs -> map Some (keys_of envs) = map key_of envs.
Proof.
  induction 1 as [|env envs Hp _ IH]; [reflexivity|]. simpl. rewrite IH. f_equal.
  unfold key_of. destruct (prepare env) as [[[[k c] t] i]|]; [reflexivity | now elim Hp].
Qed.

Lemma keys_of_NoDup envs :
  Forall (fun env => prepare env <> None) envs ->
  NoDup (map key_of envs) -> NoDup (keys_of envs).
Proof.
  intros Hp Hnd. rewrite <- (keys_of_Some envs Hp) in Hnd.
  now apply NoDup_map_inv in Hnd.
Qed.

Lemma keys_of_In envs k :
  Forall (fun env => prepare env <> None) envs ->
  In k (keys_of envs) -> In (Some k) (map key_of envs).
Proof.
  intros Hp Hin. rewrite <- (keys_of_Some envs Hp). now apply in_map.
Qed.

(** After a hundred and one saves or more under distinct keys, none of them
    ["__proto__"], the first of which is strictly the oldest, a hundred
    entries remain and none carries the first timestamp. *)
Lemma hundred_and_one_saves env1 rest :
  (100 <= List.length rest)%nat ->
  Forall (fun env => prepare env <> None) (env1 :: rest) ->
  Forall (fun env => key_of env <> Some "__proto__") (env1 :: rest) ->
  NoDup (map key_of (env1 :: rest)) ->
  Forall (fun env => sv_now env1 < sv_now env) rest ->
  let ls := save_all (env1 :: rest) Missing in
  size ls = MAX_ENTRIES /\
  forall k i, stored ls k = Some i -> sv_now env1 < timestamp i.
Proof.
  intros Hlen Hp Hpr Hnd Hts ls.
  destruct (save_all_invariant (env1 :: rest) Missing) as (Hm & Hndf & Hsz);
    [discriminate | constructor | simpl; lia |].
  fold ls in Hm, Hndf, Hsz.
  assert (Hsize : size ls = List.length (entries_of ls)) by now destruct ls.
  split.
  - apply Nat.le_antisymm; [exact Hsz|]. rewrite Hsize.
    destruct (full_or_all_present_fold (env1 :: rest) Missing (fun _ => False))
      as [Hfull | Hall]; try assumption; try discriminate.
    + constructor.
    + right. intros k [].
    + pose proof (present_keys_bound (keys_of (env1 :: rest)) (entries_of ls)
                    (keys_of_NoDup _ Hp Hnd)) as Hb.
      assert (Hl : List.length (keys_of (env1 :: rest)) = S (List.length rest)).
      { unfold keys_of. now rewrite length_map. }
      rewrite Hl, <- Hsize in Hb. unfold MAX_ENTRIES in *.
      assert (S (List.length rest) <= size ls)%nat; [|lia].
      apply Hb. intros k Hk. apply Hall. right. now apply keys_of_In.
  - intros k i Hget. unfold stored in Hget.
    destruct (Z.lt_ge_cases (sv_now env1) (timestamp i)) as [Hlt|Hge]; [exact Hlt|].
    exfalso.
    inversion Hp as [|? ? Hp1 Hprest]; subst.
    inversion Hpr as [|? ? Hk1 Hprrest]; subst.
    destruct (prepare env1) as [[[[k1 c1] t1] i1]|] eqn:E1; [|now elim Hp1].
    pose proof (old_implies_all_new_fold (sv_now env1) rest
                  (saveCurrentStreamInfo env1 Missing) (fun _ => False)) as HP.
    rewrite (save_entries env1 Missing k1 c1 t1 i1 E1) in HP by discriminate.
    specialize (HP ltac:(discriminate)
                   ltac:(simpl; apply write_NoDup; constructor)
                   Hprest Hprrest Hts ltac:(intros _ k0 [])).
    assert (Els : save_all rest (Persisted (write k1 c1 t1 i1 (entries_of Missing))) = ls).
    { subst ls. simpl. now rewrite (save_entries env1 Missing k1 c1 t1 i1 E1) by discriminate. }
    rewrite Els in HP.
    assert (Hold : exists x, In x (entries_of ls) /\ ts x <= sv_now env1).
    { exists (k, i). split; [now apply get_In | exact Hge]. }
    specialize (HP Hold).
    assert (Hnotin : ~ In k (keys_of rest)).
    { intros Hin. destruct (HP k) as (i0 & Hg0 & Hn0).
      - right. now apply keys_of_In.
      - rewrite Hget in Hg0. injection Hg0 as <-. lia. }
    assert (Hndk : NoDup (k :: keys_of rest)).
    { constructor; [exact Hnotin|]. apply keys_of_NoDup; [exact Hprest|].
      simpl in Hnd. now inversion Hnd. }
    pose proof (present_keys_bound _ (entries_of ls) Hndk) as Hb.
    assert (Hb' : (List.length (k :: keys_of rest) <= List.length (entries_of ls))%nat).
    { apply Hb. intros k0 [<- | Hk0].
      - now rewrite Hget.
      - destruct (HP k0) as (i0 & Hg0 & _); [right; now apply keys_of_In|].
        now rewrite Hg0. }
    simpl in Hb'. unfold keys_of in Hb'. rewrite length_map in Hb'.
    rewrite <- Hsize in Hb'. unfold MAX_ENTRIES in Hsz. lia.
Qed.

End SaveFacts.

(** ** Quick resume: the claims *)
Section QuickResumeClaims.
Import JsObject QuickResume.

(** C4, as stated, fails in two ways. Over a full map whose records carry a
    later time than the save (the clock was set back), the record of the
    series save is evicted by the very save that wrote it, and is found
    under neither key.  And the save of a film whose content id is
    "__proto__" writes no key at all. *)
Lemma save_after_later_records_is_evicted :
  size (save_all later_films Missing) = 100%nat /\
  stored (saveCurrentStreamInfo series_env (save_all later_films Missing)) "tt1:ep2" = None /\
  stored (saveCurrentStreamInfo series_env (save_all later_films Missing)) "tt1" = None /\
  getSavedStreamInfo (saveCurrentStreamInfo series_env (save_all later_films Missing)) "tt1"
  = None /\
  prepare proto_env <> None /\
  saveCurrentStreamInfo proto_env Missing = Persisted [] /\
  stored (saveCurrentStreamInfo proto_env Missing) "__proto__" = None.
Proof. vm_compute. repeat split. discriminate. Qed.

(** C4 (amended): (1) a save for a series with content id c, other than
    "__proto__", whose route carries the episode id e leaves one and the
    same record, built from the route and the current time, under "c:e" and
    under "c", and a lookup of either key returns it; (2) a save for
    anything else leaves its record under "c" and changes no other key,
    except that it may evict it; both provided every record already in the
    map is older than the current time.  (3) After any sequence of saves
    over an absent map, and after any save that gets as far as writing, the
    map holds at most 100 entries.  (4) Trimming evicts oldest first: an
    evicted entry is never newer than a kept one.  (5) After 101 saves under
    distinct keys, none of them "__proto__", the first strictly the oldest,
    exactly 100 entries remain and none of them carries the first save's
    timestamp. *)
Theorem save_keys_and_bounded_store :
  (forall env ls st c e vid hash,
      ls <> Malformed -> NoDup (keys (entries_of ls)) ->
      sv_eval env = EvalValue (Some st) ->
      content_id st = Some c -> c <> "" -> c <> "__proto__" ->
      content_type st = Some "series" ->
      Route.match_player (sv_hash env) = Some (vid, hash, Some e) ->
      (forall k i, stored ls k = Some i -> timestamp i < sv_now env) ->
      let ls' := saveCurrentStreamInfo env ls in
      exists i,
        stored ls' (c ++ ":" ++ e) = Some i /\
        stored ls' c = Some i /\
        getSavedStreamInfo ls' (c ++ ":" ++ e) = Some (Own i) /\
        getSavedStreamInfo ls' c = Some (Own i) /\
        streamHash i = hash /\ videoId i = vid /\ contentId i = c /\
        type i = "series" /\ timestamp i = sv_now env) /\
  (forall env ls st c vid hash oe,
      ls <> Malformed -> NoDup (keys (entries_of ls)) ->
      sv_eval env = EvalValue (Some st) ->
      content_id st = Some c -> c <> "" -> c <> "__proto__" ->
      content_type st <> Some "series" ->
      Route.match_player (sv_hash env) = Some (vid, hash, oe) ->
      (forall k i, stored ls k = Some i -> timestamp i < sv_now env) ->
      let ls' := saveCurrentStreamInfo env ls in
      (exists i,
          stored ls' c = Some i /\
          getSavedStreamInfo ls' c = Some (Own i) /\
          streamHash i = hash /\ videoId i = vid /\ contentId i = c /\
          timestamp i = sv_now env) /\
      (forall k, k <> c -> stored ls' k = stored ls k \/ stored ls' k = None)) /\
  (forall envs, (size (save_all envs Missing) <= 100)%nat) /\
  (forall env o,
      NoDup (keys o) -> prepare env <> None ->
      (size (saveCurrentStreamInfo env (Persisted o)) <= 100)%nat) /\
  (forall o x y,
      NoDup (keys o) ->
      In x o -> ~ In x (trim o) -> In y (trim o) ->
      timestamp (snd x) <= timestamp (snd y)) /\
  (forall env1 rest,
      List.length rest = 100%nat ->
      Forall (fun env => prepare env <> None) (env1 :: rest) ->
      Forall (fun env => key_of env <> Some "__proto__") (env1 :: rest) ->
      NoDup (map key_of (env1 :: rest)) ->
      Forall (fun env => sv_now env1 < sv_now env) rest ->
      let ls := save_all (env1 :: rest) Missing in
      size ls = 100%nat /\
      forall k i, stored ls k = Some i -> sv_now env1 < timestamp i).
Proof.
  split; [|split; [|split; [|split; [|split]]]].
  - intros env ls st c e vid hash Hm Hnd He Hc Hne Hcp Ht Hr Hclock ls'.
    destruct (prepare_series env st c e vid hash He Hc Hne Ht Hr)
      as (i & Hp & H1 & H2 & H3 & H4 & H5).
    exists i. subst ls'. rewrite (save_entries env ls _ _ _ _ Hp Hm).
    destruct (series_written_twice (c ++ ":" ++ e) c i (entries_of ls) Hnd
                (episode_key_not_proto c e) Hcp) as [Ha Hb].
    { intros k' i' Hg. rewrite H5. now apply (Hclock k'). }
    split; [exact Ha|]. split; [exact Hb|].
    split; [now apply getSaved_stored|]. split; [now apply getSaved_stored|].
    repeat split; assumption.
  - intros env ls st c vid hash oe Hm Hnd He Hc Hne Hcp Ht Hr Hclock ls'.
    destruct (prepare_other env st c vid hash oe He Hc Hne Ht Hr)
      as (t & i & Hp & Hts & H1 & H2 & H3 & H5).
    subst ls'. rewrite (save_entries env ls _ _ _ _ Hp Hm).
    destruct (other_written_once c t i (entries_of ls) Hnd Hcp Hts) as [Ha Hb].
    { intros k' i' Hg. rewrite H5. now apply (Hclock k'). }
    split.
    + exists i. split; [exact Ha|]. split; [now apply getSaved_stored|].
      repeat split; assumption.
    + intros k Hk. now apply Hb.
  - intros envs.
    destruct (save_all_invariant envs Missing) as (_ & _ & H);
      [discriminate | constructor | simpl; lia | exact H].
  - intros env o Hnd Hp. now apply save_size_bound.
  - intros o x y Hnd Hx Hnx Hy.
    destruct (Z.le_gt_cases (timestamp (snd x)) (timestamp (snd y))) as [Hle|Hgt];
      [exact Hle|].
    elim Hnx. now apply (trim_keeps_newer o x y).
  - intros env1 rest Hlen Hp Hpr Hnd Hts.
    apply hundred_and_one_saves; try assumption. lia.
Qed.

Lemma NoDup_by_nodup {A : Type} (dec : forall x y : A, {x = y} + {x <> y}) (l : list A) :
  nodup dec l = l -> NoDup l.
Proof. intros <-. apply NoDup_nodup. Qed.

Lemma Forall_by_forallb {A : Type} (f : A -> bool) (P : A -> Prop) (l : list A) :
  (forall x, f x = true -> P x) -> forallb f l = true -> Forall P l.
Proof.
  intros Hf Hall. apply Forall_forall. intros x Hx. apply Hf.
  now apply (proj1 (forallb_forall f l) Hall).
Qed.

(** The theorem of C4 at the example of the specification and at a hundred
    and one films. *)
Lemma save_keys_and_bounded_store_witness :
  (exists i,
      stored (saveCurrentStreamInfo series_env Missing) "tt1:ep2" = Some i /\
      stored (saveCurrentStreamInfo series_env Missing) "tt1" = Some i /\
      getSavedStreamInfo (saveCurrentStreamInfo series_env Missing) "tt1:ep2" = Some (Own i) /\
      getSavedStreamInfo (saveCurrentStreamInfo series_env Missing) "tt1" = Some (Own i) /\
      streamHash i = "hashA" /\ videoId i = "vid1" /\ contentId i = "tt1" /\
      type i = "series" /\ timestamp i = 1700000000000) /\
  size (save_all films Missing) = 100%nat /\
  (forall k i, stored (save_all films Missing) k = Some i -> 1700000000000 < timestamp i).
Proof.
  destruct save_keys_and_bounded_store as (Hseries & _ & _ & _ & _ & Hfilms).
  split.
  - apply (Hseries series_env Missing
             {| content_id := Some "tt1"; content_type := Some "series";
                seriesInfo := Some (Some 1, Some 2) |}
             "tt1" "ep2" "vid1" "hashA");
      try reflexivity; try discriminate.
    constructor.
  - apply (Hfilms (film_env 0) (map film_env (seq 1 100))).
    + reflexivity.
    + apply (Forall_by_forallb
               (fun env => match prepare env with Some _ => true | None => false end)).
      * intros env H E. now rewrite E in H.
      * vm_compute. reflexivity.
    + apply (Forall_by_forallb
               (fun env => match key_of env with
                           | Some k => negb (String.eqb k "__proto__")
                           | None => true
                           end)).
      * intros env H E. rewrite E in H. discriminate H.
      * vm_compute. reflexivity.
    + apply (NoDup_by_nodup Js.option_string_dec). vm_compute. reflexivity.
    + apply (Forall_by_forallb (fun env => sv_now (film_env 0) <? sv_now env)).
      * intros env H. now apply Z.ltb_lt.
      * vm_compute. reflexivity.
Defined.





(** *** Resuming *)

Lemma string_app_assoc (a b c : string) : (a ++ b) ++ c = a ++ b ++ c.
Proof. induction a as [|x a IH]; simpl; [reflexivity | now rewrite IH]. Qed.

Lemma player_url_series i s e :
  type i = "series" -> season i = Some s -> episode i = Some e -> s <> 0 -> e <> 0 ->
  player_url i
  = "#/player/" ++ videoId i ++ "/" ++ streamHash i
    ++ "/" ++ Js.number_to_string s ++ ":" ++ Js.number_to_string e.
Proof.
  intros Ht Hs He Hs0 He0. unfold player_url. rewrite Ht, Hs, He. simpl.
  apply Z.eqb_neq in Hs0, He0. rewrite Hs0, He0. simpl.
  do 9 f_equal. now rewrite string_app_assoc.
Qed.

Lemma player_url_other i :
  type i <> "series" ->
  player_url i = "#/player/" ++ videoId i ++ "/" ++ streamHash i.
Proof.
  intros Ht. unfold player_url. apply String.eqb_neq in Ht. rewrite Ht. simpl.
  now destruct (season i), (episode i).
Qed.

(** The part of C7 the code keeps: for a saved stream that a click in the
    continue-watching row finds, the entry is rejected exactly when it is
    more than thirty days old, and an accepted entry navigates to the route
    built from it. *)
Lemma resume_staleness ls now e m href tp contentId i :
  target e = true ->
  closest_meta_item e = Some m ->
  Js.includes (rowTitle m) "continue" = true \/ Js.includes (rowTitle m) "watching" = true ->
  anchor_href m = Some href ->
  Route.match_detail href = Some (tp, contentId) ->
  getSavedStreamInfo ls contentId = Some (Own i) ->
  (THIRTY_DAYS_MS < now - timestamp i ->
   handleContinueWatchingClick ls now e = NormalFlow) /\
  (now - timestamp i <= THIRTY_DAYS_MS ->
   handleContinueWatchingClick ls now e = Navigate (player_url i)).
Proof.
  intros Ht Hc Hrow Ha Hm Hg. unfold handleContinueWatchingClick.
  rewrite Ht, Hc. cbn [negb].
  replace (negb (Js.includes (rowTitle m) "continue")
           && negb (Js.includes (rowTitle m) "watching")) with false
    by (destruct Hrow as [-> | ->]; [reflexivity | now rewrite andb_false_r]).
  rewrite Ha, Hm, Hg. unfold resume_saved. split; intros H.
  - apply Z.ltb_lt in H. now rewrite H.
  - apply Z.ltb_ge in H. now rewrite H.
Qed.

(** C7 at its failing input: the entry is a day old and is accepted, it is a
    series entry with season 0 and episode 5, and the route navigated to
    ends after the stream hash: "/0:5" is not appended. *)
Lemma resume_drops_episode_of_season_zero :
  handleContinueWatchingClick (Persisted [("tt1", special_episode)])
                              (1700000000000 + 24 * 60 * 60 * 1000)
                              (continue_click "tt1")
  = Navigate "#/player/vid1/hashA".
Proof. vm_compute. reflexivity. Qed.

End QuickResumeClaims.

(** ** The page: the unified observer *)
Section ObserverFacts.
Import Page.

Lemma pending_dispatches_app q1 q2 :
  pending_dispatches (q1 ++ q2) = (pending_dispatches q1 ++ pending_dispatches q2)%list.
Proof. apply flat_map_app. Qed.

Lemma pending_dispatches_filter (f : positive * frame_callback -> bool) q :
  (List.length (pending_dispatches (filter f q)) <= List.length (pending_dispatches q))%nat.
Proof.
  induction q as [|[h cb] q IH]; simpl; [lia|].
  destruct (f (h, cb)); simpl; destruct cb; simpl; lia.
Qed.

Lemma pending_dispatches_none q :
  (forall h b, ~ In (h, Dispatch b) q) -> pending_dispatches q = [].
Proof.
  induction q as [|[h cb] q IH]; intros H; simpl; [reflexivity|].
  destruct cb as [b|].
  - elim (H h b). now left.
  - apply IH. intros h' b' Hin. apply (H h' b'). now right.
Qed.

Lemma map_set_keys k v m :
  map fst (map_set k v m) = if existsb (String.eqb k) (map fst m) then map fst m
                            else (map fst m ++ [k])%list.
Proof.
  induction m as [|[k' v'] m IH]; simpl; [reflexivity|].
  destruct (String.eqb k k') eqn:E; simpl; [reflexivity|].
  rewrite IH. now destruct (existsb _ _).
Qed.

Lemma map_set_In k v m k0 h :
  In (k0, h) (map_set k v m) -> (k0 = k /\ h = v) \/ In (k0, h) m.
Proof.
  induction m as [|[k' v'] m IH]; simpl.
  - intros [[= <- <-]|[]]. now left.
  - destruct (String.eqb_spec k k') as [->|].
    + intros [[= <- <-]|H]; [now left | right; now right].
    + intros [H|H]; [right; now left|]. destruct (IH H); [now left | right; now right].
Qed.

Lemma map_delete_In k m x : In x (map_delete k m) -> In x m.
Proof.
  induction m as [|[k' v'] m IH]; simpl; [auto|].
  destruct (String.eqb k k'); [now right|]. intros [H|H]; [now left | right; now apply IH].
Qed.

Lemma map_delete_NoDup k m : NoDup (map fst m) -> NoDup (map fst (map_delete k m)).
Proof.
  induction m as [|[k' v'] m IH]; simpl; intros H; [constructor|].
  inversion H as [|? ? Hn Hnd]; subst.
  destruct (String.eqb k k'); [exact Hnd|]. simpl. constructor; [|now apply IH].
  intros Hin. apply Hn. apply in_map_iff in Hin. destruct Hin as ([k0 h0] & <- & Hin).
  apply in_map_iff. exists (k0, h0). split; [reflexivity|]. eapply map_delete_In, Hin.
Qed.

Lemma map_set_NoDup k v m : NoDup (map fst m) -> NoDup (map fst (map_set k v m)).
Proof.
  intros H. rewrite map_set_keys. destruct (existsb (String.eqb k) (map fst m)) eqn:E; [exact H|].
  apply NoDup_app; [exact H | repeat constructor; auto|].
  intros a Ha [<-|[]].
  assert (existsb (String.eqb k) (map fst m) = true); [|congruence].
  apply existsb_exists. exists k. split; [exact Ha | apply String.eqb_refl].
Qed.

(** What a frame does to the coordinator: the registry stays, and each
    waiting dispatch calls the active handlers once. *)
Lemma frame_callbacks_effect q :
  forall s0,
    let s1 := fold_left (fun s c => run_frame_callback (snd c) s) q s0 in
    observerHandlers (co s1) = observerHandlers (co s0) /\
    dispatched (co s1)
    = (dispatched (co s0)
       ++ flat_map (fun b => calls_for b (observerHandlers (co s0))) (pending_dispatches q))%list /\
    br s1 = br s0.
Proof.
  induction q as [|[h cb] q IH]; intros s0; simpl.
  - now rewrite app_nil_r.
  - destruct (IH (run_frame_callback cb s0)) as (H1 & H2 & H3).
    rewrite H1, H2, H3. destruct cb as [b|]; simpl.
    + repeat split. now rewrite <- app_assoc.
    + unfold scroll_check. destruct (_ <=? _); simpl; repeat split.
Qed.

Lemma observer_inv_initial t0 : observer_inv (initial t0).
Proof.
  repeat split; simpl; try contradiction; try lia. constructor.
Qed.

(** After a batch, the one waiting dispatch is the batch's. *)
Lemma on_mutations_pending m s :
  observer_inv s ->
  let '(c, b) := on_mutations m (co s) (br s) in
  pending_dispatches (frame_callbacks b) = [m] /\
  observerHandlers c = observerHandlers (co s) /\
  dispatched c = dispatched (co s) /\
  unifiedObserver c = unifiedObserver (co s) /\
  observer_inv {| br := b; co := c; sc := sc s |}.
Proof.
  intros (I1 & I2 & I3 & I4). unfold on_mutations.
  set (b1 := match observerRafId (co s) with
             | Some h => cancelAnimationFrame h (br s)
             | None => br s
             end).
  assert (Hsub : forall x, In x (frame_callbacks b1) -> In x (frame_callbacks (br s))).
  { intros x. subst b1. destruct (observerRafId (co s)); simpl; [|auto].
    intros H. now apply filter_In in H. }
  assert (Hnone : forall h b, ~ In (h, Dispatch b) (frame_callbacks b1)).
  { intros h b Hin. pose proof (I1 h b (Hsub _ Hin)) as Hid.
    subst b1. rewrite Hid in Hin. simpl in Hin. apply filter_In in Hin.
    destruct Hin as [_ Hf]. simpl in Hf. now rewrite Pos.eqb_refl in Hf. }
  simpl. rewrite pending_dispatches_app, (pending_dispatches_none _ Hnone). simpl.
  repeat split; try assumption; simpl.
  - intros h b Hin. apply in_app_or in Hin. destruct Hin as [Hin | [[= <- _] | []]].
    + now elim (Hnone h b).
    + replace (next_frame_handle b1) with (next_frame_handle (br s)); [reflexivity|].
      subst b1. now destruct (observerRafId (co s)).
  - rewrite pending_dispatches_app, (pending_dispatches_none _ Hnone). simpl. lia.
Qed.

Lemma observer_inv_step e s s' :
  step e s = Some s' -> observer_inv s -> observer_inv s'.
Proof.
  intros Hstep Inv. pose proof Inv as (I1 & I2 & I3 & I4).
  destruct e as [i | i | i a | m | | h | | d]; cbn [step] in Hstep.
  - (* Register *)
    injection Hstep as <-. unfold registerObserverHandler, initUnifiedObserver.
    repeat split; simpl.
    + destruct (unifiedObserver (co s)); exact I1.
    + exact I2.
    + destruct (unifiedObserver (co s)); simpl; now apply map_set_NoDup.
    + intros k h Hin.
      assert (Hin' : In (k, h) (map_set i {| id := i; active := true |}
                                        (observerHandlers (co s)))).
      { destruct (unifiedObserver (co s)); exact Hin. }
      apply map_set_In in Hin'. destruct Hin' as [[-> ->] | Hin']; [reflexivity | now apply I4].
  - (* Unregister *)
    injection Hstep as <-. unfold unregisterObserverHandler. simpl.
    assert (Hh : forall c, (c = with_observer None (with_handlers (map_delete i (observerHandlers (co s))) (co s))
                            \/ c = with_handlers (map_delete i (observerHandlers (co s))) (co s)) ->
                           observer_inv {| br := br s; co := c; sc := sc s |}).
    { intros c [-> | ->]; repeat split; simpl; auto using map_delete_NoDup;
        intros k h Hin; apply I4; eapply map_delete_In, Hin. }
    apply Hh. destruct (map_delete i (observerHandlers (co s))); [|now right].
    destruct (unifiedObserver (co s)); [now left | now right].
  - (* SetActive *)
    injection Hstep as <-. unfold setObserverHandlerActive.
    repeat split; simpl; try assumption.
    + rewrite map_map.
      replace (map _ (observerHandlers (co s))) with (map fst (observerHandlers (co s)));
        [exact I3|].
      apply map_ext. intros [k h]. simpl. now destruct (String.eqb i k).
    + intros k h Hin. apply in_map_iff in Hin. destruct Hin as ([k0 h0] & E & Hin).
      cbn [fst snd] in E. destruct (String.eqb i k0); injection E as <- <-;
        cbn [id]; now apply I4.
  - (* Mutations *)
    destruct (unifiedObserver (co s)) as [[|]|]; try discriminate.
    pose proof (on_mutations_pending m s Inv) as H.
    destruct (on_mutations m (co s) (br s)) as [c b].
    injection Hstep as <-. apply H.
  - (* Input *)
    injection Hstep as <-. unfold handleScroll.
    repeat split; simpl.
    + intros h b Hin.
      assert (Hin' : In (h, Dispatch b) (frame_callbacks (br s))).
      { destruct (scrollTimeout (sc s)); exact Hin. }
      destruct (negb (isScrolling (sc s))); simpl; now apply (I1 h b).
    + destruct (scrollTimeout (sc s)); exact I2.
    + destruct (negb (isScrolling (sc s))); exact I3.
    + destruct (negb (isScrolling (sc s))); exact I4.
  - (* Timeout *)
    destruct (due h (br s)); [|discriminate]. injection Hstep as <-.
    unfold on_timeout. simpl.
    assert (Hsub : forall x,
               In x (frame_callbacks
                       match rafId (sc s) with
                       | Some h0 => cancelAnimationFrame h0 (clearTimeout h (br s))
                       | None => clearTimeout h (br s)
                       end) -> In x (frame_callbacks (br s))).
    { intros x. destruct (rafId (sc s)); simpl; [|auto]. intros H. now apply filter_In in H. }
    repeat split; simpl; try assumption.
    + intros h0 b Hin. apply in_app_or in Hin. destruct Hin as [Hin | [[=] | []]].
      apply I1 with (b := b). now apply Hsub.
    + rewrite pending_dispatches_app, length_app. simpl. rewrite Nat.add_0_r.
      destruct (rafId (sc s)); simpl; [|exact I2].
      etransitivity; [apply pending_dispatches_filter | exact I2].
  - (* Frame *)
    injection Hstep as <-. unfold frame.
    destruct (frame_callbacks_effect (frame_callbacks (br s))
                {| br := take_frame_callbacks (br s); co := co s; sc := sc s |})
      as (H1 & _ & H3).
    repeat split; simpl in *.
    + rewrite H3. simpl. contradiction.
    + rewrite H3. simpl. lia.
    + now rewrite H1.
    + rewrite H1. exact I4.
  - (* Tick *)
    destruct (0 <=? d); [|discriminate]. injection Hstep as <-.
    repeat split; assumption.
Qed.

Lemma observer_inv_run es :
  forall s s', run es s = Some s' -> observer_inv s -> observer_inv s'.
Proof.
  induction es as [|e es IH]; intros s s' Hrun Inv; simpl in Hrun.
  - now injection Hrun as <-.
  - destruct (step e s) as [s1|] eqn:E; [|discriminate].
    eapply IH; [exact Hrun|]. eapply observer_inv_step; eassumption.
Qed.

Lemma reachable_observer_inv s : reachable s -> observer_inv s.
Proof.
  intros (t0 & es & Hrun). eapply observer_inv_run; [exact Hrun | apply observer_inv_initial].
Qed.

Lemma calls_to_absent b hs i :
  (forall k h, In (k, h) hs -> id h = k) -> ~ In i (map fst hs) ->
  calls_to i (calls_for b hs) = 0%nat.
Proof.
  induction hs as [|[k0 h0] hs IH]; intros Hid Hout; [reflexivity|].
  unfold calls_to, calls_for in *. simpl.
  assert (IH' : List.length
                  (filter (fun c : string * batch => (fst c =? i)%string)
                          (map (fun kv => (id (snd kv), b))
                               (filter (fun kv => active (snd kv)) hs))) = 0%nat).
  { apply IH; [intros k h Hin; apply Hid; now right | intros Hin; apply Hout; now right]. }
  destruct (active h0); simpl; [|exact IH'].
  rewrite (Hid k0 h0 (or_introl eq_refl)).
  destruct (String.eqb_spec k0 i) as [->|]; [|exact IH'].
  elim Hout. now left.
Qed.

(** One batch calls each active handler once and no inactive handler. *)
Lemma calls_to_registered b hs :
  NoDup (map fst hs) -> (forall k h, In (k, h) hs -> id h = k) ->
  forall k h, In (k, h) hs ->
              calls_to k (calls_for b hs) = if active h then 1%nat else 0%nat.
Proof.
  induction hs as [|[k0 h0] hs IH]; intros Hnd Hid k h Hin; [contradiction|].
  inversion Hnd as [|? ? Hout Hnd']; subst.
  assert (Hid' : forall k h, In (k, h) hs -> id h = k) by (intros; apply Hid; now right).
  destruct Hin as [[= -> ->] | Hin].
  - pose proof (calls_to_absent b hs k Hid' Hout) as H0.
    unfold calls_to, calls_for in *. simpl.
    destruct (active h); simpl; [|exact H0].
    rewrite (Hid k h (or_introl eq_refl)), String.eqb_refl. simpl. now rewrite H0.
  - specialize (IH Hnd' Hid' k h Hin).
    unfold calls_to, calls_for in *. simpl.
    destruct (active h0); simpl; [|exact IH].
    rewrite (Hid k0 h0 (or_introl eq_refl)).
    destruct (String.eqb_spec k0 k) as [->|]; [|exact IH].
    elim Hout. change k with (fst (k, h)). now apply in_map.
Qed.

Lemma calls_to_at_most_once b hs i :
  NoDup (map fst hs) -> (forall k h, In (k, h) hs -> id h = k) ->
  (calls_to i (calls_for b hs) <= 1)%nat.
Proof.
  intros Hnd Hid.
  destruct (in_dec string_dec i (map fst hs)) as [Hin|Hout].
  - apply in_map_iff in Hin. destruct Hin as ([k h] & <- & Hin). simpl.
    rewrite (calls_to_registered b hs Hnd Hid k h Hin). destruct (active h); lia.
  - rewrite (calls_to_absent b hs i Hid Hout). lia.
Qed.

(** A burst of batches leaves one waiting dispatch: that of the last batch. *)
Lemma burst_pending bs :
  forall s, bs <> [] -> observer_inv s -> unifiedObserver (co s) = Some true ->
    exists s',
      run (map Mutations bs) s = Some s' /\
      pending_dispatches (frame_callbacks (br s')) = [last bs 0%nat] /\
      observerHandlers (co s') = observerHandlers (co s) /\
      dispatched (co s') = dispatched (co s) /\
      observer_inv s'.
Proof.
  induction bs as [|b bs IH]; intros s Hne Inv Hobs; [now elim Hne|].
  pose proof (on_mutations_pending b s Inv) as H.
  cbn [map run step]. rewrite Hobs.
  destruct (on_mutations b (co s) (br s)) as [c br1].
  destruct H as (Hp & Hh & Hd & Ho & Inv1).
  destruct bs as [|b' bs].
  - eexists. split; [reflexivity|]. simpl.
    split; [exact Hp|]. split; [exact Hh|]. split; [exact Hd | exact Inv1].
  - destruct (IH {| br := br1; co := c; sc := sc s |}) as (s' & Hrun & Hp' & Hh' & Hd' & Inv');
      [discriminate | exact Inv1 | simpl; congruence |].
    exists s'. split; [exact Hrun|]. simpl in Hh', Hd'.
    split; [exact Hp'|]. split; [congruence|]. split; [congruence | exact Inv'].
Qed.

Lemma run_app es1 es2 s s1 :
  run es1 s = Some s1 -> run (es1 ++ es2) s = run es2 s1.
Proof.
  revert s. induction es1 as [|e es1 IH]; intros s H; simpl in *.
  - now injection H as ->.
  - destruct (step e s); [now apply IH | discriminate].
Qed.

End ObserverFacts.

Section ObserverClaims.
Import Page.

(** C5: from any reachable state of the page in which the observer is
    observing, a burst of N >= 1 batches followed by the next paint frame
    calls every registered active handler exactly once, with the last batch,
    and no inactive handler; after each batch of the burst exactly one
    dispatch is waiting, the one of that batch, the earlier one having been
    cancelled; and in no reachable state does a paint frame call a handler
    more than once. *)
Theorem burst_yields_one_dispatch_per_handler :
  (forall s bs,
      reachable s -> unifiedObserver (co s) = Some true -> bs <> [] ->
      exists s',
        run (map Mutations bs ++ [Frame]) s = Some s' /\
        dispatched (co s')
        = (dispatched (co s) ++ calls_for (last bs 0%nat) (observerHandlers (co s)))%list /\
        (forall k h, In (k, h) (observerHandlers (co s)) ->
                     calls_to k (calls_for (last bs 0%nat) (observerHandlers (co s)))
                     = if active h then 1%nat else 0%nat) /\
        frame_callbacks (br s') = []) /\
  (forall s bs,
      reachable s -> unifiedObserver (co s) = Some true -> bs <> [] ->
      exists s1,
        run (map Mutations bs) s = Some s1 /\
        pending_dispatches (frame_callbacks (br s1)) = [last bs 0%nat]) /\
  (forall s,
      reachable s ->
      exists new,
        dispatched (co (frame s)) = (dispatched (co s) ++ new)%list /\
        forall i, (calls_to i new <= 1)%nat).
Proof.
  split; [|split].
  - intros s bs Hr Hobs Hne.
    pose proof (reachable_observer_inv s Hr) as Inv.
    destruct (burst_pending bs s Hne Inv Hobs) as (s1 & Hrun & Hp & Hh & Hd & Inv1).
    exists (frame s1). split; [now rewrite (run_app _ _ _ _ Hrun)|].
    unfold frame.
    destruct (frame_callbacks_effect (frame_callbacks (br s1))
                {| br := take_frame_callbacks (br s1); co := co s1; sc := sc s1 |})
      as (H1 & H2 & H3).
    simpl in H1, H2, H3. rewrite H2, H3, Hp, Hh, Hd. simpl. rewrite app_nil_r.
    repeat split.
    destruct Inv as (_ & _ & I3 & I4). intros k h Hin.
    now apply calls_to_registered.
  - intros s bs Hr Hobs Hne.
    destruct (burst_pending bs s Hne (reachable_observer_inv s Hr) Hobs)
      as (s1 & Hrun & Hp & _).
    now exists s1.
  - intros s Hr. destruct (reachable_observer_inv s Hr) as (_ & I2 & I3 & I4).
    unfold frame.
    destruct (frame_callbacks_effect (frame_callbacks (br s))
                {| br := take_frame_callbacks (br s); co := co s; sc := sc s |})
      as (_ & H2 & _).
    simpl in H2. rewrite H2. eexists. split; [reflexivity|].
    intros i. destruct (pending_dispatches (frame_callbacks (br s))) as [|b [|b' l]].
    + simpl. unfold calls_to. simpl. lia.
    + simpl. rewrite app_nil_r. now apply calls_to_at_most_once.
    + simpl in I2. lia.
Qed.

(** The theorem of C5 at a burst of three batches over one active and one
    inactive handler. *)
Lemma burst_yields_one_dispatch_per_handler_witness :
  exists s',
    run (map Mutations [1; 2; 3]%nat ++ [Frame]) one_active_one_inactive = Some s' /\
    dispatched (co s') = [("title-bar", 3%nat)].
Proof.
  destruct (proj1 burst_yields_one_dispatch_per_handler
                  one_active_one_inactive [1; 2; 3]%nat)
    as (s' & Hrun & Hd & _).
  - exists 0, [Register "title-bar"; Register "icon-injection";
               SetActive "icon-injection" false]. reflexivity.
  - reflexivity.
  - discriminate.
  - exists s'. split; [exact Hrun | exact Hd].
Defined.

(** C6: when the handler being unregistered is the only one in the registry,
    unregistering it empties the registry and discards the observer, after
    which no batch can be delivered; registering a handler after that
    creates a new observer that observes, so batches are delivered again. *)
Theorem unregister_last_stops_register_restarts :
  forall (s : state) (i j : string) (h : ObserverHandler) (m : batch),
    observerHandlers (co s) = [(i, h)] ->
    exists s1 s2,
      step (Unregister i) s = Some s1 /\
      observerHandlers (co s1) = [] /\
      unifiedObserver (co s1) = None /\
      step (Mutations m) s1 = None /\
      step (Register j) s1 = Some s2 /\
      observerHandlers (co s2) = [(j, {| id := j; active := true |})] /\
      unifiedObserver (co s2) = Some true /\
      step (Mutations m) s2 <> None.
Proof.
  intros s i j h m Hh.
  assert (Hc : observerHandlers (unregisterObserverHandler i (co s)) = [] /\
               unifiedObserver (unregisterObserverHandler i (co s)) = None).
  { unfold unregisterObserverHandler. simpl. rewrite Hh. simpl.
    rewrite String.eqb_refl. destruct (unifiedObserver (co s)) eqn:E; simpl; auto. }
  destruct Hc as [Hc1 Hc2].
  eexists. eexists. split; [reflexivity|]. simpl.
  split; [exact Hc1|]. split; [exact Hc2|]. rewrite Hc2.
  split; [reflexivity|]. split; [reflexivity|].
  unfold registerObserverHandler, initUnifiedObserver. rewrite Hc2. simpl. rewrite Hc1.
  repeat split. discriminate.
Qed.

(** The theorem of C6 at a registry that holds the title-bar handler only. *)
Lemma unregister_last_stops_register_restarts_witness :
  exists s1 s2,
    step (Unregister "title-bar")
         {| br := br (initial 0); co := registerObserverHandler "title-bar" (co (initial 0));
            sc := sc (initial 0) |} = Some s1 /\
    unifiedObserver (co s1) = None /\
    step (Register "external-player-menu") s1 = Some s2 /\
    unifiedObserver (co s2) = Some true.
Proof.
  destruct (unregister_last_stops_register_restarts
              {| br := br (initial 0); co := registerObserverHandler "title-bar" (co (initial 0));
                 sc := sc (initial 0) |}
              "title-bar" "external-player-menu" {| id := "title-bar"; active := true |} 0%nat
              eq_refl)
    as (s1 & s2 & H1 & _ & H3 & _ & H5 & _ & H7 & _).
  exists s1, s2. repeat split; assumption.
Defined.

(** While an inactive handler stays registered, unregistering the last
    active one leaves the observer running. *)
Lemma inactive_handler_keeps_observer :
  unifiedObserver (unregisterObserverHandler "title-bar" (co one_active_one_inactive))
  = Some true.
Proof. reflexivity. Qed.

End ObserverClaims.

(** ** The page: scroll state detection *)
Section ScrollFacts.
Import Page.

(** Frame callbacks other than the scroll check leave the monitor alone. *)
Lemma dispatches_leave_scroll (q : list (positive * frame_callback)) :
  (forall h, ~ In (h, ScrollCheck) q) ->
  forall s0,
    let s1 := fold_left (fun s c => run_frame_callback (snd c) s) q s0 in
    sc s1 = sc s0 /\ br s1 = br s0 /\
    pause_calls (co s1) = pause_calls (co s0) /\
    resume_calls (co s1) = resume_calls (co s0) /\
    unifiedObserver (co s1) = unifiedObserver (co s0).
Proof.
  induction q as [|[h cb] q IH]; intros Hno s0; simpl; [repeat split|].
  destruct cb as [b|]; [|elim (Hno h); now left].
  destruct (IH (fun h' Hin => Hno h' (or_intror Hin))
               (run_frame_callback (Dispatch b) s0)) as (H1 & H2 & H3 & H4 & H5).
  rewrite H1, H2, H3, H4, H5. repeat split.
Qed.

Lemma filter_keeps_no_scroll_check (f : positive * frame_callback -> bool)
    (q : list (positive * frame_callback)) :
  (forall h, ~ In (h, ScrollCheck) q) -> forall h, ~ In (h, ScrollCheck) (filter f q).
Proof. intros H h Hin. apply filter_In in Hin. now apply (H h). Qed.




(** The pending timeout fires once it is due, and asks for a frame. *)
Lemma timeout_fires (s : state) (h : positive) (t d2 : Z) :
  timers (br s) = [(h, t)] ->
  (forall h', ~ In (h', ScrollCheck) (frame_callbacks (br s))) ->
  0 <= d2 -> t <= now (br s) + d2 ->
  exists s3 q,
    run [Tick d2; Timeout h] s = Some s3 /\
    sc s3 = {| scrollTimeout := scrollTimeout (sc s);
               rafId := Some (next_frame_handle (br s));
               isScrolling := isScrolling (sc s);
               lastScrollTime := lastScrollTime (sc s);
               scrolling_active := scrolling_active (sc s);
               performance_mode := performance_mode (sc s) |} /\
    co s3 = co s /\
    timers (br s3) = [] /\
    now (br s3) = now (br s) + d2 /\
    frame_callbacks (br s3) = (q ++ [(next_frame_handle (br s), ScrollCheck)])%list /\
    (forall h', ~ In (h', ScrollCheck) q).
Proof.
  intros Ht Hno Hd2 Hdue.
  destruct s as [[q nf tm nt t0] c [st rf isS lst sa pm]].
  simpl in *. subst tm.
  apply Z.leb_le in Hd2, Hdue.
  exists (on_timeout
            {| br := clearTimeout h (advance d2
                       {| frame_callbacks := q; next_frame_handle := nf;
                          timers := [(h, t)]; next_timer_handle := nt; now := t0 |});
               co := c;
               sc := {| scrollTimeout := st; rafId := rf; isScrolling := isS;
                        lastScrollTime := lst; scrolling_active := sa;
                        performance_mode := pm |} |}).
  exists (match rf with
          | Some h0 => filter (fun c => negb (Pos.eqb (fst c) h0)) q
          | None => q
          end).
  split.
  { cbn [run step]. rewrite Hd2. unfold due. cbn. now rewrite Pos.eqb_refl, Hdue. }
  unfold on_timeout. destruct rf as [h0|]; cbn; rewrite Pos.eqb_refl; cbn;
    repeat split; try assumption.
  now apply filter_keeps_no_scroll_check.
Qed.




(** The frame in which the scroll check runs too early: it changes nothing. *)
Lemma check_frame_early (s : state) (q : list (positive * frame_callback)) (h : positive) :
  frame_callbacks (br s) = (q ++ [(h, ScrollCheck)])%list ->
  (forall h', ~ In (h', ScrollCheck) q) ->
  now (br s) - lastScrollTime (sc s) < SCROLL_DEBOUNCE ->
  sc (frame s) = sc s /\
  resume_calls (co (frame s)) = resume_calls (co s) /\
  pause_calls (co (frame s)) = pause_calls (co s).
Proof.
  intros Hq Hno Hearly. unfold frame. rewrite Hq, fold_left_app.
  destruct (dispatches_leave_scroll q Hno
              {| br := take_frame_callbacks (br s); co := co s; sc := sc s |})
    as (H1 & H2 & H3 & H4 & H5).
  simpl in H1, H2, H3, H4, H5. cbn [fold_left snd run_frame_callback].
  unfold scroll_check. rewrite H1, H2. simpl.
  apply Z.leb_gt in Hearly. rewrite Hearly. simpl.
  rewrite H1, H3, H4. repeat split.
Qed.

(** An input event while the monitor is active only moves the time of the
    last input and re-arms the timeout. *)
Lemma input_while_active (s : state) :
  isScrolling (sc s) = true ->
  isScrolling (sc (handleScroll s)) = true /\
  lastScrollTime (sc (handleScroll s)) = now (br s) /\
  now (br (handleScroll s)) = now (br s) /\
  frame_callbacks (br (handleScroll s)) = frame_callbacks (br s) /\
  co (handleScroll s) = co s.
Proof.
  intros Ha. unfold handleScroll. rewrite Ha.
  destruct (scrollTimeout (sc s)); simpl; repeat split.
Qed.

(** What the check is for: when input arrives after the timeout has fired
    and less than the debounce window before the frame, the frame does not
    end the active state and does not resume the observers. *)
Lemma late_input_defers_resume (s : state) (h : positive) (t d a b : Z) :
  isScrolling (sc s) = true ->
  timers (br s) = [(h, t)] ->
  (forall h', ~ In (h', ScrollCheck) (frame_callbacks (br s))) ->
  0 <= d -> t <= now (br s) + d -> 0 <= a -> 0 <= b < SCROLL_DEBOUNCE ->
  exists s',
    run [Tick d; Timeout h; Tick a; Input; Tick b; Frame] s = Some s' /\
    isScrolling (sc s') = true /\
    resume_calls (co s') = resume_calls (co s) /\
    pause_calls (co s') = pause_calls (co s).
Proof.
  intros Ha Ht Hno Hd Hdue Hge Hb.
  destruct (timeout_fires s h t d Ht Hno Hd Hdue)
    as (s3 & q & Hrun3 & Hsc3 & Hco3 & Ht3 & Hn3 & Hq3 & Hno3).
  set (s4 := handleScroll {| br := advance a (br s3); co := co s3; sc := sc s3 |}).
  set (s5 := {| br := advance b (br s4); co := co s4; sc := sc s4 |}).
  destruct (input_while_active {| br := advance a (br s3); co := co s3; sc := sc s3 |})
    as (Hi4 & Hl4 & Hn4 & Hq4 & Hco4).
  { simpl. now rewrite Hsc3. }
  fold s4 in Hi4, Hl4, Hn4, Hq4, Hco4.
  cbn [br co sc advance now frame_callbacks] in Hl4, Hn4, Hq4, Hco4.
  destruct (check_frame_early s5 q (next_frame_handle (br s)))
    as (Hf1 & Hf2 & Hf3).
  { unfold s5. cbn [br advance frame_callbacks]. now rewrite Hq4. }
  { exact Hno3. }
  { unfold s5. cbn [br sc advance now]. rewrite Hl4, Hn4. lia. }
  exists (frame s5). split.
  - change [Tick d; Timeout h; Tick a; Input; Tick b; Frame]
      with ([Tick d; Timeout h] ++ [Tick a; Input; Tick b; Frame])%list.
    rewrite (run_app _ _ _ _ Hrun3). cbn [run step].
    replace (0 <=? a) with true by (symmetry; now apply Z.leb_le).
    fold s4. replace (0 <=? b) with true by (symmetry; apply Z.leb_le; lia).
    reflexivity.
  - rewrite Hf1, Hf2, Hf3. unfold s5. cbn [co sc]. rewrite Hco4, Hco3.
    split; [exact Hi4 | split; reflexivity].
Qed.

(** *** Any schedule *)


Lemma reachable_run (es : list event) (s s' : state) :
  reachable s -> run es s = Some s' -> reachable s'.
Proof.
  intros (t0 & es0 & H0) H. exists t0, (es0 ++ es)%list.
  now rewrite (run_app _ _ _ _ H0).
Qed.

(** A frame leaves [observerRafId] alone or clears it. *)
Lemma frame_observerRafId (q : list (positive * frame_callback)) :
  forall s0,
    let s1 := fold_left (fun s c => run_frame_callback (snd c) s) q s0 in
    observerRafId (co s1) = observerRafId (co s0) \/ observerRafId (co s1) = None.
Proof.
  induction q as [|[h cb] q IH]; intros s0; simpl; [now left|].
  destruct (IH (run_frame_callback cb s0)) as [H | H]; [|now right].
  rewrite H. destruct cb as [b|]; simpl; [now right|].
  unfold scroll_check. destruct (_ <=? _); simpl; now left.
Qed.

Lemma handles_fresh_step (e : event) (s s' : state) :
  step e s = Some s' -> handles_fresh s -> handles_fresh s'.
Proof.
  intros Hstep (F1 & F2).
  destruct e as [i | i | i a | m | | h | | d]; cbn [step] in Hstep.
  - injection Hstep as <-. unfold handles_fresh, registerObserverHandler, initUnifiedObserver.
    simpl. destruct (unifiedObserver (co s)); simpl; split; assumption.
  - injection Hstep as <-. unfold handles_fresh, unregisterObserverHandler. simpl.
    destruct (map_delete i (observerHandlers (co s))); [|split; assumption].
    destruct (unifiedObserver (co s)); split; assumption.
  - injection Hstep as <-. split; assumption.
  - destruct (unifiedObserver (co s)) as [[|]|]; try discriminate.
    unfold on_mutations in Hstep. simpl in Hstep. injection Hstep as <-.
    assert (Hn : next_frame_handle
                   match observerRafId (co s) with
                   | Some h => cancelAnimationFrame h (br s)
                   | None => br s
                   end = next_frame_handle (br s)).
    { now destruct (observerRafId (co s)). }
    split; simpl; rewrite Hn.
    + intros h [= <-]. apply Pos.lt_succ_diag_r.
    + intros h cb Hin. apply in_app_or in Hin. destruct Hin as [Hin | [[= <- _] | []]].
      * apply Pos.lt_lt_succ. apply (F2 h cb).
        destruct (observerRafId (co s)); simpl in Hin; [|exact Hin].
        now apply filter_In in Hin.
      * apply Pos.lt_succ_diag_r.
  - injection Hstep as <-. unfold handles_fresh, handleScroll. simpl.
    assert (Hq : forall b, frame_callbacks
                   match scrollTimeout (sc s) with
                   | Some h => clearTimeout h b
                   | None => b
                   end = frame_callbacks b) by (intros; now destruct (scrollTimeout (sc s))).
    assert (Hn : forall b, next_frame_handle
                   match scrollTimeout (sc s) with
                   | Some h => clearTimeout h b
                   | None => b
                   end = next_frame_handle b) by (intros; now destruct (scrollTimeout (sc s))).
    rewrite Hq, Hn. split; [|exact F2].
    destruct (negb (isScrolling (sc s))); exact F1.
  - destruct (due h (br s)); [|discriminate]. injection Hstep as <-.
    unfold handles_fresh, on_timeout. simpl.
    assert (Hn : next_frame_handle
                   match rafId (sc s) with
                   | Some h0 => cancelAnimationFrame h0 (clearTimeout h (br s))
                   | None => clearTimeout h (br s)
                   end = next_frame_handle (br s)).
    { now destruct (rafId (sc s)). }
    rewrite Hn. split.
    + intros h0 H0. apply Pos.lt_lt_succ. now apply F1.
    + intros h0 cb Hin. apply in_app_or in Hin. destruct Hin as [Hin | [[= <- _] | []]].
      * apply Pos.lt_lt_succ. apply (F2 h0 cb).
        destruct (rafId (sc s)); simpl in Hin; [|exact Hin].
        now apply filter_In in Hin.
      * apply Pos.lt_succ_diag_r.
  - injection Hstep as <-. unfold handles_fresh, frame.
    destruct (frame_callbacks_effect (frame_callbacks (br s))
                {| br := take_frame_callbacks (br s); co := co s; sc := sc s |})
      as (_ & _ & H3).
    destruct (frame_observerRafId (frame_callbacks (br s))
                {| br := take_frame_callbacks (br s); co := co s; sc := sc s |})
      as [H | H]; simpl in H, H3; rewrite H3, H; simpl; split;
      try assumption; try discriminate; contradiction.
  - destruct (0 <=? d); [|discriminate]. injection Hstep as <-. split; assumption.
Qed.

Lemma reachable_handles_fresh (s : state) : reachable s -> handles_fresh s.
Proof.
  intros (t0 & es & Hrun).
  assert (H0 : handles_fresh (initial t0)).
  { split; simpl; [discriminate | contradiction]. }
  revert Hrun H0. generalize (initial t0).
  induction es as [|e es IH]; intros s0 Hrun H0; simpl in Hrun.
  - now injection Hrun as <-.
  - destruct (step e s0) as [s1|] eqn:E; [|discriminate].
    eapply IH; [exact Hrun|]. eapply handles_fresh_step; eassumption.
Qed.










End ScrollFacts.

Section ScrollClaims.
Import Page.



End ScrollClaims.

(** ** Interception over whole event sequences *)
Section InterceptionTraceFacts.
Import Interception InterceptionTrace.
Variable BUILTIN : string.

Lemma first_qualifying_http (l : list (option string)) (u : string) :
  first_qualifying l = Some u -> Js.startsWith u "http" = true.
Proof.
  induction l as [|x l IH]; simpl; [discriminate|].
  destruct (qualifies x) eqn:Q; [|exact IH].
  intros ->. unfold qualifies in Q. now apply andb_true_iff in Q.
Qed.

Lemma find_url_http (ps : PlayerState) (v : option string) (u : string) :
  find_url ps v = Some u -> Js.startsWith u "http" = true.
Proof.
  unfold find_url.
  destruct (first_qualifying (possibleUrls ps)) as [u'|] eqn:F.
  - intros [= <-]. now apply (first_qualifying_http _ _ F).
  - destruct v as [src|]; [|discriminate].
    destruct (Js.truthy (Some src) && Js.startsWith src "http") eqn:E; [|discriminate].
    intros [= <-]. now apply andb_true_iff in E.
Qed.

(** What one continuation adds to the launch requests: nothing, or one
    well-formed request sent by an invocation that was polling and now waits
    for the cooldown. *)
Lemma resume_launches (s : session) (w : world) :
  s_externalPlayer s = "vlc" \/ s_externalPlayer s = "mpchc" ->
  let r := resume s w in
  (forall s', fst r = Some s' -> s_externalPlayer s' = s_externalPlayer s) /\
  ((launches (effects (snd r)) = launches (effects w) /\
    (forall s', fst r = Some s' -> polling s' = true -> polling s = true)) \/
   (exists q, launches (effects (snd r)) = (launches (effects w) ++ [q])%list /\
              well_formed q /\ polling s = true /\
              exists s', fst r = Some s' /\ polling s' = false)).
Proof.
  intros Hp r. subst r.
  assert (Hae : forall ps,
             let r := after_evals s ps w in
             (forall s', fst r = Some s' -> s_externalPlayer s' = s_externalPlayer s) /\
             ((launches (effects (snd r)) = launches (effects w) /\
               (forall s', fst r = Some s' -> polling s' = true -> True)) \/
              (exists q, launches (effects (snd r)) = (launches (effects w) ++ [q])%list /\
                         well_formed q /\
                         exists s', fst r = Some s' /\ polling s' = false))).
  { intros ps. unfold after_evals.
    destruct ps as [st|].
    - destruct (find_url st (video_src (s_host s (s_attempt s)))) as [u|] eqn:F.
      + cbn [fst snd]. split; [intros s' [= <-]; reflexivity|].
        right. eexists. split.
        * simpl. rewrite !launches_app. simpl. rewrite !app_nil_r. reflexivity.
        * split.
          -- split; [exact Hp|]. split; [exact (find_url_http _ _ _ F)|].
             simpl. destruct (EXTERNAL_PLAYER_PATH (storage w)) as [[|c p]|]; discriminate.
          -- eexists. split; reflexivity.
      + cbn [fst snd]. split; [intros s' [= <-]; reflexivity|].
        left. split; [|trivial]. simpl. rewrite launches_app. simpl. now rewrite app_nil_r.
    - cbn [fst snd]. split; [intros s' [= <-]; reflexivity|].
      left. split; [|trivial]. simpl. rewrite launches_app. simpl. now rewrite app_nil_r. }
  unfold resume. destruct (s_at s) eqn:At.
  - destruct (eval1 (s_host s (s_attempt s))) as [|[st|]].
    + cbn [fst snd]. split; [intros s' [= <-]; reflexivity|]. left.
      split; [|intros; unfold polling; now rewrite At].
      simpl. rewrite launches_app. simpl. now rewrite app_nil_r.
    + destruct (Hae (Some st)) as [H1 [[H2 _] | (q & H2 & H3 & H4)]].
      * split; [exact H1|]. left. split; [exact H2|].
        intros; unfold polling; now rewrite At.
      * split; [exact H1|]. right. exists q. repeat split; try assumption; try apply H3.
        unfold polling; now rewrite At.
    + cbn [fst snd]. split; [intros s' [= <-]; reflexivity|]. left.
      split; [reflexivity|]. intros; unfold polling; now rewrite At.
  - destruct (eval2 (s_host s (s_attempt s))) as [|ps].
    + cbn [fst snd]. split; [intros s' [= <-]; reflexivity|]. left.
      split; [|intros; unfold polling; now rewrite At].
      simpl. rewrite launches_app. simpl. now rewrite app_nil_r.
    + destruct (Hae ps) as [H1 [[H2 _] | (q & H2 & H3 & H4)]].
      * split; [exact H1|]. left. split; [exact H2|].
        intros; unfold polling; now rewrite At.
      * split; [exact H1|]. right. exists q. repeat split; try assumption; try apply H3.
        unfold polling; now rewrite At.
  - destruct (S (s_attempt s) <? MAX_ATTEMPTS)%nat; cbn [fst snd].
    + split; [intros s' [= <-]; reflexivity|]. left.
      split; [reflexivity|]. intros; unfold polling; now rewrite At.
    + split; [discriminate|]. left. split; [reflexivity | discriminate].
  - cbn [fst snd]. split; [discriminate|]. left. split; [|discriminate].
    simpl. rewrite !launches_app. simpl. now rewrite !app_nil_r.
Qed.

Lemma trace_inv_step (e : event) (m : machine) (n : nat) :
  single_session m ->
  Forall (fun s => s_externalPlayer s = "vlc" \/ s_externalPlayer s = "mpchc") (m_sessions m) ->
  Forall well_formed (launches (effects (m_world m))) ->
  (List.length (launches (effects (m_world m))) + pollers (m_sessions m) <= n)%nat ->
  let m' := step BUILTIN e m in
  Forall (fun s => s_externalPlayer s = "vlc" \/ s_externalPlayer s = "mpchc") (m_sessions m') /\
  Forall well_formed (launches (effects (m_world m'))) /\
  (List.length (launches (effects (m_world m'))) + pollers (m_sessions m')
   <= n + invocations [e])%nat.
Proof.
  intros Hs Hp Hw Hn m'. subst m'. unfold pollers in *.
  destruct e as [host | i | b | ls].
  - (* Invoke *)
    cbn [step invocations].
    destruct (isHandlingExternalPlayer (m_world m)) eqn:Hb.
    + unfold start. rewrite Hb. cbn. repeat split; try assumption. lia.
    + destruct Hs as [Hnil | [_ Habs]]; [|congruence].
      unfold start. rewrite Hb.
      destruct (uses_internal_player BUILTIN (EXTERNAL_PLAYER (storage (m_world m)))).
      { cbn. repeat split; try assumption. lia. }
      destruct (EXTERNAL_PLAYER (storage (m_world m))) as [p|].
      2:{ cbn. repeat split; try assumption. lia. }
      destruct (String.eqb p "vlc") eqn:E1; [apply String.eqb_eq in E1|];
        [| destruct (String.eqb p "mpchc") eqn:E2; [apply String.eqb_eq in E2|]].
      * cbn. rewrite Hnil. cbn. rewrite launches_app. cbn. rewrite app_nil_r.
        repeat split; try assumption.
        -- constructor; [now left | constructor].
        -- rewrite Hnil in Hn. cbn in Hn. lia.
      * cbn. rewrite Hnil. cbn. rewrite launches_app. cbn. rewrite app_nil_r.
        repeat split; try assumption.
        -- constructor; [now right | constructor].
        -- rewrite Hnil in Hn. cbn in Hn. lia.
      * cbn. repeat split; try assumption. lia.
  - (* Continue *)
    cbn [step invocations].
    destruct (nth_error (m_sessions m) i) as [s|] eqn:Hnth.
    2:{ repeat split; try assumption. lia. }
    destruct Hs as [Hnil | [[s0 Hs0] Hb]].
    { rewrite Hnil in Hnth. now destruct i. }
    rewrite Hs0 in Hnth, Hp, Hn |- *.
    destruct i as [|i]; [|now destruct i].
    cbn in Hnth. injection Hnth as ->.
    apply Forall_inv in Hp.
    destruct (resume_launches s (m_world m) Hp) as [Hk Hl].
    destruct (resume s (m_world m)) as [r w'] eqn:R. cbn [fst snd] in Hk, Hl.
    cbn [m_world m_sessions replace_or_drop].
    destruct Hl as [[Hl Hpoll] | (q & Hl & Hq & Hps & s' & Hr & Hps')].
    + rewrite Hl. split; [|split; [exact Hw|]].
      * destruct r as [s'|]; [|constructor].
        constructor; [|constructor]. rewrite (Hk s' eq_refl). exact Hp.
      * unfold pollers in *. cbn in Hn |- *.
        destruct r as [s'|]; cbn.
        -- destruct (polling s') eqn:P'.
           ++ rewrite (Hpoll s' eq_refl P') in Hn. cbn in Hn |- *. lia.
           ++ destruct (polling s); cbn in Hn |- *; lia.
        -- destruct (polling s); cbn in Hn; lia.
    + rewrite Hl. subst r. split; [|split].
      * constructor; [|constructor]. rewrite (Hk s' eq_refl). exact Hp.
      * apply Forall_app. split; [exact Hw | constructor; [exact Hq | constructor]].
      * unfold pollers in *. cbn in Hn |- *. rewrite Hps in Hn. rewrite Hps'.
        rewrite length_app. cbn in Hn |- *. lia.
  - (* Click *)
    cbn [step invocations m_world m_sessions].
    assert (E : effects (handlePlayButtonClick BUILTIN b (m_world m)) = effects (m_world m)).
    { unfold handlePlayButtonClick.
      destruct (uses_internal_player _ _); [reflexivity|]. now destruct b. }
    rewrite E. repeat split; try assumption. lia.
  - (* SetSetting *)
    cbn [step invocations m_world m_sessions set_storage effects].
    repeat split; try assumption. lia.
Qed.

Lemma invocations_app (a b : list event) :
  invocations (a ++ b) = (invocations a + invocations b)%nat.
Proof.
  induction a as [|e a IH]; [reflexivity|].
  destruct e; cbn; rewrite IH; reflexivity.
Qed.

Lemma trace_inv_steps (es : list event) :
  forall (m : machine) (n : nat),
    single_session m ->
    Forall (fun s => s_externalPlayer s = "vlc" \/ s_externalPlayer s = "mpchc") (m_sessions m) ->
    Forall well_formed (launches (effects (m_world m))) ->
    (List.length (launches (effects (m_world m))) + pollers (m_sessions m) <= n)%nat ->
    let m' := steps BUILTIN es m in
    Forall well_formed (launches (effects (m_world m'))) /\
    (List.length (launches (effects (m_world m'))) <= n + invocations es)%nat.
Proof.
  induction es as [|e es IH]; intros m n Hs Hp Hw Hn.
  - cbn. split; [exact Hw | lia].
  - destruct (trace_inv_step e m n Hs Hp Hw Hn) as (Hp' & Hw' & Hn').
    destruct (IH (step BUILTIN e m) (n + invocations [e])%nat
                 (single_session_step BUILTIN e m Hs) Hp' Hw' Hn') as [A B].
    change (steps BUILTIN (e :: es) m) with (steps BUILTIN es (step BUILTIN e m)).
    cbv zeta. split; [exact A|].
    change (e :: es) with ([e] ++ es)%list. rewrite invocations_app. lia.
Qed.

(** Once the flag is set with no invocation suspended, no event clears it:
    the flag and the marker stay set, no invocation starts and nothing is
    sent. *)
Lemma orphan_flag_steps (es : list event) :
  forall m : machine,
    m_sessions m = [] ->
    isHandlingExternalPlayer (m_world m) = true ->
    marker (m_world m) = true ->
    let m' := steps BUILTIN es m in
    m_sessions m' = [] /\
    isHandlingExternalPlayer (m_world m') = true /\
    marker (m_world m') = true /\
    effects (m_world m') = effects (m_world m).
Proof.
  induction es as [|e es IH]; intros m Hs Hb Hm; cbn; [now repeat split|].
  assert (H : m_sessions (step BUILTIN e m) = [] /\
              isHandlingExternalPlayer (m_world (step BUILTIN e m)) = true /\
              marker (m_world (step BUILTIN e m)) = true /\
              effects (m_world (step BUILTIN e m)) = effects (m_world m)).
  { destruct e as [host | i | b | ls]; cbn.
    - unfold start. rewrite Hb. cbn. now repeat split.
    - rewrite Hs. destruct i; cbn; now repeat split.
    - unfold handlePlayButtonClick.
      destruct (uses_internal_player _ _); [now repeat split|].
      destruct b; cbn; now repeat split.
    - now repeat split. }
  destruct H as (H1 & H2 & H3 & H4).
  destruct (IH (step BUILTIN e m) H1 H2 H3) as (K1 & K2 & K3 & K4).
  unfold steps in *. repeat split; try assumption. congruence.
Qed.

End InterceptionTraceFacts.

Section InterceptionTraceProperties.
Import Interception InterceptionTrace.

(** X1: however calls of the entry point, their continuations, play-button
    clicks and settings changes interleave from page load on, every launch
    request ever sent names the player "vlc" or "mpchc", carries an address
    that starts with "http" and a custom path that is absent or non-empty;
    and no more launch requests are sent than the entry point was called. *)
Theorem launches_are_well_formed_and_bounded :
  forall (BUILTIN : string) (ls : LocalStorage) (es : list event),
    let w := m_world (steps BUILTIN es (initial ls)) in
    Forall well_formed (launches (effects w)) /\
    (List.length (launches (effects w)) <= invocations es)%nat.
Proof.
  intros BUILTIN ls es w. subst w.
  destruct (trace_inv_steps BUILTIN es (initial ls) 0%nat) as [A B].
  - now left.
  - constructor.
  - constructor.
  - cbn. lia.
  - split; [exact A | exact B].
Qed.

(** X2: a captured click on a play button while an external player ("vlc"
    or "mpchc") is configured and no call is in progress sets the busy flag
    and the marker class for good: whatever happens afterwards, every later
    call of the entry point is skipped, the flag and the marker stay set and
    nothing more is sent. *)
Theorem play_button_click_disables_interception :
  forall (BUILTIN : string) (m : machine) (p : string) (es : list event),
    m_sessions m = [] ->
    EXTERNAL_PLAYER (storage (m_world m)) = Some p ->
    p = "vlc" \/ p = "mpchc" -> p <> BUILTIN ->
    let m' := steps BUILTIN (Click true :: es) m in
    m_sessions m' = [] /\
    isHandlingExternalPlayer (m_world m') = true /\
    marker (m_world m') = true /\
    effects (m_world m') = effects (m_world m).
Proof.
  intros BUILTIN m p es Hs Hp Hv Hn m'. subst m'.
  change (steps BUILTIN (Click true :: es) m)
    with (steps BUILTIN es (step BUILTIN (Click true) m)).
  assert (Hc : handlePlayButtonClick BUILTIN true (m_world m)
               = set_marker true (set_busy true (m_world m))).
  { unfold handlePlayButtonClick. rewrite Hp.
    rewrite uses_internal_player_false; try assumption;
      try (destruct Hv as [-> | ->]; discriminate).
    reflexivity. }
  destruct (orphan_flag_steps BUILTIN es (step BUILTIN (Click true) m))
    as (K1 & K2 & K3 & K4).
  - exact Hs.
  - cbn. now rewrite Hc.
  - cbn. now rewrite Hc.
  - repeat split; try assumption. rewrite K4. cbn. now rewrite Hc.
Qed.

(** X2 on a fresh page set to VLC: after the click, a call whose host would
    show the address on the third attempt sends nothing. *)
Lemma play_button_click_disables_interception_witness :
  let m' := steps "internal"
                  [Click true; Invoke third_attempt_host; Continue 0; Continue 0]
                  (initial vlc_settings) in
  m_sessions m' = [] /\ isHandlingExternalPlayer (m_world m') = true /\
  marker (m_world m') = true /\ effects (m_world m') = [].
Proof.
  apply (play_button_click_disables_interception "internal" (initial vlc_settings) "vlc"
           [Invoke third_attempt_host; Continue 0%nat; Continue 0%nat]).
  - reflexivity.
  - reflexivity.
  - now left.
  - discriminate.
Defined.

End InterceptionTraceProperties.

(** ** Quick resume: the route built on resume against the route parsed on
       save *)
Section RouteRoundTrip.
Import JsObject QuickResume.

Lemma string_app_nil_r (s : string) : s ++ "" = s.
Proof. induction s as [|c s IH]; simpl; [reflexivity | now rewrite IH]. Qed.

(** The run [[^/]*] matches has no slash in it: matching it again takes all
    of it. *)
Lemma span_not_slash_idem (s a b : string) :
  Route.span_not_slash s = (a, b) -> Route.span_not_slash a = (a, "").
Proof.
  revert a b. induction s as [|c s IH]; intros a b; simpl.
  - intros [= <- <-]. reflexivity.
  - destruct (Ascii.eqb c "/") eqn:E.
    + intros [= <- <-]. reflexivity.
    + destruct (Route.span_not_slash s) as [a' b'] eqn:S.
      intros [= <- <-]. simpl. rewrite E. now rewrite (IH a' b' eq_refl).
Qed.

Lemma span_not_slash_app (a r : string) :
  Route.span_not_slash a = (a, "") ->
  Route.span_not_slash (a ++ String "/" r) = (a, String "/" r).
Proof.
  induction a as [|c a IH]; simpl; [reflexivity|].
  destruct (Ascii.eqb c "/") eqn:E; [discriminate|].
  destruct (Route.span_not_slash a) as [a' b'] eqn:S.
  intros [= -> ->]. now rewrite (IH eq_refl).
Qed.

Lemma player_at_groups (s v h : string) (oe : option string) :
  Route.player_at s = Some (v, h, oe) ->
  Route.span_not_slash v = (v, "") /\ Route.span_not_slash h = (h, "") /\
  Route.nonempty v = true /\ Route.nonempty h = true.
Proof.
  unfold Route.player_at.
  destruct (Route.strip_prefix "#/player/" s) as [r1|]; [|discriminate].
  destruct (Route.span_not_slash r1) as [v' r2] eqn:S1.
  destruct r2 as [|c r3]; [discriminate|].
  destruct (Route.span_not_slash r3) as [h' r4] eqn:S2.
  destruct (Route.nonempty v' && Route.nonempty h') eqn:N; [|discriminate].
  intros [= <- <- _]. apply andb_true_iff in N.
  split; [exact (span_not_slash_idem _ _ _ S1)|].
  split; [exact (span_not_slash_idem _ _ _ S2)|]. exact N.
Qed.

Lemma match_player_groups (s v h : string) (oe : option string) :
  Route.match_player s = Some (v, h, oe) ->
  Route.span_not_slash v = (v, "") /\ Route.span_not_slash h = (h, "") /\
  Route.nonempty v = true /\ Route.nonempty h = true.
Proof.
  induction s as [|c s IH]; unfold Route.match_player; fold Route.match_player.
  - destruct (Route.player_at "") as [r|] eqn:E; [|discriminate].
    intros [= ->]. exact (player_at_groups _ _ _ _ E).
  - destruct (Route.player_at (String c s)) as [r|] eqn:E; [|exact IH].
    intros [= ->]. exact (player_at_groups _ _ _ _ E).
Qed.

Lemma player_at_built (v h tail : string) :
  Route.span_not_slash v = (v, "") -> Route.span_not_slash h = (h, "") ->
  Route.nonempty v = true -> Route.nonempty h = true ->
  tail = "" \/ (exists x, tail = String "/" x) ->
  exists ep, Route.player_at ("#/player/" ++ v ++ "/" ++ h ++ tail) = Some (v, h, ep).
Proof.
  intros Hv Hh Nv Nh Ht. unfold Route.player_at.
  change (Route.strip_prefix "#/player/" ("#/player/" ++ v ++ "/" ++ h ++ tail))
    with (Some (v ++ "/" ++ h ++ tail)).
  change (v ++ "/" ++ h ++ tail) with (v ++ String "/" (h ++ tail)).
  cbv beta iota. rewrite (span_not_slash_app v (h ++ tail) Hv).
  destruct Ht as [-> | [x ->]].
  - rewrite string_app_nil_r, Hh, Nv, Nh. simpl. eexists. reflexivity.
  - rewrite (span_not_slash_app h x Hh), Nv, Nh. simpl. eexists. reflexivity.
Qed.

Lemma match_player_head (s : string) (r : string * string * option string) :
  Route.player_at s = Some r -> Route.match_player s = Some r.
Proof.
  intros H. destruct s; unfold Route.match_player; fold Route.match_player; now rewrite H.
Qed.

Lemma player_url_shape (i : SavedStreamInfo) :
  exists tail,
    player_url i = "#/player/" ++ videoId i ++ "/" ++ streamHash i ++ tail /\
    (tail = "" \/ exists x, tail = String "/" x).
Proof.
  unfold player_url.
  destruct (season i) as [s|], (episode i) as [e|];
    try (exists ""; rewrite string_app_nil_r; split; [reflexivity | now left]).
  destruct (String.eqb (type i) "series" && Js.truthy_num (Some s) && Js.truthy_num (Some e)).
  - exists ("/" ++ Js.number_to_string s ++ ":" ++ Js.number_to_string e). split.
    + simpl. do 9 f_equal. now rewrite !string_app_assoc.
    + right. eexists. reflexivity.
  - exists "". rewrite string_app_nil_r. split; [reflexivity | now left].
Qed.

(** What a save that gets as far as writing has worked out. *)
Lemma prepare_inv env k c t i :
  prepare env = Some (k, c, t, i) ->
  contentId i = c /\ type i = t /\ timestamp i = sv_now env /\ c <> "" /\
  (t = "series" \/ k = c) /\
  exists oe, Route.match_player (sv_hash env) = Some (videoId i, streamHash i, oe).
Proof.
  unfold prepare.
  destruct (sv_eval env) as [|[st|]]; try discriminate.
  destruct (content_id st) as [[|a c0]|]; try discriminate.
  destruct (Route.match_player (sv_hash env)) as [[[vid hash] oe]|]; [|discriminate].
  intros [= <- <- <- <-]. simpl.
  repeat split; try discriminate.
  - destruct oe as [ep|]; [|now right].
    destruct (String.eqb_spec (Js.or_else (content_type st) "movie") "series") as [E|E];
      [now left | now right].
  - now exists oe.
Qed.

(** With a clock that has moved on since the stored records were written,
    whatever is saved is found under the bare content id, unless that is
    ["__proto__"]. *)
Lemma saved_under_content_id env k c t i o :
  prepare env = Some (k, c, t, i) ->
  NoDup (keys o) -> c <> "__proto__" ->
  (forall k' i', get k' o = Some i' -> timestamp i' < timestamp i) ->
  get c (write k c t i o) = Some i.
Proof.
  intros Hp Hnd Hcp Hclock.
  pose proof (prepare_key_not_proto _ _ _ _ _ Hp Hcp) as Hkp.
  destruct (prepare_inv _ _ _ _ _ Hp) as (_ & _ & _ & _ & [-> | ->] & _).
  - now apply series_written_twice.
  - destruct (string_dec t "series") as [-> | Ht].
    + now apply series_written_twice.
    + now apply other_written_once.
Qed.

End RouteRoundTrip.

Section QuickResumeProperties.
Import JsObject QuickResume.

(** X3: the route a resume navigates to is read by the save routine's own
    pattern as the video id and the stream hash of the saved record, which
    are those of the route the record was saved on. *)
Theorem resumed_route_parses_back :
  forall env k c t i,
    prepare env = Some (k, c, t, i) ->
    (exists oe, Route.match_player (sv_hash env) = Some (videoId i, streamHash i, oe)) /\
    (exists ep, Route.match_player (player_url i) = Some (videoId i, streamHash i, ep)).
Proof.
  intros env k c t i Hp.
  destruct (prepare_inv _ _ _ _ _ Hp) as (_ & _ & _ & _ & _ & oe & Hm).
  split; [now exists oe|].
  destruct (match_player_groups _ _ _ _ Hm) as (Hv & Hh & Nv & Nh).
  destruct (player_url_shape i) as (tail & -> & Ht).
  destruct (player_at_built _ _ tail Hv Hh Nv Nh Ht) as [ep Hep].
  exists ep. now apply match_player_head.
Qed.

(** X3 at the save of the example: an episode of a series. *)
Lemma resumed_route_parses_back_witness :
  exists i ep,
    prepare series_env = Some ("tt1:ep2", "tt1", "series", i) /\
    player_url i = "#/player/vid1/hashA/1:2" /\
    Route.match_player (player_url i) = Some ("vid1", "hashA", ep).
Proof.
  eexists. 
  destruct (resumed_route_parses_back series_env "tt1:ep2" "tt1" "series" _ eq_refl)
    as [_ [ep Hep]].
  exists ep. split; [reflexivity|]. split; [reflexivity | exact Hep].
Defined.

(** X4: after a save that gets as far as writing, for a content id other
    than "__proto__" and over a readable map whose records are older than
    the save, the lookup of the content id returns the saved record, and a
    click on the card of the same content in the continue-watching row
    navigates to the route built from it as long as the save is at most
    thirty days old, and is left to the page's own handling once it is
    older. *)
Theorem saved_stream_is_resumed_for_thirty_days :
  forall env ls k c t i now e m href tp,
    prepare env = Some (k, c, t, i) ->
    c <> "__proto__" ->
    ls <> Malformed -> NoDup (keys (entries_of ls)) ->
    (forall k' i', stored ls k' = Some i' -> timestamp i' < sv_now env) ->
    target e = true ->
    closest_meta_item e = Some m ->
    Js.includes (rowTitle m) "continue" = true \/ Js.includes (rowTitle m) "watching" = true ->
    anchor_href m = Some href ->
    Route.match_detail href = Some (tp, c) ->
    let ls' := saveCurrentStreamInfo env ls in
    getSavedStreamInfo ls' c = Some (Own i) /\
    (now - sv_now env <= THIRTY_DAYS_MS ->
     handleContinueWatchingClick ls' now e = Navigate (player_url i)) /\
    (THIRTY_DAYS_MS < now - sv_now env ->
     handleContinueWatchingClick ls' now e = NormalFlow).
Proof.
  intros env ls k c t i now e m href tp Hp Hcp Hm Hnd Hclock Ht Hc Hrow Ha Hd ls'.
  destruct (prepare_inv _ _ _ _ _ Hp) as (_ & _ & Hts & _).
  assert (Hg : getSavedStreamInfo ls' c = Some (Own i)).
  { apply getSaved_stored. subst ls'. rewrite (save_entries _ _ _ _ _ _ Hp Hm).
    unfold stored. simpl.
    apply (saved_under_content_id env); try assumption.
    intros k' i' H. rewrite Hts. now apply (Hclock k'). }
  split; [exact Hg|].
  unfold handleContinueWatchingClick. rewrite Ht, Hc. cbn [negb].
  replace (negb (Js.includes (rowTitle m) "continue")
           && negb (Js.includes (rowTitle m) "watching")) with false
    by (destruct Hrow as [-> | ->]; [reflexivity | now rewrite andb_false_r]).
  rewrite Ha, Hd, Hg. unfold resume_saved. rewrite Hts. split; intros H.
  - apply Z.ltb_ge in H. now rewrite H.
  - apply Z.ltb_lt in H. now rewrite H.
Qed.

(** X4 at the save of the example, clicked a day later and thirty-one days
    later. *)
Lemma saved_stream_is_resumed_for_thirty_days_witness :
  let ls' := saveCurrentStreamInfo series_env Missing in
  handleContinueWatchingClick ls' (sv_now series_env + 24 * 60 * 60 * 1000)
                              (continue_click "tt1")
  = Navigate "#/player/vid1/hashA/1:2" /\
  handleContinueWatchingClick ls' (sv_now series_env + 31 * 24 * 60 * 60 * 1000)
                              (continue_click "tt1")
  = NormalFlow.
Proof.
  split.
  - refine (proj1 (proj2
      (saved_stream_is_resumed_for_thirty_days series_env Missing
         "tt1:ep2" "tt1" "series" _ (sv_now series_env + 24 * 60 * 60 * 1000)
         (continue_click "tt1") _ _ "series"
         eq_refl _ _ _ _ eq_refl eq_refl _ eq_refl eq_refl)) _).
    + discriminate.
    + discriminate.
    + constructor.
    + intros k' i'. discriminate.
    + now left.
    + vm_compute. discriminate.
  - refine (proj2 (proj2
      (saved_stream_is_resumed_for_thirty_days series_env Missing
         "tt1:ep2" "tt1" "series" _ (sv_now series_env + 31 * 24 * 60 * 60 * 1000)
         (continue_click "tt1") _ _ "series"
         eq_refl _ _ _ _ eq_refl eq_refl _ eq_refl eq_refl)) _).
    + discriminate.
    + discriminate.
    + constructor.
    + intros k' i'. discriminate.
    + now left.
    + vm_compute. reflexivity.
Defined.

End QuickResumeProperties.

(** ** Quick resume: the map is a plain object *)
Section PrototypeProperties.
Import JsObject QuickResume.

Lemma write_proto k c t i o :
  NoDup (keys o) -> get "__proto__" o = None -> get "__proto__" (write k c t i o) = None.
Proof.
  intros Hnd H. rewrite write_trim.
  destruct (get "__proto__" (trim (written k c t i o))) as [x|] eqn:E; [|reflexivity].
  apply trim_get in E; [|now apply written_NoDup].
  rewrite <- E. unfold written. destruct (String.eqb t "series").
  - apply get_set_proto; [now apply set_NoDup | now apply get_set_proto].
  - now apply get_set_proto.
Qed.

Lemma save_proto env ls :
  NoDup (keys (entries_of ls)) -> stored ls "__proto__" = None ->
  stored (saveCurrentStreamInfo env ls) "__proto__" = None.
Proof.
  intros Hnd H. unfold saveCurrentStreamInfo.
  destruct (prepare env) as [[[[k c] t] i]|]; [|exact H].
  destruct ls as [| |o]; [|exact H|].
  - unfold stored. simpl. apply write_proto; [constructor | reflexivity].
  - unfold stored. simpl. now apply write_proto.
Qed.

Lemma save_all_proto envs :
  forall ls, NoDup (keys (entries_of ls)) -> stored ls "__proto__" = None ->
             stored (save_all envs ls) "__proto__" = None.
Proof.
  induction envs as [|env envs IH]; intros ls Hnd H; simpl; [exact H|].
  apply IH; [|now apply save_proto].
  unfold saveCurrentStreamInfo. destruct (prepare env) as [[[[k c] t] i]|]; [|exact Hnd].
  destruct ls as [| |o]; simpl; [|exact Hnd|].
  - apply write_NoDup. constructor.
  - now apply write_NoDup.
Qed.

(** X21: the saved streams are kept in a plain object, which inherits the
    members of Object.prototype.  No save ever leaves a record under the key
    "__proto__": a record saved for that content id is lost.  And for a card
    of the continue-watching row whose content id is the name of such a
    member and has no record of its own in a readable map, the lookup returns
    the member, which the click handler takes for a saved stream of any age:
    it prevents the page's own handling and navigates to the route
    "#/player/undefined/undefined". *)
Theorem prototype_member_is_taken_for_a_saved_stream :
  (forall env ls,
      NoDup (keys (entries_of ls)) -> stored ls "__proto__" = None ->
      stored (saveCurrentStreamInfo env ls) "__proto__" = None) /\
  (forall envs, stored (save_all envs Missing) "__proto__" = None) /\
  (forall ls now e m href tp c,
      ls <> Malformed -> stored ls c = None -> inherited c = true ->
      target e = true ->
      closest_meta_item e = Some m ->
      Js.includes (rowTitle m) "continue" = true \/ Js.includes (rowTitle m) "watching" = true ->
      anchor_href m = Some href ->
      Route.match_detail href = Some (tp, c) ->
      getSavedStreamInfo ls c = Some Inherited /\
      handleContinueWatchingClick ls now e = Navigate "#/player/undefined/undefined").
Proof.
  split; [exact save_proto|]. split.
  - intros envs. apply save_all_proto; [constructor | reflexivity].
  - intros ls now e m href tp c Hm Hs Hi Ht Hc Hrow Ha Hd.
    assert (Hg : getSavedStreamInfo ls c = Some Inherited).
    { rewrite getSaved_entries by exact Hm. now apply lookup_inherited. }
    split; [exact Hg|].
    unfold handleContinueWatchingClick. rewrite Ht, Hc. cbn [negb].
    replace (negb (Js.includes (rowTitle m) "continue")
             && negb (Js.includes (rowTitle m) "watching")) with false
      by (destruct Hrow as [-> | ->]; [reflexivity | now rewrite andb_false_r]).
    now rewrite Ha, Hd, Hg.
Qed.

(** X21 after the save of a film whose content id is "__proto__": nothing is
    stored, and a click on its card a minute later leaves for the route of
    two "undefined". *)
Lemma prototype_member_is_taken_for_a_saved_stream_witness :
  stored (saveCurrentStreamInfo proto_env Missing) "__proto__" = None /\
  handleContinueWatchingClick (saveCurrentStreamInfo proto_env Missing)
                              (sv_now proto_env + 60000) (continue_click "__proto__")
  = Navigate "#/player/undefined/undefined".
Proof.
  destruct prototype_member_is_taken_for_a_saved_stream as (Hsave & _ & Hclick).
  split.
  - apply Hsave; [constructor | reflexivity].
  - refine (proj2 (Hclick (saveCurrentStreamInfo proto_env Missing)
                          (sv_now proto_env + 60000) (continue_click "__proto__")
                          _ _ "series" "__proto__" _ _ eq_refl eq_refl eq_refl _
                          eq_refl eq_refl)).
    + discriminate.
    + reflexivity.
    + now left.
Defined.

End PrototypeProperties.

(** ** The page: the life of the observer *)
Section LifecycleFacts.
Import Page PageLifecycle.

Lemma lifecycle_frame_callback (cb : frame_callback) (s : state) :
  lifecycle_inv s -> lifecycle_inv (run_frame_callback cb s).
Proof.
  intros [I1 I2]. destruct cb as [b|]; simpl.
  - split; [exact I1 | exact I2].
  - unfold scroll_check. destruct (_ <=? _); [|split; [exact I1 | exact I2]].
    split; simpl.
    + rewrite I1. destruct (unifiedObserver (co s)); split; intros H; congruence.
    + destruct (unifiedObserver (co s)); discriminate.
Qed.

Lemma lifecycle_fold (q : list (positive * frame_callback)) :
  forall s, lifecycle_inv s ->
            lifecycle_inv (fold_left (fun s c => run_frame_callback (snd c) s) q s).
Proof.
  induction q as [|[h cb] q IH]; intros s Inv; simpl; [exact Inv|].
  apply IH. now apply lifecycle_frame_callback.
Qed.

Lemma map_delete_nonempty (k : string) (m : list (string * ObserverHandler)) :
  map_delete k m <> [] -> m <> [].
Proof. destruct m; [simpl; congruence | discriminate]. Qed.

Lemma map_set_nonempty (k : string) (v : ObserverHandler) (m : list (string * ObserverHandler)) :
  map_set k v m <> [].
Proof. destruct m as [|[k' v'] m]; simpl; [|destruct (String.eqb k k')]; discriminate. Qed.

Lemma lifecycle_step (e : event) (s s' : state) :
  step e s = Some s' -> lifecycle_inv s -> lifecycle_inv s'.
Proof.
  intros Hstep [I1 I2].
  destruct e as [i | i | i a | m | | h | | d]; cbn [step] in Hstep.
  - (* Register *)
    injection Hstep as <-. unfold lifecycle_inv, registerObserverHandler, initUnifiedObserver.
    destruct (unifiedObserver (co s)) as [b|] eqn:O; simpl; rewrite ?O.
    + split; [|exact I2]. split; [|discriminate].
      intros H. now apply map_set_nonempty in H.
    + split; [|discriminate]. split; [|discriminate].
      intros H. now apply map_set_nonempty in H.
  - (* Unregister *)
    injection Hstep as <-. unfold lifecycle_inv, unregisterObserverHandler. simpl.
    destruct (map_delete i (observerHandlers (co s))) as [|x l] eqn:D.
    + destruct (unifiedObserver (co s)) as [b|] eqn:O; simpl; rewrite ?D, ?O.
      * split; [now split | discriminate].
      * split; [now split | discriminate].
    + simpl. split; [|exact I2]. split; [discriminate|].
      intros H. apply I1 in H. rewrite H in D. discriminate.
  - (* SetActive *)
    injection Hstep as <-. unfold lifecycle_inv. simpl. split; [|exact I2].
    rewrite <- I1. destruct (observerHandlers (co s)); simpl; split; congruence.
  - (* Mutations *)
    destruct (unifiedObserver (co s)) as [[|]|] eqn:O; try discriminate.
    unfold on_mutations in Hstep.
    destruct (requestAnimationFrame _ _) as [h b2]. injection Hstep as <-.
    unfold lifecycle_inv. simpl. rewrite O. split; [exact I1 | discriminate].
  - (* Input *)
    injection Hstep as <-. unfold lifecycle_inv, handleScroll.
    destruct (setTimeout _ _) as [h b2]. simpl. split; [|reflexivity].
    destruct (isScrolling (sc s)); simpl; [exact I1|].
    rewrite I1. destruct (unifiedObserver (co s)); split; congruence.
  - (* Timeout *)
    destruct (due h (br s)); [|discriminate]. injection Hstep as <-.
    unfold lifecycle_inv, on_timeout. simpl. split; [exact I1 | exact I2].
  - (* Frame *)
    injection Hstep as <-. unfold frame. apply lifecycle_fold. split; [exact I1 | exact I2].
  - (* Tick *)
    destruct (0 <=? d); [|discriminate]. injection Hstep as <-.
    split; [exact I1 | exact I2].
Qed.

Lemma lifecycle_run (es : list event) :
  forall s s', run es s = Some s' -> lifecycle_inv s -> lifecycle_inv s'.
Proof.
  induction es as [|e es IH]; intros s s' H Inv; simpl in H.
  - now injection H as <-.
  - destruct (step e s) as [s1|] eqn:E; [|discriminate].
    exact (IH s1 s' H (lifecycle_step e s s1 E Inv)).
Qed.

Lemma lifecycle_initial (t0 : Z) : lifecycle_inv (initial t0).
Proof. split; simpl; [now split | discriminate]. Qed.

Lemma map_delete_fresh (k : string) (m : list (string * ObserverHandler)) :
  ~ In k (map fst m) -> map_delete k m = m.
Proof.
  induction m as [|[k' v'] m IH]; simpl; [reflexivity|].
  intros H. destruct (String.eqb_spec k k') as [->|]; [elim H; now left|].
  f_equal. apply IH. intros H'. apply H. now right.
Qed.

Lemma map_delete_set_fresh (k : string) (v : ObserverHandler)
    (m : list (string * ObserverHandler)) :
  ~ In k (map fst m) -> map_delete k (map_set k v m) = m.
Proof.
  induction m as [|[k' v'] m IH]; simpl.
  - now rewrite String.eqb_refl.
  - intros H. destruct (String.eqb_spec k k') as [->|]; [elim H; now left|].
    simpl. destruct (String.eqb_spec k k'); [contradiction|].
    f_equal. apply IH. intros H'. apply H. now right.
Qed.

Lemma reachable_lifecycle (s : state) : reachable s -> lifecycle_inv s.
Proof.
  intros (t0 & es & H). exact (lifecycle_run es (initial t0) s H (lifecycle_initial t0)).
Qed.

End LifecycleFacts.

Section LifecycleProperties.
Import Page PageLifecycle.

(** X5: in every state the page can reach, an observer exists exactly when
    at least one handler is registered, and the observer is disconnected
    only while the scroll monitor is active: once scrolling has ended it is
    never left paused. *)
Theorem observer_lives_with_handlers_and_pauses_with_scroll :
  forall s : state,
    reachable s ->
    (observerHandlers (co s) = [] <-> unifiedObserver (co s) = None) /\
    (unifiedObserver (co s) = Some false -> isScrolling (sc s) = true).
Proof.
  intros s (t0 & es & H).
  apply (lifecycle_run es (initial t0) s H).
  apply lifecycle_initial.
Qed.

(** X5 on a page that is being scrolled: the observer is there and is
    disconnected. *)
Lemma observer_lives_with_handlers_and_pauses_with_scroll_witness :
  unifiedObserver (co scrolling_page) = Some false /\
  observerHandlers (co scrolling_page) <> [] /\
  isScrolling (sc scrolling_page) = true.
Proof.
  assert (R : reachable scrolling_page).
  { exists 0, [Register "title-bar"; Input]. reflexivity. }
  destruct (observer_lives_with_handlers_and_pauses_with_scroll scrolling_page R) as [A B].
  split; [reflexivity|]. split.
  - intros H. apply A in H. discriminate.
  - apply B. reflexivity.
Defined.

(** X6: in every state the page can reach, registering a handler under a
    name that is not registered and unregistering it again leaves the
    coordinator exactly as it was: the registry, the observer (created and
    discarded again when the registry was empty), the pending dispatch. *)
Theorem register_then_unregister_is_identity :
  forall (s : state) (i : string),
    reachable s ->
    ~ registered i (co s) ->
    unregisterObserverHandler i (registerObserverHandler i (co s)) = co s.
Proof.
  intros s i R Hfresh.
  destruct (reachable_lifecycle s R) as [I1 _].
  unfold registered in Hfresh.
  unfold unregisterObserverHandler, registerObserverHandler, initUnifiedObserver.
  destruct (co s) as [hs o r d p q] eqn:C. simpl in *.
  destruct o as [b|]; simpl; rewrite (map_delete_set_fresh _ _ _ Hfresh).
  - destruct hs as [|x l]; [|reflexivity].
    destruct I1 as [I1 _]. specialize (I1 eq_refl). discriminate.
  - destruct hs as [|x l]; [reflexivity|].
    destruct I1 as [_ I1]. specialize (I1 eq_refl). discriminate.
Qed.

(** X6 on the page with the title-bar and icon handlers, for the handler of
    the external-player menu. *)
Lemma register_then_unregister_is_identity_witness :
  unregisterObserverHandler "external-player-menu"
    (registerObserverHandler "external-player-menu" (co one_active_one_inactive))
  = co one_active_one_inactive.
Proof.
  apply (register_then_unregister_is_identity one_active_one_inactive "external-player-menu").
  - exists 0, [Register "title-bar"; Register "icon-injection";
               SetActive "icon-injection" false]. reflexivity.
  - unfold registered. simpl. intros [H | [H | []]]; discriminate.
Defined.

End LifecycleProperties.

(** ** The event listener cleanup registry *)
Section EventCleanupFacts.
Import EventCleanup.
Context {W : Type}.
Implicit Types (r : registry W) (c : cleanup W).

Lemma get_push_same (context : string) c r (l : list (cleanup W)) :
  get context r = Some l -> get context (push context c r) = Some (l ++ [c])%list.
Proof.
  induction r as [|[k cl] r IH]; simpl; [discriminate|].
  destruct (String.eqb context k) eqn:E; simpl; rewrite E.
  - now intros [= ->].
  - exact IH.
Qed.

Lemma get_push_other (context context' : string) c r :
  context' <> context -> get context' (push context c r) = get context' r.
Proof.
  intros Hne. induction r as [|[k cl] r IH]; simpl; [reflexivity|].
  destruct (String.eqb_spec context k) as [->|]; simpl.
  - apply String.eqb_neq in Hne. now rewrite Hne.
  - now rewrite IH.
Qed.

Lemma get_app_new (context context' : string) r :
  get context r = None ->
  get context' (r ++ [(context, [])])%list = if String.eqb context' context then Some [] else get context' r.
Proof.
  induction r as [|[k cl] r IH]; simpl.
  - intros _. now destruct (String.eqb context' context).
  - destruct (String.eqb_spec context k) as [->|Hne]; [discriminate|].
    intros H. rewrite (IH H).
    destruct (String.eqb_spec context' k) as [->|]; [|reflexivity].
    apply not_eq_sym in Hne. apply String.eqb_neq in Hne. now rewrite Hne.
Qed.

Lemma keys_push (context : string) c r : map fst (push context c r) = map fst r.
Proof.
  induction r as [|[k cl] r IH]; simpl; [reflexivity|].
  destruct (String.eqb context k); simpl; [reflexivity | now rewrite IH].
Qed.

Lemma get_None_keys (context : string) r : get context r = None <-> ~ In context (map fst r).
Proof.
  induction r as [|[k cl] r IH]; simpl.
  - split; [intros _ [] | reflexivity].
  - destruct (String.eqb_spec context k) as [->|Hne].
    + split; [discriminate | intros H; elim H; now left].
    + rewrite IH. split; [intros H [E | E]; [now elim Hne | now elim H] | intros H E; apply H; now right].
Qed.

Lemma register_NoDup (context : string) c r :
  NoDup (map fst r) -> NoDup (map fst (registerEventCleanup context c r)).
Proof.
  intros Hnd. unfold registerEventCleanup. rewrite keys_push.
  destruct (get context r) eqn:G; [exact Hnd|].
  rewrite map_app. simpl. apply NoDup_app; [exact Hnd | repeat constructor; intros [] |].
  intros a Ha [<- | []]. now apply get_None_keys in G.
Qed.

Lemma pending_register (context context' : string) c r :
  pending context' (registerEventCleanup context c r)
  = (pending context' r ++ if String.eqb context' context then [c] else [])%list.
Proof.
  unfold pending, registerEventCleanup.
  destruct (String.eqb_spec context' context) as [->|Hne].
  - destruct (get context r) as [l|] eqn:G.
    + now rewrite (get_push_same _ _ _ _ G).
    + assert (G' : get context (r ++ [(context, [])])%list = Some []).
      { rewrite (get_app_new _ _ _ G). now rewrite String.eqb_refl. }
      now rewrite (get_push_same _ _ _ _ G').
  - rewrite (get_push_other _ _ _ _ Hne), app_nil_r.
    destruct (get context r) as [l|] eqn:G; [reflexivity|].
    rewrite (get_app_new _ _ _ G). apply String.eqb_neq in Hne. now rewrite Hne.
Qed.

Lemma register_all_spec (regs : list (string * cleanup W)) :
  forall r,
    NoDup (map fst r) ->
    NoDup (map fst (register_all regs r)) /\
    forall context,
      pending context (register_all regs r)
      = (pending context r ++ registered_under context regs)%list.
Proof.
  induction regs as [|[k c] regs IH]; intros r Hnd; simpl.
  - split; [exact Hnd|]. intros context. now rewrite app_nil_r.
  - destruct (IH (registerEventCleanup k c r) (register_NoDup k c r Hnd)) as [A B].
    split; [exact A|]. intros context. unfold register_all in B. rewrite B.
    rewrite pending_register. unfold registered_under. simpl.
    rewrite String.eqb_sym.
    destruct (String.eqb k context); simpl; [now rewrite <- app_assoc | now rewrite app_nil_r].
Qed.

Lemma get_delete_same (context : string) r :
  NoDup (map fst r) -> get context (delete context r) = None.
Proof.
  induction r as [|[k cl] r IH]; simpl; [reflexivity|].
  intros Hnd. inversion Hnd as [|? ? Hn Hnd']; subst.
  destruct (String.eqb_spec context k) as [->|Hne].
  - now apply get_None_keys.
  - simpl. apply String.eqb_neq in Hne. rewrite Hne. now apply IH.
Qed.

Lemma get_delete_other (context context' : string) r :
  context' <> context -> get context' (delete context r) = get context' r.
Proof.
  intros Hne. induction r as [|[k cl] r IH]; simpl; [reflexivity|].
  destruct (String.eqb_spec context k) as [->|]; simpl.
  - apply String.eqb_neq in Hne. now rewrite Hne.
  - now rewrite IH.
Qed.

(** Every cleanup is called, whether or not an earlier one threw. *)
Lemma run_all_calls_all (l : list (cleanup W)) :
  forall (w : W) (n : nat),
    fst (fold_left (fun (a : W * nat) (fn : cleanup W) =>
                      let '(w', threw) := fn (fst a) in
                      (w', if threw then S (snd a) else snd a)) l (w, n))
    = fold_left (fun w fn => fst (fn w)) l w.
Proof.
  induction l as [|fn l IH]; intros w n; simpl; [reflexivity|].
  destruct (fn w) as [w' threw]. simpl. apply IH.
Qed.

End EventCleanupFacts.

Section EventCleanupProperties.
Import EventCleanup.

(** X7: after any series of registrations over a registry, running the
    cleanups of a context calls exactly the cleanups waiting under that
    context, those already there and then those newly registered, each once
    and in the order they were registered, a throwing cleanup not stopping
    the later ones; it forgets them, so that running the context once more
    calls nothing; and it leaves the cleanups of every other context
    waiting. *)
Theorem cleanups_run_once_in_registration_order :
  forall (W : Type) (regs : list (string * cleanup W)) (r : registry W)
         (context : string) (w : W),
    NoDup (map fst r) ->
    let called := (pending context r ++ registered_under context regs)%list in
    let r1 := register_all regs r in
    let r2 := fst (fst (runEventCleanups context r1 w)) in
    let w2 := snd (fst (runEventCleanups context r1 w)) in
    runEventCleanups context r1 w = (r2, fst (run_all called w), snd (run_all called w)) /\
    w2 = fold_left (fun w fn => fst (fn w)) called w /\
    pending context r2 = [] /\
    (forall c, c <> context -> pending c r2 = (pending c r ++ registered_under c regs)%list) /\
    runEventCleanups context r2 w2 = (r2, w2, 0%nat).
Proof.
  intros W regs r context w Hnd called r1 r2 w2.
  destruct (register_all_spec regs r Hnd) as [Hnd1 Hp].
  fold r1 in Hnd1, Hp.
  assert (Hrun : runEventCleanups context r1 w
                 = (delete context r1, fst (run_all called w), snd (run_all called w))).
  { unfold runEventCleanups. pose proof (Hp context) as Hc. unfold pending in Hc at 1.
    destruct (get context r1) as [l|] eqn:G.
    - rewrite Hc. fold called. now destruct (run_all called w).
    - fold called in Hc. rewrite <- Hc. simpl.
      assert (D : delete context r1 = r1).
      { clear - G. induction r1 as [|[k cl] r1 IH]; simpl in *; [reflexivity|].
        destruct (String.eqb context k); [discriminate | now rewrite IH]. }
      now rewrite D. }
  assert (Hr2 : r2 = delete context r1) by (subst r2; now rewrite Hrun).
  assert (Hw2 : w2 = fst (run_all called w)) by (subst w2; now rewrite Hrun).
  assert (Hg : get context r2 = None) by (rewrite Hr2; now apply get_delete_same).
  split; [now rewrite Hr2|].
  split; [rewrite Hw2; apply run_all_calls_all|].
  split; [unfold pending; now rewrite Hg|].
  split.
  - intros c Hc. rewrite <- Hp. unfold pending. rewrite Hr2.
    now rewrite (get_delete_other _ _ _ Hc).
  - unfold runEventCleanups. now rewrite Hg.
Qed.

(** X7 at the registrations of the external-player menu: three cleanups of
    the menu and one of another context. *)
Lemma cleanups_run_once_in_registration_order_witness :
  let r1 := register_all menu_registrations [] in
  runEventCleanups "external-player-menu" r1 []
  = ([("other", [removes "other-click"])], ["vlc-click"; "hover"; "native-click"], 1%nat).
Proof.
  pose proof (cleanups_run_once_in_registration_order
                (list string) menu_registrations [] "external-player-menu" []
                (NoDup_nil _)) as H.
  cbv zeta in H. destruct H as [H _]. cbv zeta. rewrite H. reflexivity.
Defined.

End EventCleanupProperties.

(** ** Waiting with backoff *)
Section BackoffFacts.
Import Backoff.
Context {Element : Type}.

Lemma check_found (querySelector : nat -> option Element) (k : nat) :
  forall (a n : nat) (element : Element),
    (k <= n)%nat ->
    querySelector (a + k)%nat = Some element ->
    (forall j, (j < k)%nat -> querySelector (a + j)%nat = None) ->
    check querySelector a n = (Some element, map delay (seq a k)).
Proof.
  induction k as [|k IH]; intros a n element Hk Hq Hnone.
  - rewrite Nat.add_0_r in Hq. destruct n; simpl; now rewrite Hq.
  - destruct n as [|n]; [lia|]. simpl.
    pose proof (Hnone 0%nat ltac:(lia)) as H0. rewrite Nat.add_0_r in H0. rewrite H0.
    rewrite (IH (S a) n element); [reflexivity | lia | |].
    + now replace (S a + k)%nat with (a + S k)%nat by lia.
    + intros j Hj. replace (S a + j)%nat with (a + S j)%nat by lia. apply Hnone. lia.
Qed.

Lemma check_none (querySelector : nat -> option Element) (n : nat) :
  forall a : nat,
    (forall j, (j <= n)%nat -> querySelector (a + j)%nat = None) ->
    check querySelector a n = (None, map delay (seq a n)).
Proof.
  induction n as [|n IH]; intros a Hnone.
  - simpl. pose proof (Hnone 0%nat ltac:(lia)) as H0. rewrite Nat.add_0_r in H0.
    now rewrite H0.
  - simpl. pose proof (Hnone 0%nat ltac:(lia)) as H0. rewrite Nat.add_0_r in H0. rewrite H0.
    rewrite (IH (S a)); [reflexivity|].
    intros j Hj. replace (S a + j)%nat with (a + S j)%nat by lia. apply Hnone. lia.
Qed.

(** Whatever the page shows, the timers set are the first few of the
    schedule, never more than the budget. *)
Lemma check_timers (querySelector : nat -> option Element) (n : nat) :
  forall a : nat,
    exists k, (k <= n)%nat /\ snd (check querySelector a n) = map delay (seq a k).
Proof.
  induction n as [|n IH]; intros a; simpl.
  - exists 0%nat. split; [lia|]. now destruct (querySelector a).
  - destruct (querySelector a).
    + exists 0%nat. split; [lia | reflexivity].
    + destruct (IH (S a)) as (k & Hk & E).
      destruct (check querySelector (S a) n) as [r ds]. simpl in E. subst ds.
      exists (S k). split; [lia | reflexivity].
Qed.

End BackoffFacts.

Section BackoffProperties.
Import Backoff.

Lemma total_app (a b : list Z) : total (a ++ b) = total a + total b.
Proof. induction a as [|x a IH]; simpl; [reflexivity | rewrite IH; lia]. Qed.

Lemma first_delays_S (k : nat) : first_delays (S k) = (first_delays k ++ [delay k])%list.
Proof. unfold first_delays. now rewrite seq_S, map_app. Qed.

Lemma delay_late (k : nat) : (4 <= k)%nat -> delay k = 800.
Proof.
  intros H. unfold delay. simpl List.length.
  replace (Nat.min k (5 - 1)) with 4%nat by lia. reflexivity.
Qed.

Lemma total_first_delays (k : nat) :
  total (first_delays k)
  = if (k <=? 5)%nat then 50 * (2 ^ Z.of_nat k - 1) else 1550 + 800 * (Z.of_nat k - 5).
Proof.
  induction k as [|k IH]; [reflexivity|].
  rewrite first_delays_S, total_app, IH. simpl total.
  destruct k as [|[|[|[|[|[|k]]]]]]; try reflexivity.
  rewrite delay_late by lia.
  replace (S (S (S (S (S (S k))))) <=? 5)%nat with false
    by (symmetry; apply Nat.leb_gt; lia).
  replace (S (S (S (S (S (S (S k)))))) <=? 5)%nat with false
    by (symmetry; apply Nat.leb_gt; lia).
  lia.
Qed.

(** X8: the wait resolves to the element found by the first check that
    finds one, having set one timer per earlier check, with the delays 50,
    100, 200, 400 and then 800 ms each; when no check up to the budget finds
    the element it resolves to null after as many timers as the budget, and
    checks no more, even if the element would appear later; the timers set
    before check k add up to 50 * (2^k - 1) ms for k <= 5 and to
    1550 + 800 * (k - 5) ms beyond; with the default budget of five the wait
    never spends more than 1550 ms in timers. *)
Theorem backoff_finds_first_or_gives_up :
  forall (Element : Type) (querySelector : nat -> option Element) (maxAttempts : Z),
    let n := Z.to_nat maxAttempts in
    (forall k element,
        (k <= n)%nat -> querySelector k = Some element ->
        (forall j, (j < k)%nat -> querySelector j = None) ->
        waitForElementWithBackoff querySelector maxAttempts = (Some element, first_delays k)) /\
    ((forall k, (k <= n)%nat -> querySelector k = None) ->
     waitForElementWithBackoff querySelector maxAttempts = (None, first_delays n)) /\
    (forall k,
        total (first_delays k)
        = if (k <=? 5)%nat then 50 * (2 ^ Z.of_nat k - 1)
          else 1550 + 800 * (Z.of_nat k - 5)) /\
    total (snd (waitForElementWithBackoff querySelector 5)) <= 1550.
Proof.
  intros Element querySelector maxAttempts n.
  split; [|split; [|split]].
  - intros k element Hk Hq Hnone. unfold waitForElementWithBackoff. fold n.
    now apply (check_found querySelector k 0%nat n element).
  - intros Hnone. unfold waitForElementWithBackoff. fold n.
    now apply (check_none querySelector n 0%nat).
  - exact total_first_delays.
  - unfold waitForElementWithBackoff.
    destruct (check_timers querySelector (Z.to_nat 5) 0%nat) as (k & Hk & ->).
    change (map delay (seq 0 k)) with (first_delays k).
    rewrite total_first_delays.
    change (Z.to_nat 5) with 5%nat in Hk.
    replace (k <=? 5)%nat with true by (symmetry; apply Nat.leb_le; lia).
    assert (2 ^ Z.of_nat k <= 2 ^ 5) by (apply Z.pow_le_mono_r; lia).
    lia.
Qed.

(** X8 on a page where the element appears after three timers. *)
Lemma backoff_finds_first_or_gives_up_witness :
  waitForElementWithBackoff appears_after_three 5
  = (Some "option-container", [50; 100; 200]).
Proof.
  apply (proj1 (backoff_finds_first_or_gives_up string appears_after_three 5)
               3%nat "option-container").
  - simpl. lia.
  - reflexivity.
  - intros [|[|[|j]]] Hj; try reflexivity. lia.
Defined.

End BackoffProperties.

(** ** The lists of installed themes and plugins *)
Section ModListsFacts.
Import ModLists Installed.

Lemma existsb_eqb_In (x : string) (l : list string) :
  existsb (String.eqb x) l = true <-> In x l.
Proof.
  rewrite existsb_exists. split.
  - intros (y & Hy & E). apply String.eqb_eq in E. now subst.
  - intros H. exists x. split; [exact H | apply String.eqb_refl].
Qed.

Lemma set_add_In (seen : list string) (x y : string) :
  In y (set_add seen x) <-> In y seen \/ y = x.
Proof.
  unfold set_add. destruct (existsb (String.eqb x) seen) eqn:E.
  - apply existsb_eqb_In in E. split; [now left | intros [H | ->]; assumption].
  - rewrite in_app_iff. simpl. split; [intros [H | [<- | []]]; auto | intros [H | ->]; auto].
Qed.

Lemma set_add_NoDup (seen : list string) (x : string) :
  NoDup seen -> NoDup (set_add seen x).
Proof.
  intros Hnd. unfold set_add. destruct (existsb (String.eqb x) seen) eqn:E; [exact Hnd|].
  apply NoDup_app; [exact Hnd | repeat constructor; intros [] |].
  intros a Ha [<- | []].
  apply existsb_eqb_In in Ha. congruence.
Qed.

Lemma fold_set_add (l : list string) :
  forall seen,
    (NoDup seen -> NoDup (fold_left set_add l seen)) /\
    (forall y, In y (fold_left set_add l seen) <-> In y seen \/ In y l).
Proof.
  induction l as [|x l IH]; intros seen; simpl.
  - split; [auto|]. intros y. split; [now left | intros [H | []]; exact H].
  - destruct (IH (set_add seen x)) as [A B]. split.
    + intros Hnd. apply A. now apply set_add_NoDup.
    + intros y. rewrite B, set_add_In. split.
      * intros [[H | ->] | H]; auto.
      * intros [H | [<- | H]]; auto.
Qed.

Lemma spread_set_spec (l : list string) :
  NoDup (spread_set l) /\ forall y, In y (spread_set l) <-> In y l.
Proof.
  destruct (fold_set_add l []) as [A B]. split.
  - apply A. constructor.
  - intros y. unfold spread_set. rewrite B. split; [intros [[] | H]; exact H | now right].
Qed.

Lemma list_mods_In (d : directory) (ext : string) (l : list string) :
  list_mods d ext = Some l ->
  forall f, In f l <-> endsWith f ext = true /\ In f (files_of d).
Proof.
  destruct d as [| |files]; simpl; [|discriminate|]; intros [= <-] f.
  - split; [intros [] | intros [_ []]].
  - rewrite filter_In. split; intros [A B]; now split.
Qed.

(** What a call that does not answer from the cache does. *)
Lemma refresh_spec (THEME PLUGIN : string) (fs : disk) (now : Z) (modCache : ModListCache) :
  stale now modCache ->
  getModListsAsync THEME PLUGIN fs now modCache
  = match list_mods (themesPath fs) THEME, list_mods (bundledThemesPath fs) THEME,
          list_mods (pluginsPath fs) PLUGIN, list_mods (bundledPluginsPath fs) PLUGIN with
    | Some userThemes, Some bundledThemes, Some userPlugins, Some bundledPlugins =>
        let t := spread_set (userThemes ++ bundledThemes) in
        let p := spread_set (userPlugins ++ bundledPlugins) in
        (Some (t, p), {| themes := Some t; plugins := Some p; lastUpdate := now |})
    | _, _, _, _ => (None, modCache)
    end.
Proof.
  intros Hs. unfold getModListsAsync.
  destruct (themes modCache) as [t|] eqn:Et; [|reflexivity].
  destruct (plugins modCache) as [p|] eqn:Ep; [|reflexivity].
  destruct Hs as [H | [H | H]]; try congruence.
  apply Z.ltb_ge in H. now rewrite H.
Qed.

(** A call that resolves leaves its answer in the cache. *)
Lemma resolved_is_cached (THEME PLUGIN : string) (fs : disk) (now : Z)
    (modCache c1 : ModListCache) (r : list string * list string) :
  getModListsAsync THEME PLUGIN fs now modCache = (Some r, c1) ->
  themes c1 = Some (fst r) /\ plugins c1 = Some (snd r).
Proof.
  unfold getModListsAsync.
  assert (R : forall x,
             match list_mods (themesPath fs) THEME, list_mods (bundledThemesPath fs) THEME,
                   list_mods (pluginsPath fs) PLUGIN, list_mods (bundledPluginsPath fs) PLUGIN
             with
             | Some userThemes, Some bundledThemes, Some userPlugins, Some bundledPlugins =>
                 let t := spread_set (userThemes ++ bundledThemes) in
                 let p := spread_set (userPlugins ++ bundledPlugins) in
                 (Some (t, p), {| themes := Some t; plugins := Some p; lastUpdate := now |})
             | _, _, _, _ => (None, x)
             end = (Some r, c1) ->
             themes c1 = Some (fst r) /\ plugins c1 = Some (snd r)).
  { intros x.
    destruct (list_mods (themesPath fs) THEME); [|discriminate].
    destruct (list_mods (bundledThemesPath fs) THEME); [|discriminate].
    destruct (list_mods (pluginsPath fs) PLUGIN); [|discriminate].
    destruct (list_mods (bundledPluginsPath fs) PLUGIN); [|discriminate].
    intros [= <- <-]. now split. }
  destruct (themes modCache) as [t|] eqn:Et; [|apply R].
  destruct (plugins modCache) as [p|] eqn:Ep; [|apply R].
  destruct (now - lastUpdate modCache <? CACHE_TTL); [|apply R].
  intros [= <- <-]. now split.
Qed.

End ModListsFacts.

Section ModListsProperties.
Import ModLists Installed.

(** X9: a call that does not answer from the cache and resolves returns,
    for themes and for plugins, each name once that ends with the extension
    and that [readdir] shows in the user directory or in the bundled one (an
    absent directory showing none), and nothing else; and it leaves exactly
    these lists in the cache, stamped with the time of the call. *)
Theorem mod_lists_are_the_installed_files_once :
  forall (THEME PLUGIN : string) (fs : disk) (now : Z) (modCache c1 : ModListCache)
         (t p : list string),
    stale now modCache ->
    getModListsAsync THEME PLUGIN fs now modCache = (Some (t, p), c1) ->
    NoDup t /\ NoDup p /\
    (forall f, In f t <->
               endsWith f THEME = true /\
               (In f (files_of (themesPath fs)) \/ In f (files_of (bundledThemesPath fs)))) /\
    (forall f, In f p <->
               endsWith f PLUGIN = true /\
               (In f (files_of (pluginsPath fs)) \/ In f (files_of (bundledPluginsPath fs)))) /\
    c1 = {| themes := Some t; plugins := Some p; lastUpdate := now |}.
Proof.
  intros THEME PLUGIN fs now modCache c1 t p Hs H.
  rewrite (refresh_spec _ _ _ _ _ Hs) in H.
  destruct (list_mods (themesPath fs) THEME) as [ut|] eqn:E1; [|discriminate].
  destruct (list_mods (bundledThemesPath fs) THEME) as [bt|] eqn:E2; [|discriminate].
  destruct (list_mods (pluginsPath fs) PLUGIN) as [up|] eqn:E3; [|discriminate].
  destruct (list_mods (bundledPluginsPath fs) PLUGIN) as [bp|] eqn:E4; [|discriminate].
  injection H as <- <- <-.
  destruct (spread_set_spec (ut ++ bt)) as [N1 I1].
  destruct (spread_set_spec (up ++ bp)) as [N2 I2].
  split; [exact N1|]. split; [exact N2|]. split; [|split; [|reflexivity]].
  - intros f. rewrite I1, in_app_iff, (list_mods_In _ _ _ E1), (list_mods_In _ _ _ E2). tauto.
  - intros f. rewrite I2, in_app_iff, (list_mods_In _ _ _ E3), (list_mods_In _ _ _ E4). tauto.
Qed.

(** X9 on a disk with user and bundled themes and bundled plugins. *)
Lemma mod_lists_are_the_installed_files_once_witness :
  fst (getModListsAsync ".theme.css" ".plugin.js" two_sources 1000 empty_cache)
  = Some (["mine.theme.css"; "liquid-glass.theme.css"], ["card-hover-info.plugin.js"]) /\
  NoDup ["mine.theme.css"; "liquid-glass.theme.css"].
Proof.
  split; [reflexivity|].
  refine (proj1 (mod_lists_are_the_installed_files_once
                   ".theme.css" ".plugin.js" two_sources 1000 empty_cache _ _ _ _ eq_refl)).
  now left.
Defined.

(** X10: once a call has resolved, every later call made less than 5000 ms
    after the cache was stamped resolves to the same lists without reading
    the disk, whatever the disk has become, and leaves the cache alone; a
    call made 5000 ms or more after the stamp reads the disk again, as a
    call over an empty cache would; and a call that rejects leaves the cache
    as it was. *)
Theorem mod_lists_are_cached_for_five_seconds :
  forall (THEME PLUGIN : string) (fs1 fs2 : disk) (t1 t2 : Z) (modCache c1 : ModListCache)
         (r : list string * list string),
    getModListsAsync THEME PLUGIN fs1 t1 modCache = (Some r, c1) ->
    (t2 - lastUpdate c1 < CACHE_TTL ->
     getModListsAsync THEME PLUGIN fs2 t2 c1 = (Some r, c1)) /\
    (CACHE_TTL <= t2 - lastUpdate c1 ->
     fst (getModListsAsync THEME PLUGIN fs2 t2 c1)
     = fst (getModListsAsync THEME PLUGIN fs2 t2 empty_cache)) /\
    (fst (getModListsAsync THEME PLUGIN fs2 t2 c1) = None ->
     snd (getModListsAsync THEME PLUGIN fs2 t2 c1) = c1).
Proof.
  intros THEME PLUGIN fs1 fs2 t1 t2 modCache c1 r H.
  destruct (resolved_is_cached _ _ _ _ _ _ _ H) as [Ht Hp].
  split; [|split].
  - intros Hlt. unfold getModListsAsync. rewrite Ht, Hp.
    apply Z.ltb_lt in Hlt. rewrite Hlt. now destruct r.
  - intros Hge.
    rewrite (refresh_spec THEME PLUGIN fs2 t2 c1) by (right; now right).
    rewrite (refresh_spec THEME PLUGIN fs2 t2 empty_cache) by now left.
    destruct (list_mods (themesPath fs2) THEME); [|reflexivity].
    destruct (list_mods (bundledThemesPath fs2) THEME); [|reflexivity].
    destruct (list_mods (pluginsPath fs2) PLUGIN); [|reflexivity].
    destruct (list_mods (bundledPluginsPath fs2) PLUGIN); reflexivity.
  - unfold getModListsAsync. rewrite Ht, Hp.
    destruct (t2 - lastUpdate c1 <? CACHE_TTL); [discriminate|].
    destruct (list_mods (themesPath fs2) THEME); [|reflexivity].
    destruct (list_mods (bundledThemesPath fs2) THEME); [|reflexivity].
    destruct (list_mods (pluginsPath fs2) PLUGIN); [|reflexivity].
    destruct (list_mods (bundledPluginsPath fs2) PLUGIN); [discriminate | reflexivity].
Qed.

(** X10 with the themes deleted and the bundled directory unreadable two
    seconds after the first call: the second call still shows them. *)
Lemma mod_lists_are_cached_for_five_seconds_witness :
  let c1 := snd (getModListsAsync ".theme.css" ".plugin.js" two_sources 1000 empty_cache) in
  fst (getModListsAsync ".theme.css" ".plugin.js" emptied 3000 c1)
  = Some (["mine.theme.css"; "liquid-glass.theme.css"], ["card-hover-info.plugin.js"]) /\
  fst (getModListsAsync ".theme.css" ".plugin.js" emptied 6000 c1) = None.
Proof.
  intros c1. split.
  - rewrite (proj1 (mod_lists_are_cached_for_five_seconds
                      ".theme.css" ".plugin.js" two_sources emptied 1000 3000 empty_cache c1
                      _ eq_refl)); [reflexivity|].
    vm_compute. reflexivity.
  - rewrite (proj1 (proj2 (mod_lists_are_cached_for_five_seconds
                      ".theme.css" ".plugin.js" two_sources emptied 1000 6000 empty_cache c1
                      _ eq_refl))); [reflexivity|].
    vm_compute. discriminate.
Defined.

End ModListsProperties.

(** ** Loading the enabled plugins *)
Section PluginsFacts.
Import ModLists Installed Plugins.

Lemma includes_In (l : list string) (x : string) : includes l x = true <-> In x l.
Proof. apply existsb_eqb_In. Qed.

Lemma enabled_of_stringify (l : list string) : enabled_of (stringify l) = l.
Proof. now destruct l. Qed.

Lemma filter_agree {A : Type} (f g : A -> bool) (l : list A) :
  (forall x, In x l -> f x = g x) -> filter f l = filter g l.
Proof.
  induction l as [|a l IH]; intros H; simpl; [reflexivity|].
  rewrite (H a (or_introl eq_refl)), IH; [reflexivity|].
  intros x Hx. apply H. now right.
Qed.

Lemma includes_app_one (l : list string) (x y : string) :
  includes (l ++ [x]) y = includes l y || String.eqb y x.
Proof. unfold includes. rewrite existsb_app. simpl. now rewrite orb_false_r. Qed.

End PluginsFacts.

Section PluginsProperties.
Import ModLists Installed Plugins.

(** X11: when loading resolves, the plugins loaded are, in the order of the
    list of installed plugins, exactly the installed ones that are enabled
    or are the card-hover plugin, where the enabled ones are the stored
    array, or all bundled plugins when nothing or the text "[]" is stored;
    the array stored afterwards is the enabled ones, followed by the
    card-hover plugin when that is installed and was not among them; so an
    installed card-hover plugin is always loaded and stored as enabled, and
    a plugin that is not installed is never loaded.  On a first run that
    reads the disk, every bundled plugin is loaded. *)
Theorem enabled_installed_plugins_are_loaded :
  forall (THEME PLUGIN : string) (fs : disk) (now : Z) (modCache c1 : ModListCache)
         (stored stored' : stored_plugins) (loaded : list string),
    loadEnabledPlugins THEME PLUGIN fs now modCache stored = (Some loaded, stored', c1) ->
    exists (installedThemes installed bundled : list string),
      getModListsAsync THEME PLUGIN fs now modCache = (Some (installedThemes, installed), c1) /\
      list_mods (bundledPluginsPath fs) PLUGIN = Some bundled /\
      let enabled := match stored with
                     | NotStored | EmptyLiteral => bundled
                     | _ => enabled_of stored
                     end in
      loaded = filter (fun plugin => includes enabled plugin || String.eqb plugin cardHoverPlugin)
                      installed /\
      enabled_of stored'
      = (enabled ++ if includes installed cardHoverPlugin
                       && negb (includes enabled cardHoverPlugin)
                    then [cardHoverPlugin] else [])%list /\
      (In cardHoverPlugin installed ->
       In cardHoverPlugin loaded /\ In cardHoverPlugin (enabled_of stored')) /\
      (forall plugin, In plugin loaded -> In plugin installed) /\
      (stale now modCache -> stored = NotStored \/ stored = EmptyLiteral ->
       forall plugin, In plugin bundled -> In plugin loaded).
Proof.
  intros THEME PLUGIN fs now modCache c1 stored stored' loaded H.
  unfold loadEnabledPlugins in H.
  destruct (getModListsAsync THEME PLUGIN fs now modCache) as [[[it installed]|] c] eqn:G;
    [|discriminate].
  destruct (list_mods (bundledPluginsPath fs) PLUGIN) as [bundled|] eqn:B; [|discriminate].
  exists it, installed, bundled.
  set (enabled := match stored with
                  | NotStored | EmptyLiteral => bundled
                  | _ => enabled_of stored
                  end).
  assert (Hparsed :
            exists stored1,
              (if match stored with NotStored | EmptyLiteral => true | _ => false end
               then Some (bundled, stringify bundled)
               else match stored with Array l => Some (l, stored) | _ => None end)
              = Some (enabled, stored1) /\ enabled_of stored1 = enabled).
  { subst enabled. destruct stored as [| |l|]; try discriminate.
    - eexists. split; [reflexivity | apply enabled_of_stringify].
    - eexists. split; [reflexivity | apply enabled_of_stringify].
    - eexists. split; reflexivity. }
  destruct Hparsed as (stored1 & Hparsed & Hs1). rewrite Hparsed in H.
  assert (Hload : loaded = filter (fun plugin => includes enabled plugin
                                                 || String.eqb plugin cardHoverPlugin)
                                  installed /\
                  enabled_of stored'
                  = (enabled ++ if includes installed cardHoverPlugin
                                   && negb (includes enabled cardHoverPlugin)
                                then [cardHoverPlugin] else [])%list /\ c = c1).
  { destruct (includes installed cardHoverPlugin) eqn:I1;
      destruct (includes enabled cardHoverPlugin) eqn:I2; cbn [andb negb] in H |- *;
      injection H as <- <- <-.
    - split; [|split; [now rewrite app_nil_r | reflexivity]].
      apply filter_agree. intros x Hx.
      destruct (String.eqb_spec x cardHoverPlugin) as [->|]; [now rewrite I2 | now rewrite orb_false_r].
    - split; [|split; [now rewrite enabled_of_stringify | reflexivity]].
      apply filter_agree. intros x Hx. apply includes_app_one.
    - split; [|split; [now rewrite app_nil_r | reflexivity]].
      apply filter_agree. intros x Hx.
      destruct (String.eqb_spec x cardHoverPlugin) as [->|]; [|now rewrite orb_false_r].
      apply includes_In in Hx. congruence.
    - split; [|split; [now rewrite app_nil_r | reflexivity]].
      apply filter_agree. intros x Hx.
      destruct (String.eqb_spec x cardHoverPlugin) as [->|]; [|now rewrite orb_false_r].
      apply includes_In in Hx. congruence. }
  destruct Hload as (Hl & He & ->).
  split; [reflexivity|]. split; [reflexivity|].
  split; [exact Hl|]. split; [exact He|]. split; [|split].
  - intros Hin. split.
    + rewrite Hl. apply filter_In. split; [exact Hin|].
      rewrite String.eqb_refl. apply orb_true_r.
    + rewrite He. apply in_app_iff.
      apply includes_In in Hin. rewrite Hin.
      destruct (includes enabled cardHoverPlugin) eqn:I2.
      * left. now apply includes_In.
      * right. now left.
  - intros plugin Hin. rewrite Hl in Hin. now apply filter_In in Hin.
  - intros Hs Hfirst plugin Hin.
    assert (Een : enabled = bundled) by (subst enabled; now destruct Hfirst as [-> | ->]).
    rewrite Hl. apply filter_In. split.
    + rewrite (refresh_spec _ _ _ _ _ Hs) in G. rewrite B in G.
      destruct (list_mods (themesPath fs) THEME); [|discriminate].
      destruct (list_mods (bundledThemesPath fs) THEME); [|discriminate].
      destruct (list_mods (pluginsPath fs) PLUGIN) as [up|]; [|discriminate].
      injection G as _ <- _.
      apply (proj2 (spread_set_spec (up ++ bundled))). apply in_app_iff. now right.
    + rewrite Een. apply orb_true_iff. left. now apply includes_In.
Qed.

(** X11 on a first run with two user plugins and the bundled card-hover
    plugin: only the bundled one is loaded and stored. *)
Lemma enabled_installed_plugins_are_loaded_witness :
  loadEnabledPlugins ".theme.css" ".plugin.js" user_and_bundled 1000 empty_cache NotStored
  = (Some ["card-hover-info.plugin.js"], Array ["card-hover-info.plugin.js"],
     snd (getModListsAsync ".theme.css" ".plugin.js" user_and_bundled 1000 empty_cache)) /\
  In "card-hover-info.plugin.js" ["card-hover-info.plugin.js"].
Proof.
  split; [reflexivity|].
  destruct (enabled_installed_plugins_are_loaded
              ".theme.css" ".plugin.js" user_and_bundled 1000 empty_cache _
              NotStored _ _ eq_refl)
    as (it & installed & bundled & G & B & _ & _ & Hc & _).
  apply Hc. injection G as _ <-. vm_compute. right. right. now left.
Defined.

End PluginsProperties.

(** ** Default settings *)
Section UserSettingsFacts.
Import JsObject UserSettings.

Lemma getItem_setItem_same (k v : string) (ls : storage) :
  getItem k (setItem k v ls) = Some v.
Proof.
  induction ls as [|[k' v'] ls IH]; simpl.
  - now rewrite String.eqb_refl.
  - destruct (String.eqb k k') eqn:E; simpl; rewrite E; [reflexivity | exact IH].
Qed.

Lemma getItem_setItem_other (k k0 v : string) (ls : storage) :
  k0 <> k -> getItem k0 (setItem k v ls) = getItem k0 ls.
Proof.
  intros Hne. apply String.eqb_neq in Hne.
  induction ls as [|[k' v'] ls IH]; simpl.
  - now rewrite Hne.
  - destruct (String.eqb_spec k k') as [->|]; simpl.
    + now rewrite Hne.
    + now rewrite IH.
Qed.

Lemma setItem_same_value (k v : string) (ls : storage) :
  getItem k ls = Some v -> setItem k v ls = ls.
Proof.
  induction ls as [|[k' v'] ls IH]; simpl; [discriminate|].
  destruct (String.eqb_spec k k') as [->|].
  - now intros [= ->].
  - intros H. now rewrite IH.
Qed.

(** One pass over the entries of the defaults. *)
Lemma init_fold (entries : list (string * string)) :
  forall ls : storage,
    NoDup (map fst entries) ->
    let ls' := fold_left (fun ls kv =>
                            if negb (Js.truthy (getItem (fst kv) ls))
                            then setItem (fst kv) (snd kv) ls
                            else ls) entries ls in
    (forall k, ~ In k (map fst entries) -> getItem k ls' = getItem k ls) /\
    (forall k d, In (k, d) entries ->
                 getItem k ls' = if Js.truthy (getItem k ls) then getItem k ls else Some d).
Proof.
  induction entries as [|[k0 d0] entries IH]; intros ls Hnd; simpl.
  - split; [reflexivity | intros k d []].
  - inversion Hnd as [|? ? Hn Hnd']; subst.
    set (ls1 := if negb (Js.truthy (getItem k0 ls)) then setItem k0 d0 ls else ls).
    destruct (IH ls1 Hnd') as [A B]. split.
    + intros k Hk. rewrite A by (intros H; apply Hk; now right).
      subst ls1. destruct (negb (Js.truthy (getItem k0 ls))); [|reflexivity].
      apply getItem_setItem_other. intros ->. apply Hk. now left.
    + intros k d [[= -> ->] | Hin].
      * rewrite A by exact Hn. subst ls1.
        destruct (Js.truthy (getItem k ls)); simpl; [reflexivity|].
        apply getItem_setItem_same.
      * rewrite (B k d Hin).
        assert (Hk : k <> k0).
        { intros ->. apply Hn. change k0 with (fst (k0, d)). now apply in_map. }
        assert (E : getItem k ls1 = getItem k ls).
        { subst ls1. destruct (negb (Js.truthy (getItem k0 ls))); [|reflexivity].
          now apply getItem_setItem_other. }
        now rewrite E.
Qed.

(** A pass over a storage in which every entry is either non-empty or
    already at its default changes nothing. *)
Lemma init_fold_settled (entries : list (string * string)) :
  forall ls : storage,
    (forall k d, In (k, d) entries -> Js.truthy (getItem k ls) = true \/ getItem k ls = Some d) ->
    fold_left (fun ls kv =>
                 if negb (Js.truthy (getItem (fst kv) ls))
                 then setItem (fst kv) (snd kv) ls
                 else ls) entries ls = ls.
Proof.
  induction entries as [|[k0 d0] entries IH]; intros ls H; simpl; [reflexivity|].
  assert (E : (if negb (Js.truthy (getItem k0 ls)) then setItem k0 d0 ls else ls) = ls).
  { destruct (H k0 d0 (or_introl eq_refl)) as [T | S].
    - now rewrite T.
    - destruct (negb (Js.truthy (getItem k0 ls))); [|reflexivity].
      now apply setItem_same_value. }
  rewrite E. apply IH. intros k d Hin. apply H. now right.
Qed.

End UserSettingsFacts.

Section UserSettingsProperties.
Import JsObject UserSettings.

(** X12: initialising the settings never replaces a stored value that is
    not empty; it gives every key of the defaults that is missing or holds
    the empty string its default value; it leaves every other key alone;
    and doing it again changes nothing. *)
Theorem defaults_fill_only_missing_settings :
  forall (defaults : obj string) (localStorage : storage),
    NoDup (keys defaults) ->
    let ls' := initializeUserSettings defaults localStorage in
    (forall k v, getItem k localStorage = Some v -> v <> "" -> getItem k ls' = Some v) /\
    (forall k d, get k defaults = Some d ->
                 Js.truthy (getItem k localStorage) = false -> getItem k ls' = Some d) /\
    (forall k, get k defaults = None -> getItem k ls' = getItem k localStorage) /\
    initializeUserSettings defaults ls' = ls'.
Proof.
  intros defaults ls Hnd ls'. subst ls'. unfold initializeUserSettings, entries.
  destruct (init_fold defaults ls Hnd) as [A B]. cbv zeta in A, B.
  split; [|split; [|split]].
  - intros k v Hg Hv.
    assert (T : Js.truthy (getItem k ls) = true).
    { rewrite Hg. destruct v; [now elim Hv | reflexivity]. }
    destruct (get k defaults) as [d|] eqn:G.
    + rewrite (B k d (get_In _ _ _ G)), T. exact Hg.
    + rewrite A; [exact Hg|]. now apply get_None.
  - intros k d G F. rewrite (B k d (get_In _ _ _ G)), F. reflexivity.
  - intros k G. apply A. now apply get_None.
  - apply init_fold_settled. intros k d Hin. rewrite (B k d Hin).
    destruct (Js.truthy (getItem k ls)) eqn:T; [now left | now right].
Qed.

(** X12 on a profile that has chosen VLC and holds an empty update flag. *)
Lemma defaults_fill_only_missing_settings_witness :
  initializeUserSettings three_defaults vlc_profile
  = [("externalPlayer", "vlc"); ("checkUpdates", "true"); ("volume", "0.5");
     ("externalPlayerPath", "")] /\
  getItem "externalPlayer" (initializeUserSettings three_defaults vlc_profile) = Some "vlc".
Proof.
  split; [reflexivity|].
  refine (proj1 (defaults_fill_only_missing_settings three_defaults vlc_profile _)
                "externalPlayer" "vlc" eq_refl _).
  - repeat constructor; simpl; intuition discriminate.
  - discriminate.
Defined.

End UserSettingsProperties.

(** ** The theme stylesheet *)
Section ThemeFacts.
Import Theme.

Lemma find_filter (f : node -> bool) (l : list node) :
  find f l = hd_error (filter f l).
Proof.
  induction l as [|n l IH]; simpl; [reflexivity|].
  destruct (f n); [reflexivity | exact IH].
Qed.

Lemma filter_remove_first (i : string) (l : list node) :
  filter (has_id i) (remove_first i l) = tl (filter (has_id i) l).
Proof.
  induction l as [|n l IH]; simpl; [reflexivity|].
  destruct (has_id i n) eqn:E; simpl; [reflexivity|]. now rewrite E.
Qed.

Lemma others_remove_first (i : string) (l : list node) :
  filter (fun n => negb (has_id i n)) (remove_first i l)
  = filter (fun n => negb (has_id i n)) l.
Proof.
  induction l as [|n l IH]; simpl; [reflexivity|].
  destruct (has_id i n) eqn:E; simpl; [reflexivity|]. rewrite E. simpl. now rewrite IH.
Qed.

Lemma existsb_filter_nil (f : node -> bool) (l : list node) :
  existsb f l = false -> filter f l = [].
Proof.
  induction l as [|n l IH]; simpl; [reflexivity|].
  destruct (f n); [discriminate | exact IH].
Qed.

Lemma remove_first_app (i : string) (a b : list node) :
  remove_first i (a ++ b)
  = if existsb (has_id i) a then (remove_first i a ++ b)%list
    else (a ++ remove_first i b)%list.
Proof.
  induction a as [|n a IH]; simpl; [reflexivity|].
  destruct (has_id i n); simpl; [reflexivity|].
  rewrite IH. now destruct (existsb (has_id i) a).
Qed.

(** Removing the element found removes the first element with that id from
    the document, in document order. *)
Lemma elements_remove_found (i : string) (d : document) :
  elements (remove_found i d) = remove_first i (elements d).
Proof.
  unfold elements, remove_found. destruct (head d) as [h|]; simpl.
  - rewrite remove_first_app. now destruct (existsb (has_id i) h).
  - reflexivity.
Qed.

Lemma head_remove_found (i : string) (d : document) (h : list node) :
  head d = Some h -> exists h', head (remove_found i d) = Some h'.
Proof.
  intros H. unfold remove_found. rewrite H.
  destruct (existsb (has_id i) h); eexists; reflexivity.
Qed.

Lemma set_theme_same (p : page) (t : string) :
  CURRENT_THEME p = Some t -> set_theme t p = p.
Proof. destruct p as [d c]. simpl. now intros ->. Qed.

End ThemeFacts.

Section ThemeHostFacts.
Import Theme.
Variable join : string -> string -> string.
Variable pathToFileURL : string -> string.
Variables themesPath bundledThemesPath : string.
Variable existsSync : string -> bool.

(** [applyUserTheme] by cases, on a page that has a head; [f] is the file
    the theme is loaded from, when there is one. *)
Lemma apply_cases (p : page) (h : list node) :
  head (doc p) = Some h ->
  let t := chosen_theme p in
  let p1 := set_theme t p in
  let f := if existsSync (join themesPath t) then join themesPath t
           else join bundledThemesPath t in
  applyUserTheme join pathToFileURL themesPath bundledThemesPath existsSync p =
  if String.eqb t "Default" then (p1, None)
  else if negb (existsSync f) then (set_theme "Default" p1, None)
  else if match getElementById "activeTheme" (doc p) with
          | Some existingTheme => String.eqb (n_href existingTheme) (pathToFileURL f)
          | None => false
          end
       then (p1, None)
       else
         let d := remove_found "activeTheme" (doc p) in
         (set_doc {| head := Some (theme_link (pathToFileURL f)
                                   :: match head d with Some h => h | None => [] end);
                     body := body d; loading := loading d |} p1, None).
Proof.
  intros Hh t p1 f. subst t p1 f. unfold applyUserTheme, chosen_theme. rewrite Hh.
  destruct (CURRENT_THEME p) as [[|c t]|] eqn:C.
  - reflexivity.
  - now rewrite (set_theme_same p (String c t) C).
  - reflexivity.
Qed.

End ThemeHostFacts.

Section ThemeProperties.
Import Theme.

Lemma chosen_theme_stored (p : page) : chosen_theme (set_theme (chosen_theme p) p) = chosen_theme p.
Proof.
  unfold chosen_theme at 1. simpl.
  unfold chosen_theme. destruct (CURRENT_THEME p) as [[|c t]|]; reflexivity.
Qed.

Lemma set_theme_twice (a b : string) (p : page) : set_theme a (set_theme b p) = set_theme a p.
Proof. reflexivity. Qed.

Lemma getElementById_first (href : string) (h b : list node) (l : bool) :
  getElementById "activeTheme" {| head := Some (theme_link href :: h); body := b; loading := l |}
  = Some (theme_link href).
Proof. reflexivity. Qed.

(** X13: on a page that has a head, applying the theme arranges no retry;
    applying it again changes nothing; it never adds a second element with
    the id "activeTheme" (the count afterwards is at most one, or what it
    was before); and it leaves all other elements in place and in order. *)
Theorem theme_is_applied_once :
  forall (join : string -> string -> string) (pathToFileURL : string -> string)
         (themesPath bundledThemesPath : string) (existsSync : string -> bool)
         (p : page) (h : list node),
    head (doc p) = Some h ->
    let r := applyUserTheme join pathToFileURL themesPath bundledThemesPath existsSync p in
    snd r = None /\
    applyUserTheme join pathToFileURL themesPath bundledThemesPath existsSync (fst r) = r /\
    (theme_count (doc (fst r)) <= Nat.max 1 (theme_count (doc p)))%nat /\
    others (doc (fst r)) = others (doc p).
Proof.
  intros join url tp btp ex p h Hh r. subst r.
  rewrite (apply_cases join url tp btp ex p h Hh). cbv zeta.
  set (t := chosen_theme p).
  set (f := if ex (join tp t) then join tp t else join btp t).
  assert (Hp1 : head (doc (set_theme t p)) = Some h) by exact Hh.
  assert (Ht1 : chosen_theme (set_theme t p) = t) by apply chosen_theme_stored.
  destruct (String.eqb t "Default") eqn:Ed.
  - (* "Default": no theme *)
    cbn [fst snd]. split; [reflexivity|].
      split; [|split; [cbn [set_theme doc]; lia | reflexivity]].
    rewrite (apply_cases join url tp btp ex _ h Hp1). cbv zeta.
    rewrite Ht1, Ed. reflexivity.
  - destruct (negb (ex f)) eqn:Ef.
    + (* the file is missing *)
      cbn [fst snd]. split; [reflexivity|].
      split; [|split; [cbn [set_theme doc]; lia | reflexivity]].
      rewrite (apply_cases join url tp btp ex (set_theme "Default" (set_theme t p)) h Hh).
      reflexivity.
    + destruct (match getElementById "activeTheme" (doc p) with
                | Some existingTheme => String.eqb (n_href existingTheme) (url f)
                | None => false
                end) eqn:Ea.
      * (* already applied *)
        cbn [fst snd]. split; [reflexivity|].
      split; [|split; [cbn [set_theme doc]; lia | reflexivity]].
        rewrite (apply_cases join url tp btp ex _ h Hp1). cbv zeta.
        rewrite Ht1, Ed. fold f. rewrite Ef.
        change (doc (set_theme t p)) with (doc p). rewrite Ea. reflexivity.
      * (* the link is created *)
        cbn [fst snd]. split; [reflexivity|].
        destruct (head_remove_found "activeTheme" (doc p) h Hh) as [h' Hh'].
        rewrite Hh'.
        set (d' := {| head := Some (theme_link (url f) :: h');
                      body := body (remove_found "activeTheme" (doc p));
                      loading := loading (remove_found "activeTheme" (doc p)) |}).
        assert (Hel : elements d'
                      = theme_link (url f) :: remove_first "activeTheme" (elements (doc p))).
        { rewrite <- elements_remove_found. unfold elements. subst d'. simpl.
          now rewrite Hh'. }
        split; [|split].
        -- rewrite (apply_cases join url tp btp ex (set_doc d' (set_theme t p))
                      (theme_link (url f) :: h') eq_refl).
           cbv zeta.
           change (chosen_theme (set_doc d' (set_theme t p)))
             with (chosen_theme (set_theme t p)).
           rewrite Ht1, Ed. fold f. rewrite Ef.
           change (doc (set_doc d' (set_theme t p))) with d'.
           unfold d' at 1. rewrite getElementById_first.
           simpl n_href. rewrite String.eqb_refl. reflexivity.
        -- unfold theme_count. change (doc (set_doc d' (set_theme t p))) with d'.
           rewrite Hel. simpl. rewrite filter_remove_first.
           destruct (filter (has_id "activeTheme") (elements (doc p))); simpl; lia.
        -- unfold others. change (doc (set_doc d' (set_theme t p))) with d'.
           rewrite Hel. simpl. apply others_remove_first.
Qed.

(** X13 on the example profile: the link is put first in the head, and a
    second call finds it there. *)
Lemma theme_is_applied_once_witness :
  let r := applyUserTheme example_join example_url "/user/themes" "/app/themes"
                          example_exists example_page in
  head (doc (fst r))
  = Some [theme_link "file:///user/themes/mine.theme.css"; stremio_style] /\
  applyUserTheme example_join example_url "/user/themes" "/app/themes" example_exists (fst r)
  = r.
Proof.
  intros r. split; [reflexivity|].
  exact (proj1 (proj2 (theme_is_applied_once example_join example_url "/user/themes"
                         "/app/themes" example_exists example_page [stremio_style] eq_refl))).
Defined.

(** Whether the link was there or is created, it is what is found
    afterwards. *)
Lemma link_is_found (href t : string) (p : page) :
  let r := fst (if match getElementById "activeTheme" (doc p) with
                   | Some existingTheme => String.eqb (n_href existingTheme) href
                   | None => false
                   end
                then (set_theme t p, @None retry)
                else
                  (set_doc {| head := Some (theme_link href
                                            :: match head (remove_found "activeTheme" (doc p))
                                               with Some h => h | None => [] end);
                              body := body (remove_found "activeTheme" (doc p));
                              loading := loading (remove_found "activeTheme" (doc p)) |}
                           (set_theme t p), None)) in
  CURRENT_THEME r = Some t /\
  exists n, getElementById "activeTheme" (doc r) = Some n /\ n_href n = href.
Proof.
  destruct (getElementById "activeTheme" (doc p)) as [n|] eqn:G.
  - destruct (String.eqb_spec (n_href n) href) as [E|E]; cbn [fst].
    + split; [reflexivity|]. exists n. split; [exact G | exact E].
    + split; [reflexivity|]. eexists. split; [apply getElementById_first | reflexivity].
  - cbn [fst]. split; [reflexivity|]. eexists.
    split; [apply getElementById_first | reflexivity].
Qed.

(** X14: on a page that has a head, with a theme other than "Default"
    chosen (the stored name, or the bundled glass theme when none is
    stored): when the theme's file exists in the user directory, the element
    found under "activeTheme" afterwards points to that file; when it exists
    only in the bundled directory, to that one; in both cases the chosen
    name is what is stored afterwards. When the file exists in neither,
    "Default" is stored and the document is left as it was, an earlier theme
    link included. With "Default" chosen the document is left as it was. *)
Theorem theme_comes_from_user_then_bundled_directory :
  forall (join : string -> string -> string) (pathToFileURL : string -> string)
         (themesPath bundledThemesPath : string) (existsSync : string -> bool)
         (p : page) (h : list node),
    head (doc p) = Some h ->
    let t := chosen_theme p in
    let r := fst (applyUserTheme join pathToFileURL themesPath bundledThemesPath existsSync p) in
    (t <> "Default" -> existsSync (join themesPath t) = true ->
     CURRENT_THEME r = Some t /\
     exists n, getElementById "activeTheme" (doc r) = Some n /\
               n_href n = pathToFileURL (join themesPath t)) /\
    (t <> "Default" -> existsSync (join themesPath t) = false ->
     existsSync (join bundledThemesPath t) = true ->
     CURRENT_THEME r = Some t /\
     exists n, getElementById "activeTheme" (doc r) = Some n /\
               n_href n = pathToFileURL (join bundledThemesPath t)) /\
    (t <> "Default" -> existsSync (join themesPath t) = false ->
     existsSync (join bundledThemesPath t) = false ->
     CURRENT_THEME r = Some "Default" /\ doc r = doc p) /\
    (t = "Default" -> CURRENT_THEME r = Some "Default" /\ doc r = doc p).
Proof.
  intros join url tp btp ex p h Hh t r. subst r.
  rewrite (apply_cases join url tp btp ex p h Hh). cbv zeta. fold t.
  split; [|split; [|split]].
  - intros Hd Hu. apply String.eqb_neq in Hd. rewrite Hd, !Hu. cbn [negb].
    apply link_is_found.
  - intros Hd Hu Hb. apply String.eqb_neq in Hd. rewrite Hd, !Hu, Hb. cbn [negb].
    apply link_is_found.
  - intros Hd Hu Hb. apply String.eqb_neq in Hd. rewrite Hd, Hu, Hb. cbn. now split.
  - intros Hd. rewrite Hd. cbn. now split.
Qed.

(** X14 on the example profile: the theme is in the user directory. *)
Lemma theme_comes_from_user_then_bundled_directory_witness :
  exists n,
    getElementById "activeTheme"
      (doc (fst (applyUserTheme example_join example_url "/user/themes" "/app/themes"
                                example_exists example_page))) = Some n /\
    n_href n = "file:///user/themes/mine.theme.css".
Proof.
  destruct (proj1 (theme_comes_from_user_then_bundled_directory
                     example_join example_url "/user/themes" "/app/themes"
                     example_exists example_page [stremio_style] eq_refl))
    as [_ H].
  - discriminate.
  - reflexivity.
  - exact H.
Defined.

Lemma filter_one (f : node -> bool) (l : list node) (n : node) :
  hd_error (filter f l) = Some n -> List.length (filter f l) = 1%nat -> filter f l = [n].
Proof.
  destruct (filter f l) as [|x [|y l']]; simpl; try discriminate.
  now intros [= ->].
Qed.

Lemma filter_app_nil (f : node -> bool) (a b : list node) :
  filter f (a ++ b) = [] -> filter f a = [] /\ filter f b = [].
Proof. rewrite filter_app. apply app_eq_nil. Qed.

(** X15: when an element with the id "activeTheme" is found on a page that
    has a head, refreshing the theme position removes it and appends a link
    with the same address as the last child of the head, without throwing;
    the number of elements with that id and all other elements stay as they
    were; when nothing is found the page is left alone. And when there is
    one such element and applying the theme had nothing to do before the
    refresh, it has nothing to do after it: applying the theme again does
    not move the link back to the front. *)
Theorem refresh_moves_the_theme_last :
  forall (p : page) (h : list node),
    head (doc p) = Some h ->
    (getElementById "activeTheme" (doc p) = None -> refreshThemePosition p = (p, false)) /\
    (forall n,
        getElementById "activeTheme" (doc p) = Some n ->
        let p2 := fst (refreshThemePosition p) in
        snd (refreshThemePosition p) = false /\
        (exists h', head (doc p2) = Some (h' ++ [theme_link (n_href n)])%list) /\
        CURRENT_THEME p2 = CURRENT_THEME p /\
        theme_count (doc p2) = theme_count (doc p) /\
        others (doc p2) = others (doc p) /\
        (theme_count (doc p) = 1%nat ->
         forall (join : string -> string -> string) (pathToFileURL : string -> string)
                (themesPath bundledThemesPath : string) (existsSync : string -> bool),
           applyUserTheme join pathToFileURL themesPath bundledThemesPath existsSync p
           = (p, None) ->
           applyUserTheme join pathToFileURL themesPath bundledThemesPath existsSync p2
           = (p2, None))).
Proof.
  intros p h Hh. split.
  - intros G. unfold refreshThemePosition. now rewrite G.
  - intros n G p2.
    destruct (head_remove_found "activeTheme" (doc p) h Hh) as [h' Hh'].
    set (d2 := {| head := Some (h' ++ [theme_link (n_href n)])%list;
                  body := body (remove_found "activeTheme" (doc p));
                  loading := loading (remove_found "activeTheme" (doc p)) |}).
    assert (Hr : refreshThemePosition p = (set_doc d2 p, false)).
    { unfold refreshThemePosition. rewrite G, Hh'. reflexivity. }
    assert (Hp2 : p2 = set_doc d2 p) by (subst p2; now rewrite Hr).
    assert (Hrem : elements (remove_found "activeTheme" (doc p))
                   = (h' ++ body (remove_found "activeTheme" (doc p)))%list).
    { unfold elements. now rewrite Hh'. }
    assert (Hel : elements d2
                  = (h' ++ theme_link (n_href n)
                        :: body (remove_found "activeTheme" (doc p)))%list).
    { unfold elements. subst d2. simpl. now rewrite <- app_assoc. }
    assert (Hfound : hd_error (filter (has_id "activeTheme") (elements (doc p))) = Some n).
    { rewrite <- find_filter. exact G. }
    assert (Htl : filter (has_id "activeTheme") (h' ++ body (remove_found "activeTheme" (doc p)))
                  = tl (filter (has_id "activeTheme") (elements (doc p)))).
    { rewrite <- Hrem, elements_remove_found. apply filter_remove_first. }
    rewrite Hr. cbn [fst snd]. rewrite Hp2.
    split; [reflexivity|]. split; [now exists h'|]. split; [reflexivity|].
    change (doc (set_doc d2 p)) with d2.
    split; [|split].
    + unfold theme_count. rewrite Hel, filter_app. simpl.
      rewrite length_app. simpl.
      rewrite filter_app in Htl.
      destruct (filter (has_id "activeTheme") (elements (doc p))) as [|x l]; [discriminate|].
      simpl in Htl |- *.
      apply (f_equal (@List.length node)) in Htl. rewrite length_app in Htl. lia.
    + unfold others. rewrite Hel, filter_app. simpl.
      rewrite <- filter_app, <- Hrem, elements_remove_found.
      apply others_remove_first.
    + intros Hone join url tp btp ex Happ.
      (* the link appended is the element found afterwards *)
      assert (Hlink : getElementById "activeTheme" d2 = Some (theme_link (n_href n))).
      { unfold getElementById. rewrite find_filter, Hel, filter_app. simpl.
        rewrite (filter_one _ _ _ Hfound Hone) in Htl. simpl in Htl.
        destruct (filter_app_nil _ _ _ Htl) as [-> _]. reflexivity. }
      rewrite (apply_cases join url tp btp ex p h Hh) in Happ. cbv zeta in Happ.
      rewrite (apply_cases join url tp btp ex (set_doc d2 p)
                 (h' ++ [theme_link (n_href n)])%list eq_refl).
      cbv zeta.
      change (chosen_theme (set_doc d2 p)) with (chosen_theme p).
      change (doc (set_doc d2 p)) with d2.
      set (t := chosen_theme p) in *.
      set (f := if ex (join tp t) then join tp t else join btp t) in *.
      destruct (String.eqb t "Default") eqn:Ed.
      * injection Happ as Hs. f_equal.
        apply set_theme_same. change (CURRENT_THEME (set_doc d2 p)) with (CURRENT_THEME p).
        rewrite <- Hs. reflexivity.
      * destruct (negb (ex f)) eqn:Ef.
        { injection Happ as Hs.
          assert (Hc : CURRENT_THEME p = Some "Default") by (rewrite <- Hs; reflexivity).
          assert (Ht : t = "Default") by (subst t; unfold chosen_theme; now rewrite Hc).
          rewrite Ht in Ed. discriminate. }
        destruct (match getElementById "activeTheme" (doc p) with
                  | Some existingTheme => String.eqb (n_href existingTheme) (url f)
                  | None => false
                  end) eqn:Ea.
        { injection Happ as Hs. rewrite G in Ea. rewrite Hlink. simpl n_href. rewrite Ea.
          f_equal. apply set_theme_same.
          change (CURRENT_THEME (set_doc d2 p)) with (CURRENT_THEME p).
          rewrite <- Hs. reflexivity. }
        injection Happ as Hs.
        assert (Hd : getElementById "activeTheme" (doc p) = Some (theme_link (url f))).
        { rewrite <- Hs at 1. reflexivity. }
        rewrite Hd in Ea. simpl in Ea. rewrite String.eqb_refl in Ea. discriminate.
Qed.

(** X15 on the example profile once its theme is applied: the link moves
    behind the page's own stylesheet, and applying the theme again leaves it
    there. *)
Lemma refresh_moves_the_theme_last_witness :
  let p1 := fst (applyUserTheme example_join example_url "/user/themes" "/app/themes"
                                example_exists example_page) in
  let p2 := fst (refreshThemePosition p1) in
  head (doc p2) = Some [stremio_style; theme_link "file:///user/themes/mine.theme.css"] /\
  applyUserTheme example_join example_url "/user/themes" "/app/themes" example_exists p2
  = (p2, None).
Proof.
  intros p1 p2. split; [reflexivity|].
  refine (proj2 (proj2 (proj2 (proj2 (proj2
            (proj2 (refresh_moves_the_theme_last p1 _ eq_refl)
                   (theme_link "file:///user/themes/mine.theme.css") eq_refl)))))
            eq_refl example_join example_url "/user/themes" "/app/themes" example_exists
            eq_refl).
Defined.

End ThemeProperties.

(** ** The page: the scroll monitor in every reachable state *)
Section ScrollMonitorFacts.
Import Page ScrollMonitor.

(** What the callbacks of one frame do to the scroll monitor: the timers,
    the clock, the last input and the timer handle stay; the marker classes
    keep following the flag; the flag is not raised; and it is lowered when
    a check runs at least [SCROLL_DEBOUNCE] after the last input. *)
Lemma frame_fold_scroll (q : list (positive * frame_callback)) :
  forall s0,
    let s1 := fold_left (fun s c => run_frame_callback (snd c) s) q s0 in
    br s1 = br s0 /\
    lastScrollTime (sc s1) = lastScrollTime (sc s0) /\
    scrollTimeout (sc s1) = scrollTimeout (sc s0) /\
    (scrolling_active (sc s0) = isScrolling (sc s0) ->
     scrolling_active (sc s1) = isScrolling (sc s1)) /\
    (performance_mode (sc s0) = isScrolling (sc s0) ->
     performance_mode (sc s1) = isScrolling (sc s1)) /\
    (isScrolling (sc s0) = false -> isScrolling (sc s1) = false) /\
    ((exists h, In (h, ScrollCheck) q) ->
     lastScrollTime (sc s0) + SCROLL_DEBOUNCE <= now (br s0) ->
     isScrolling (sc s1) = false).
Proof.
  induction q as [|[h cb] q IH]; intros s0; simpl.
  - repeat split; auto. intros [h []].
  - destruct (IH (run_frame_callback cb s0)) as (H1 & H2 & H3 & H4 & H5 & H6 & H7).
    destruct cb as [b|]; simpl in *.
    + rewrite H1, H2, H3. repeat split; auto.
      intros [h' [[=] | Hin]] Hd. apply H7; [now exists h' | exact Hd].
    + unfold scroll_check in *.
      destruct (SCROLL_DEBOUNCE <=? now (br s0) - lastScrollTime (sc s0)) eqn:E;
        simpl in *; rewrite H1, H2, H3.
      * repeat split; auto.
      * repeat split; auto. intros _ Hd. apply Z.leb_gt in E. lia.
Qed.

Lemma observerRafId_kept (e : event) (s : state) :
  match e with
  | Register _ | Unregister _ | SetActive _ _ => True
  | _ => False
  end ->
  forall s', step e s = Some s' ->
             observerRafId (co s') = observerRafId (co s) /\ br s' = br s /\ sc s' = sc s.
Proof.
  destruct e as [i | i | i a | m | | h | | d]; intros []; intros s' [= <-]; simpl.
  - unfold registerObserverHandler, initUnifiedObserver.
    destruct (unifiedObserver (co s)); now repeat split.
  - unfold unregisterObserverHandler. simpl.
    destruct (map_delete i (observerHandlers (co s))); [|now repeat split].
    destruct (unifiedObserver (co s)); now repeat split.
  - now repeat split.
Qed.

Lemma scroll_inv_step (e : event) (s s' : state) :
  step e s = Some s' -> handles_fresh s -> scroll_inv s -> scroll_inv s'.
Proof.
  intros Hstep (F1 & F2) ((C1 & C2) & T & L & K).
  destruct e as [i | i | i a | m | | h | | d].
  - destruct (observerRafId_kept (Register i) s I s' Hstep) as (E1 & E2 & E3).
    unfold scroll_inv. rewrite E1, E2, E3. repeat split; assumption.
  - destruct (observerRafId_kept (Unregister i) s I s' Hstep) as (E1 & E2 & E3).
    unfold scroll_inv. rewrite E1, E2, E3. repeat split; assumption.
  - destruct (observerRafId_kept (SetActive i a) s I s' Hstep) as (E1 & E2 & E3).
    unfold scroll_inv. rewrite E1, E2, E3. repeat split; assumption.
  - (* Mutations *)
    cbn [step] in Hstep.
    destruct (unifiedObserver (co s)) as [[|]|]; try discriminate.
    unfold on_mutations in Hstep. simpl in Hstep. injection Hstep as <-.
    assert (Hb : forall b0 : browser,
               timers match observerRafId (co s) with
                      | Some h => cancelAnimationFrame h b0
                      | None => b0
                      end = timers b0 /\
               now match observerRafId (co s) with
                   | Some h => cancelAnimationFrame h b0
                   | None => b0
                   end = now b0 /\
               next_frame_handle match observerRafId (co s) with
                                 | Some h => cancelAnimationFrame h b0
                                 | None => b0
                                 end = next_frame_handle b0).
    { intros b0. now destruct (observerRafId (co s)). }
    destruct (Hb (br s)) as (Hb1 & Hb2 & Hb3).
    assert (Hkeep : forall h, In (h, ScrollCheck) (frame_callbacks (br s)) ->
                              In (h, ScrollCheck)
                                 (frame_callbacks match observerRafId (co s) with
                                                  | Some h0 => cancelAnimationFrame h0 (br s)
                                                  | None => br s
                                                  end)).
    { intros h Hin. destruct (observerRafId (co s)) as [h0|] eqn:O; [|exact Hin].
      simpl. apply filter_In. split; [exact Hin|]. simpl.
      apply negb_true_iff, Pos.eqb_neq. intros ->. now apply (K h0). }
    assert (Hback : forall h cb,
               In (h, cb) (frame_callbacks match observerRafId (co s) with
                                           | Some h0 => cancelAnimationFrame h0 (br s)
                                           | None => br s
                                           end) ->
               In (h, cb) (frame_callbacks (br s))).
    { intros h cb Hin. destruct (observerRafId (co s)); [|exact Hin].
      simpl in Hin. now apply filter_In in Hin. }
    unfold scroll_inv. simpl. rewrite Hb1, Hb2, Hb3.
    split; [now split|]. split; [exact T|]. split.
    + intros Hs. destruct (L Hs) as [Ht | [[h Hin] Hd]]; [now left | right].
      split; [|exact Hd]. exists h. apply in_or_app. left. now apply Hkeep.
    + intros h Hin [= <-]. apply in_app_or in Hin.
      destruct Hin as [Hin | [[=] | []]].
      apply Hback in Hin. apply F2 in Hin. lia.
  - (* Input *)
    cbn [step] in Hstep. injection Hstep as <-. unfold scroll_inv, handleScroll. simpl.
    assert (Hcl : timers match scrollTimeout (sc s) with
                         | Some h => clearTimeout h (br s)
                         | None => br s
                         end = []).
    { destruct T as [T | (h & T & Hh)].
      - destruct (scrollTimeout (sc s)); simpl; now rewrite T.
      - rewrite Hh. simpl. rewrite T. simpl. now rewrite Pos.eqb_refl. }
    assert (Hq : frame_callbacks match scrollTimeout (sc s) with
                                 | Some h => clearTimeout h (br s)
                                 | None => br s
                                 end = frame_callbacks (br s))
      by now destruct (scrollTimeout (sc s)).
    assert (Hn : now match scrollTimeout (sc s) with
                     | Some h => clearTimeout h (br s)
                     | None => br s
                     end = now (br s))
      by now destruct (scrollTimeout (sc s)).
    rewrite Hcl, Hq, Hn. simpl.
    split; [|split; [|split]].
    + destruct (isScrolling (sc s)); simpl; [|now split].
      rewrite C1, C2. now split.
    + right. eexists. split; reflexivity.
    + intros _. left. discriminate.
    + intros h Hin. destruct (negb (isScrolling (sc s))); simpl; now apply K.
  - (* Timeout *)
    cbn [step] in Hstep. destruct (due h (br s)) eqn:D; [|discriminate].
    injection Hstep as <-.
    unfold due in D. apply existsb_exists in D. destruct D as ([h0 d0] & Hin & Hd).
    simpl in Hd. apply andb_true_iff in Hd. destruct Hd as [Eh Ed].
    apply Pos.eqb_eq in Eh. subst h0. apply Z.leb_le in Ed.
    destruct T as [T | (h1 & T & Hh)]; [rewrite T in Hin; contradiction|].
    rewrite T in Hin. destruct Hin as [[= <- <-] | []].
    unfold scroll_inv, on_timeout. simpl.
    assert (Ht : timers match rafId (sc s) with
                        | Some h0 => cancelAnimationFrame h0 (clearTimeout h1 (br s))
                        | None => clearTimeout h1 (br s)
                        end = []).
    { destruct (rafId (sc s)); simpl; rewrite T; simpl; now rewrite Pos.eqb_refl. }
    assert (Hn : now match rafId (sc s) with
                     | Some h0 => cancelAnimationFrame h0 (clearTimeout h1 (br s))
                     | None => clearTimeout h1 (br s)
                     end = now (br s))
      by now destruct (rafId (sc s)).
    assert (Hnf : next_frame_handle match rafId (sc s) with
                                    | Some h0 => cancelAnimationFrame h0 (clearTimeout h1 (br s))
                                    | None => clearTimeout h1 (br s)
                                    end = next_frame_handle (br s))
      by now destruct (rafId (sc s)).
    assert (Hback : forall h0 cb,
               In (h0, cb) (frame_callbacks match rafId (sc s) with
                                            | Some h2 => cancelAnimationFrame h2 (clearTimeout h1 (br s))
                                            | None => clearTimeout h1 (br s)
                                            end) ->
               In (h0, cb) (frame_callbacks (br s))).
    { intros h0 cb Hin. destruct (rafId (sc s)); [|exact Hin].
      simpl in Hin. now apply filter_In in Hin. }
    rewrite Ht, Hn, Hnf.
    split; [now split|]. split; [now left|]. split.
    + intros _. right. split; [|exact Ed].
      eexists. apply in_or_app. right. now left.
    + intros h0 Hin. apply in_app_or in Hin. destruct Hin as [Hin | [[= <-] | []]].
      * apply K. now apply Hback in Hin.
      * intros H. apply F1 in H. lia.
  - (* Frame *)
    cbn [step] in Hstep. injection Hstep as <-. unfold frame.
    destruct (frame_fold_scroll (frame_callbacks (br s))
                {| br := take_frame_callbacks (br s); co := co s; sc := sc s |})
      as (H1 & H2 & H3 & H4 & H5 & H6 & H7).
    simpl in H1, H2, H3, H4, H5, H6, H7.
    unfold scroll_inv. rewrite H1, H2, H3. simpl.
    split; [split; [now apply H4 | now apply H5]|].
    split; [exact T|]. split; [|intros h []].
    intros Hs. left.
    destruct (isScrolling (sc s)) eqn:Es; [|rewrite (H6 eq_refl) in Hs; discriminate].
    destruct (L eq_refl) as [Ht | [Hc Hd]]; [exact Ht|].
    rewrite (H7 Hc Hd) in Hs. discriminate.
  - (* Tick *)
    cbn [step] in Hstep. destruct (0 <=? d) eqn:E; [|discriminate].
    injection Hstep as <-. apply Z.leb_le in E.
    unfold scroll_inv. simpl.
    split; [now split|]. split; [exact T|]. split; [|exact K].
    intros Hs. destruct (L Hs) as [Ht | [Hc Hd]]; [now left | right].
    split; [exact Hc | lia].
Qed.

Lemma scroll_inv_initial (t0 : Z) : scroll_inv (initial t0).
Proof.
  unfold scroll_inv. simpl. split; [now split|]. split; [now left|].
  split; [discriminate | intros h []].
Qed.

Lemma reachable_scroll_inv (s : state) : reachable s -> scroll_inv s.
Proof.
  intros (t0 & es & Hrun).
  assert (R0 : reachable (initial t0)) by (exists t0, []; reflexivity).
  pose proof (scroll_inv_initial t0) as H0.
  revert Hrun R0 H0. generalize (initial t0).
  induction es as [|e es IH]; intros s0 Hrun R0 H0; simpl in Hrun.
  - now injection Hrun as <-.
  - destruct (step e s0) as [s1|] eqn:E; [|discriminate].
    apply (IH s1 Hrun).
    + apply (reachable_run [e] s0 s1 R0). simpl. now rewrite E.
    + exact (scroll_inv_step e s0 s1 E (reachable_handles_fresh s0 R0) H0).
Qed.

(** With no timer pending, the next frame ends scroll mode. *)
Lemma frame_ends_scroll (s : state) :
  scroll_inv s -> timers (br s) = [] -> isScrolling (sc (frame s)) = false.
Proof.
  intros (_ & _ & L & _) Ht. unfold frame.
  destruct (frame_fold_scroll (frame_callbacks (br s))
              {| br := take_frame_callbacks (br s); co := co s; sc := sc s |})
    as (_ & _ & _ & _ & _ & H6 & H7).
  simpl in H6, H7.
  destruct (isScrolling (sc s)) eqn:Es; [|now apply H6].
  destruct (L eq_refl) as [Hne | [Hc Hd]]; [now elim Hne|].
  now apply H7.
Qed.

End ScrollMonitorFacts.

Section ScrollMonitorProperties.
Import Page ScrollMonitor.

(** X16: in every state the page can reach, whatever the schedule of
    input, timeouts, frames, batches and registrations: the marker classes
    "scrolling-active" and "performance-mode" are set exactly while the
    monitor is active; at most one debounce timer is pending, due 50 ms
    after the last input; while the monitor is active, either that timer is
    pending or a check that will pass is waiting for the next frame, so the
    monitor cannot stay active with nothing left to end it; and without
    further input the monitor is idle after at most the wait for the timer,
    the timeout and one frame. *)
Theorem scroll_monitor_never_sticks :
  forall s : state,
    reachable s ->
    (scrolling_active (sc s) = isScrolling (sc s) /\
     performance_mode (sc s) = isScrolling (sc s)) /\
    (List.length (timers (br s)) <= 1)%nat /\
    (isScrolling (sc s) = true ->
     (exists h, timers (br s) = [(h, lastScrollTime (sc s) + SCROLL_DEBOUNCE)]) \/
     (timers (br s) = [] /\
      (exists h, In (h, ScrollCheck) (frame_callbacks (br s))) /\
      lastScrollTime (sc s) + SCROLL_DEBOUNCE <= now (br s))) /\
    (exists d h s',
        (run [Frame] s = Some s' \/ run [Tick d; Timeout h; Frame] s = Some s') /\
        isScrolling (sc s') = false).
Proof.
  intros s R. pose proof (reachable_scroll_inv s R) as Inv.
  pose proof Inv as (C & T & L & K).
  split; [exact C|]. split; [|split].
  - destruct T as [-> | (h & -> & _)]; simpl; lia.
  - intros Hs. destruct T as [T | (h & T & _)].
    + right. split; [exact T|]. destruct (L Hs) as [Hne | H]; [now elim Hne | exact H].
    + left. now exists h.
  - destruct T as [T | (h & T & Hh)].
    + exists 0, 1%positive, (frame s). split; [now left|]. now apply frame_ends_scroll.
    + set (d := Z.max 0 (lastScrollTime (sc s) + SCROLL_DEBOUNCE - now (br s))).
      assert (Hd : (0 <=? d) = true) by (apply Z.leb_le; subst d; lia).
      set (s1 := {| br := advance d (br s); co := co s; sc := sc s |}).
      assert (Hdue : due h (br s1) = true).
      { unfold due. subst s1. simpl. rewrite T. simpl. rewrite Pos.eqb_refl. simpl.
        rewrite orb_false_r. apply Z.leb_le. subst d. lia. }
      set (s2 := on_timeout {| br := clearTimeout h (br s1); co := co s1; sc := sc s1 |}).
      assert (Hrun : run [Tick d; Timeout h] s = Some s2).
      { cbn [run step]. rewrite Hd. fold s1. now rewrite Hdue. }
      assert (R2 : reachable s2) by exact (reachable_run _ _ _ R Hrun).
      assert (T2 : timers (br s2) = []).
      { subst s2. unfold on_timeout. simpl.
        destruct (rafId (sc s)); simpl; rewrite T; simpl; now rewrite Pos.eqb_refl. }
      exists d, h, (frame s2). split.
      * right. change [Tick d; Timeout h; Frame] with ([Tick d; Timeout h] ++ [Frame])%list.
        now rewrite (run_app _ _ _ _ Hrun).
      * apply frame_ends_scroll; [now apply reachable_scroll_inv | exact T2].
Qed.

(** X16 on a page scrolled twice within 50 ms: the monitor is active, the
    marker classes are set, and one timer is pending. *)
Lemma scroll_monitor_never_sticks_witness :
  isScrolling (sc scrolled_twice) = true /\
  scrolling_active (sc scrolled_twice) = true /\
  (List.length (timers (br scrolled_twice)) <= 1)%nat.
Proof.
  assert (R : reachable scrolled_twice).
  { exists 0, [Register "title-bar"; Mutations 1%nat; Input; Tick 30; Input]. reflexivity. }
  destruct (scroll_monitor_never_sticks scrolled_twice R) as ((C1 & _) & T & _).
  split; [reflexivity|]. split; [rewrite C1; reflexivity | exact T].
Defined.

End ScrollMonitorProperties.

(** ** Collapsible sections *)
Section CollapsibleProperties.
Import UserSettings Collapsible.

Lemma keys_differ (section : string) :
  "enhanced-collapsible-" ++ section <> "plugin-group-" ++ section.
Proof. simpl. discriminate. Qed.

(** A header with the one listener of [setupCollapsibleHandlers], in a
    collapsible whose state a rebuild of the page would restore. *)
Lemma clicks_keep_restorable (n : nat) (a : ascii) (section : string) :
  forall (h : header) (ls ls0 : storage) (c : bool),
    click_listeners h = [CollapsibleClick] ->
    data_section h = Some (String a section) ->
    collapsible h = Some c ->
    collapsible (setup_header CollapsibleClick ls (fresh_header (String a section))) = Some c ->
    (forall k, k <> "enhanced-collapsible-" ++ String a section -> getItem k ls = getItem k ls0) ->
    let hn := fst (clicks n h ls) in
    let lsn := snd (clicks n h ls) in
    collapsible hn = Some (xorb (Nat.odd n) c) /\
    collapsible (setup_header CollapsibleClick lsn (fresh_header (String a section)))
    = collapsible hn /\
    (forall k, k <> "enhanced-collapsible-" ++ String a section -> getItem k lsn = getItem k ls0).
Proof.
  induction n as [|n IH]; intros h ls ls0 c Hl Hs Hc Hr Hk.
  - cbn [clicks fst snd Nat.odd xorb]. rewrite Hc. repeat split; assumption.
  - cbn [clicks]. unfold click. rewrite Hl. cbn [fold_left fst snd].
    unfold on_click. rewrite Hc, Hs. cbn [prefix].
    set (key := "enhanced-collapsible-" ++ String a section) in *.
    set (h' := set_collapsed (negb c) h).
    set (ls' := setItem key (if negb c then "collapsed" else "expanded") ls).
    destruct (IH h' ls' ls0 (negb c)) as (A & B & C).
    + subst h'. simpl. exact Hl.
    + subst h'. simpl. exact Hs.
    + subst h'. simpl. now rewrite Hc.
    + unfold setup_header. cbn [has_handler fresh_header data_collapsible_handler attach
                               data_section collapsible prefix].
      fold key. subst ls'. rewrite getItem_setItem_same.
      now destruct c.
    + intros k Hne. subst ls'. rewrite getItem_setItem_other by exact Hne. now apply Hk.
    + split; [|split; [exact B | exact C]].
      rewrite A. f_equal. rewrite Nat.odd_succ, <- Nat.negb_odd.
      now destruct (Nat.odd n), c.
Qed.

(** X17: a section outside the plugin groups, set up once: every click on
    its header toggles the class "collapsed"; whenever the page is built
    anew, the setup restores the state the section was left in; and the
    clicks write no storage key but the section's own. *)
Theorem collapsed_state_survives_rebuild :
  forall (section : string) (ls0 : storage) (n : nat),
    section <> "" ->
    let h1 := setup_header CollapsibleClick ls0 (fresh_header section) in
    let hn := fst (clicks n h1 ls0) in
    let lsn := snd (clicks n h1 ls0) in
    (exists c0, collapsible h1 = Some c0 /\ collapsible hn = Some (xorb (Nat.odd n) c0)) /\
    collapsible (setup_header CollapsibleClick lsn (fresh_header section)) = collapsible hn /\
    (forall k, k <> "enhanced-collapsible-" ++ section -> getItem k lsn = getItem k ls0).
Proof.
  intros section ls0 n Hne h1 hn lsn. destruct section as [|a section]; [now elim Hne|].
  assert (H1 : click_listeners h1 = [CollapsibleClick] /\
               data_section h1 = Some (String a section) /\
               exists c0, collapsible h1 = Some c0).
  { subst h1. unfold setup_header.
    cbn [has_handler fresh_header data_collapsible_handler attach data_section collapsible
         prefix click_listeners app].
    destruct (getItem ("enhanced-collapsible-" ++ String a section) ls0) as [v|].
    - destruct (String.eqb v "collapsed"); simpl; repeat split; eexists; reflexivity.
    - simpl. repeat split. eexists; reflexivity. }
  destruct H1 as (Hl & Hs & c0 & Hc).
  destruct (clicks_keep_restorable n a section h1 ls0 ls0 c0 Hl Hs Hc Hc (fun k _ => eq_refl))
    as (A & B & C).
  split; [exists c0; split; [exact Hc | exact A]|]. split; [exact B | exact C].
Qed.

(** X17 for the section "appearance", clicked three times from a profile
    that has stored nothing: it is left collapsed and comes back
    collapsed. *)
Lemma collapsed_state_survives_rebuild_witness :
  let h1 := setup_header CollapsibleClick [] (fresh_header "appearance") in
  collapsible (fst (clicks 3 h1 [])) = Some true /\
  collapsible (setup_header CollapsibleClick (snd (clicks 3 h1 [])) (fresh_header "appearance"))
  = Some true.
Proof.
  intros h1.
  destruct (collapsed_state_survives_rebuild "appearance" [] 3 ltac:(discriminate))
    as (_ & B & _).
  split; [reflexivity|]. fold h1 in B. rewrite B. reflexivity.
Defined.

(** X18: a plugin group header over which both timer callbacks have run
    carries both click listeners, the attribute that guards the one not
    keeping the other out. One click then toggles the class "collapsed"
    twice and leaves it as it was, while the two storage keys of the group
    are written with opposite states; and whatever the state was, the next
    time the page is built the group comes up collapsed. *)
Theorem plugin_group_header_toggles_twice :
  forall (groupId : string) (ls : storage),
    groupId <> "" ->
    let h := visit groupId ls in
    click_listeners h = [CollapsibleClick; PluginGroupClick] /\
    exists c,
      collapsible h = Some c /\
      collapsible (fst (click h ls)) = Some c /\
      getItem ("enhanced-collapsible-" ++ groupId) (snd (click h ls))
      = Some (if c then "expanded" else "collapsed") /\
      getItem ("plugin-group-" ++ groupId) (snd (click h ls))
      = Some (if c then "collapsed" else "expanded") /\
      collapsible (visit groupId (snd (click h ls))) = Some true.
Proof.
  intros groupId ls Hne h. destruct groupId as [|a g]; [now elim Hne|].
  set (k1 := "enhanced-collapsible-" ++ String a g).
  set (k2 := "plugin-group-" ++ String a g).
  assert (Hk : k1 <> k2) by apply keys_differ.
  (* the header after both callbacks, whatever is stored *)
  assert (Hvisit : forall ls0,
             exists c,
               visit (String a g) ls0
               = {| data_section := Some (String a g);
                    data_collapsible_handler := true; data_plugin_group_handler := true;
                    in_plugin_group := true; collapsible := Some c;
                    click_listeners := [CollapsibleClick; PluginGroupClick] |} /\
               c = (match getItem k1 ls0 with
                    | Some v => String.eqb v "collapsed"
                    | None => false
                    end
                    || match getItem k2 ls0 with
                       | Some v => String.eqb v "collapsed"
                       | None => false
                       end)).
  { intros ls0. unfold visit, setupPluginGroupHandlers, setupCollapsibleHandlers,
      createPluginGroupSection, setup_header.
    cbn [map has_handler data_collapsible_handler attach data_section collapsible prefix].
    fold k1.
    destruct (getItem k1 ls0) as [v1|]; [destruct (String.eqb v1 "collapsed")|];
      cbn [in_plugin_group set_collapsed attach has_handler data_plugin_group_handler
           data_section collapsible prefix click_listeners data_collapsible_handler app];
      fold k2;
      (destruct (getItem k2 ls0) as [v2|]; [destruct (String.eqb v2 "collapsed")|]);
      cbn; eexists; split; reflexivity. }
  destruct (Hvisit ls) as (c & Hh & _). fold h in Hh.
  split; [now rewrite Hh|].
  exists c. split; [now rewrite Hh|].
  assert (Hclick : click h ls
                   = (h, setItem k2 (if c then "collapsed" else "expanded")
                                 (setItem k1 (if c then "expanded" else "collapsed") ls))).
  { rewrite Hh. unfold click, on_click. cbn. fold k1 k2. now destruct c. }
  rewrite Hclick. cbn [fst snd].
  split; [now rewrite Hh|]. split; [|split].
  - rewrite getItem_setItem_other by exact Hk. apply getItem_setItem_same.
  - apply getItem_setItem_same.
  - destruct (Hvisit (setItem k2 (if c then "collapsed" else "expanded")
                              (setItem k1 (if c then "expanded" else "collapsed") ls)))
      as (c' & -> & ->).
    cbn [collapsible]. f_equal.
    rewrite getItem_setItem_other by exact Hk.
    rewrite !getItem_setItem_same. now destruct c.
Qed.

(** X18 for the group "bo0ii-plugins" on a profile that has stored
    nothing. *)
Lemma plugin_group_header_toggles_twice_witness :
  collapsible (visit "bo0ii-plugins" []) = Some false /\
  collapsible (fst (click (visit "bo0ii-plugins" []) [])) = Some false /\
  collapsible (visit "bo0ii-plugins" (snd (click (visit "bo0ii-plugins" []) []))) = Some true.
Proof.
  destruct (plugin_group_header_toggles_twice "bo0ii-plugins" [] ltac:(discriminate))
    as (_ & c & _ & _ & _ & _ & H).
  split; [reflexivity|]. split; [reflexivity | exact H].
Defined.

End CollapsibleProperties.

(** ** Navigation to the player route *)
Section NavigationProperties.
Import Interception Navigation.

Lemma wants_overlay_internal (BUILTIN : string) (savedPlayer : option string) :
  wants_overlay BUILTIN savedPlayer = true -> uses_internal_player BUILTIN savedPlayer = true.
Proof.
  unfold wants_overlay, uses_internal_player. destruct savedPlayer as [p|]; [|reflexivity].
  destruct (negb (Js.truthy (Some p))); [reflexivity|].
  destruct (String.eqb p BUILTIN); [reflexivity|]. simpl.
  intros ->. apply orb_true_r.
Qed.

(** X19: on a navigation to a player route while no call is in progress.
    When the stored player is absent, empty, the built-in one or "m3u", the
    listener removes the marker class, sends and polls nothing, initialises
    the player overlay and the video filter and then starts the save; and
    the patched play method lets such a page play.  When the stored player
    is "vlc" or "mpchc", neither overlay nor filter is initialised, and the
    save is started only after the interception has returned: if a launch
    request was sent, the last thing done before the save starts is the
    call of [history.back()]. *)
Theorem player_route_gets_overlay_or_launch :
  forall (BUILTIN href : string) (host : nat -> attempt_obs) (w : world),
    Js.includes href "#/player" = true ->
    isHandlingExternalPlayer w = false ->
    let w' := fst (on_hashchange BUILTIN href host w) in
    let actions := snd (on_hashchange BUILTIN href host w) in
    (wants_overlay BUILTIN (EXTERNAL_PLAYER (storage w)) = true ->
     w' = set_marker false w /\
     actions = [InitPlayerOverlay; InitVideoFilter; SaveCurrentStreamInfo] /\
     forall originalVideoPlay this,
       VideoPlay.play BUILTIN originalVideoPlay (storage w') href this
       = originalVideoPlay this) /\
    (forall p,
        EXTERNAL_PLAYER (storage w) = Some p -> p = "vlc" \/ p = "mpchc" -> p <> BUILTIN ->
        actions = [SaveCurrentStreamInfo] /\
        isHandlingExternalPlayer w' = false /\ marker w' = false /\
        (launches (effects w') <> launches (effects w) ->
         exists es, effects w' = (es ++ [EHistoryBack])%list)).
Proof.
  intros BUILTIN href host w Hhref Hidle w' actions. subst w' actions.
  unfold on_hashchange. rewrite Hhref. cbn [fst snd]. split.
  - intros Ho. rewrite Ho.
    pose proof (wants_overlay_internal _ _ Ho) as Hi.
    assert (Hs : handleExternalPlayerInterception BUILTIN host w = (None, set_marker false w)).
    { unfold handleExternalPlayerInterception, start. rewrite Hidle, Hi. apply run_None. }
    rewrite Hs. cbn [snd]. split; [reflexivity|]. split; [reflexivity|].
    intros orig this. unfold VideoPlay.play. cbn [storage set_marker]. now rewrite Hi.
  - intros p Hp Hv Hn.
    assert (Hno : wants_overlay BUILTIN (Some p) = false).
    { unfold wants_overlay. apply String.eqb_neq in Hn. rewrite Hn.
      destruct Hv as [-> | ->]; reflexivity. }
    rewrite Hp, Hno. split; [reflexivity|].
    unfold handleExternalPlayerInterception.
    rewrite (start_intercepts BUILTIN host w p Hidle Hp Hv Hn).
    set (s := {| s_host := host; s_externalPlayer := p; s_playerState := None;
                 s_attempt := 0; s_at := AwaitEval1 |}).
    destruct (first_hit host MAX_ATTEMPTS) as [Hnone | (k & st & u & Hk & Hnone & Hsome)].
    + destruct (loop_exhausted s (primed w) eq_refl eq_refl Hnone) as (w1 & Hrun & Hq).
      rewrite (run_finished _ FUEL _ _ (Nat.le_succ_diag_r _) Hrun). cbn [snd].
      split; [reflexivity|]. split; [reflexivity|].
      intros Hl. exfalso. apply Hl. destruct Hq as (_ & _ & _ & Hq).
      cbn [effects set_busy set_marker]. rewrite Hq. unfold primed. cbn.
      rewrite launches_app. cbn. now rewrite app_nil_r.
    + destruct (loop_found s (primed w) k st u eq_refl eq_refl Hk Hnone Hsome)
        as (w1 & Hrun & _).
      rewrite (run_finished _ FUEL _ _ (Nat.le_succ_diag_r _) Hrun). cbn [snd].
      split; [reflexivity|]. split; [reflexivity|].
      intros _. eexists. reflexivity.
Qed.

(** X19 on a page set to VLC whose host shows the address on the third
    attempt: no overlay, and the interception ends with [history.back()]
    before the save starts. *)
Lemma player_route_gets_overlay_or_launch_witness :
  snd (on_hashchange "internal" "app://host/#/player/vid1/hashA" third_attempt_host
                     (idle_world "vlc"))
  = [SaveCurrentStreamInfo] /\
  exists es,
    effects (fst (on_hashchange "internal" "app://host/#/player/vid1/hashA"
                                third_attempt_host (idle_world "vlc")))
    = (es ++ [EHistoryBack])%list.
Proof.
  destruct (proj2 (player_route_gets_overlay_or_launch
                     "internal" "app://host/#/player/vid1/hashA" third_attempt_host
                     (idle_world "vlc") eq_refl eq_refl)
                  "vlc" eq_refl (or_introl eq_refl) ltac:(discriminate))
    as (Ha & _ & _ & He).
  split; [exact Ha|]. apply He. vm_compute. discriminate.
Defined.

End NavigationProperties.

(** ** The installed version *)
Section UpdaterProperties.
Import Updater.

Lemma first_package_version_found (read_package : string -> package_json)
    (paths : list string) (v : string) :
  first_package_version read_package paths = Some v ->
  v <> "" /\ exists p, In p paths /\ read_package p = Parsed (Some v).
Proof.
  induction paths as [|p rest IH]; simpl; [discriminate|].
  destruct (read_package p) as [|[[|c s]|]] eqn:E;
    try (intros H; destruct (IH H) as (A & q & Hq & Hr); split; [exact A|];
         exists q; split; [now right | exact Hr]).
  intros [= <-]. split; [discriminate|]. exists p. split; [now left | exact E].
Qed.

Lemma first_package_version_none (read_package : string -> package_json)
    (paths : list string) :
  first_package_version read_package paths = None ->
  forall p v, In p paths -> read_package p = Parsed (Some v) -> v = "".
Proof.
  induction paths as [|p rest IH]; simpl; [intros _ q v []|].
  destruct (read_package p) as [|[[|c s]|]] eqn:E; try discriminate;
    intros H q v [<- | Hin] Hq; try (now apply (IH H q v)); congruence.
Qed.

Lemma first_version_file_none (trim : string -> string) (read_text : string -> option string)
    (paths : list string) :
  (forall p, In p paths -> read_text p = None) ->
  first_version_file trim read_text paths = None.
Proof.
  induction paths as [|p rest IH]; simpl; [reflexivity|].
  intros H. rewrite (H p (or_introl eq_refl)). apply IH. intros q Hq. apply H. now right.
Qed.

(** The loop over the package files stops at the first one that has a
    version. *)
Lemma first_package_version_first (read_package : string -> package_json)
    (before : list string) (p : string) (after : list string) (v : string) :
  read_package p = Parsed (Some v) -> v <> "" ->
  (forall q v', In q before -> read_package q = Parsed (Some v') -> v' = "") ->
  first_package_version read_package (before ++ p :: after) = Some v.
Proof.
  intros Hp Hv. induction before as [|q before IH]; intros Hb; simpl.
  - rewrite Hp. destruct v; [now elim Hv | reflexivity].
  - destruct (read_package q) as [|[[|c s]|]] eqn:E;
      try (apply IH; intros q' v' Hin; apply Hb; now right).
    discriminate (Hb q (String c s) (or_introl eq_refl) E).
Qed.

(** The loop over the version files stops at the first one it can read. *)
Lemma first_version_file_first (trim : string -> string) (read_text : string -> option string)
    (before : list string) (p : string) (after : list string) (text : string) :
  read_text p = Some text ->
  (forall q, In q before -> read_text q = None) ->
  first_version_file trim read_text (before ++ p :: after) = Some (trim text).
Proof.
  intros Hp. induction before as [|q before IH]; intros Hb; simpl.
  - now rewrite Hp.
  - rewrite (Hb q (or_introl eq_refl)). apply IH. intros q' Hin. apply Hb. now right.
Qed.

(** X20: the version returned is always what the cache holds afterwards.
    Once a call has returned a version that is not empty, every later call
    returns the same version without reading anything, on whatever host.
    With nothing cached, the package files are read in the order they are
    tried and the first one that has a non-empty version decides, whatever
    the later package files and the version files hold; when no package file
    has a version, the version files are read in their order and the trimmed
    text of the first readable one decides; when no package file has a
    version and no version file can be read, the version is "0.0.0". *)
Theorem version_is_read_once_and_falls_back :
  forall (join : list string -> string) (trim : string -> string)
         (app : option electron_app) (resourcesPath : option string) (dirname : string)
         (read_package : string -> package_json) (read_text : string -> option string)
         (versionCache : option string),
    let paths := pathsToTry join app resourcesPath dirname in
    let versionPaths := versionPathsToTry join app resourcesPath dirname in
    let r := getCurrentVersion join trim app resourcesPath dirname read_package read_text
                               versionCache in
    snd r = Some (fst r) /\
    (fst r <> "" ->
     forall join' trim' app' resourcesPath' dirname' read_package' read_text',
       getCurrentVersion join' trim' app' resourcesPath' dirname' read_package' read_text'
                         (snd r) = r) /\
    (Js.truthy versionCache = false ->
     forall before p after v,
       paths = (before ++ p :: after)%list ->
       read_package p = Parsed (Some v) -> v <> "" ->
       (forall q v', In q before -> read_package q = Parsed (Some v') -> v' = "") ->
       fst r = v) /\
    (Js.truthy versionCache = false ->
     forall p v, In p paths -> read_package p = Parsed (Some v) -> v <> "" ->
                 fst r <> "" /\ exists p', In p' paths /\ read_package p' = Parsed (Some (fst r))) /\
    (Js.truthy versionCache = false ->
     (forall p v, In p paths -> read_package p = Parsed (Some v) -> v = "") ->
     forall before p after text,
       versionPaths = (before ++ p :: after)%list ->
       read_text p = Some text ->
       (forall q, In q before -> read_text q = None) ->
       fst r = trim text) /\
    (Js.truthy versionCache = false ->
     (forall p v, In p paths -> read_package p = Parsed (Some v) -> v = "") ->
     (forall p, In p versionPaths -> read_text p = None) ->
     fst r = "0.0.0").
Proof.
  intros join trim app rp dirname rpk rtx cache paths vpaths r.
  assert (Hmiss : Js.truthy cache = false ->
                  r = match first_package_version rpk paths with
                      | Some v => (v, Some v)
                      | None =>
                          match first_version_file trim rtx vpaths with
                          | Some v => (v, Some v)
                          | None => ("0.0.0", Some "0.0.0")
                          end
                      end).
  { intros F. subst r. unfold getCurrentVersion. now destruct cache as [[|c v]|]. }
  assert (Hnopkg : (forall p v, In p paths -> rpk p = Parsed (Some v) -> v = "") ->
                   first_package_version rpk paths = None).
  { intros Hnone. destruct (first_package_version rpk paths) as [v'|] eqn:E; [|reflexivity].
    destruct (first_package_version_found _ _ _ E) as (A & q & Hq & Hr).
    elim A. exact (Hnone q v' Hq Hr). }
  split; [|split; [|split; [|split; [|split]]]].
  - subst r. unfold getCurrentVersion. destruct cache as [[|c v]|]; simpl;
      try reflexivity;
      destruct (first_package_version rpk _); try reflexivity;
      destruct (first_version_file trim rtx _); reflexivity.
  - intros Hne join' trim' app' rp' dirname' rpk' rtx'.
    assert (Hc : snd r = Some (fst r)).
    { subst r. unfold getCurrentVersion. destruct cache as [[|c v]|]; simpl;
        try reflexivity;
        destruct (first_package_version rpk _); try reflexivity;
        destruct (first_version_file trim rtx _); reflexivity. }
    destruct r as [v c]. simpl in *. subst c. unfold getCurrentVersion.
    destruct v; [now elim Hne | reflexivity].
  - intros F before p after v Hsplit Hp Hv Hb. rewrite (Hmiss F), Hsplit.
    now rewrite (first_package_version_first rpk before p after v Hp Hv Hb).
  - intros F p v Hin Hp Hv. rewrite (Hmiss F).
    destruct (first_package_version rpk paths) as [v'|] eqn:E.
    + destruct (first_package_version_found _ _ _ E) as (A & q & Hq & Hr).
      cbn [fst]. split; [exact A|]. now exists q.
    + elim Hv. exact (first_package_version_none _ _ E p v Hin Hp).
  - intros F Hnone before p after text Hsplit Hp Hb.
    rewrite (Hmiss F), (Hnopkg Hnone), Hsplit.
    now rewrite (first_version_file_first trim rtx before p after text Hp Hb).
  - intros F Hnone Htext. rewrite (Hmiss F), (Hnopkg Hnone).
    now rewrite (first_version_file_none trim rtx _ Htext).
Qed.

(** X20 on a development checkout: the version of package.json is returned,
    cached, and returned again on a host that can read nothing.  On a
    packaged application whose archive has no package.json, the file beside
    the archive decides, not the later one of the application directory;
    and with no package.json anywhere, the first version file that can be
    read decides. *)
Lemma version_is_read_once_and_falls_back_witness :
  let r := getCurrentVersion example_join (fun s => s) None None "/src/dist/"
                             checkout_package no_file None in
  r = ("1.2.3", Some "1.2.3") /\
  getCurrentVersion example_join (fun s => s) None None "/elsewhere"
                    (fun _ => NotParsed) no_file (snd r) = r /\
  fst (getCurrentVersion slash_join (fun s => s) (Some packaged_app) (Some "/res") "/src/dist"
                         two_packages two_version_files None) = "2.0.0" /\
  fst (getCurrentVersion slash_join (fun s => s) (Some packaged_app) (Some "/res") "/src/dist"
                         (fun _ => NotParsed) two_version_files None) = "3.1.0".
Proof.
  intros r. split; [reflexivity|]. split; [|split].
  - apply (proj1 (proj2 (version_is_read_once_and_falls_back
                           example_join (fun s => s) None None "/src/dist/"
                           checkout_package no_file None))).
    discriminate.
  - destruct (version_is_read_once_and_falls_back
                slash_join (fun s => s) (Some packaged_app) (Some "/res") "/src/dist"
                two_packages two_version_files None) as (_ & _ & Hfirst & _).
    apply (Hfirst eq_refl ["/res/app.asar/package.json"] "/res/package.json"
                  ["/app/package.json"] "2.0.0"); try reflexivity; try discriminate.
    intros q v' [<- | []]. discriminate.
  - destruct (version_is_read_once_and_falls_back
                slash_join (fun s => s) (Some packaged_app) (Some "/res") "/src/dist"
                (fun _ => NotParsed) two_version_files None) as (_ & _ & _ & _ & Hfile & _).
    apply (Hfile eq_refl) with (before := ["/res/app.asar/dist/version"])
                               (p := "/res/version")
                               (after := ["/app/dist/version"; "/app/version"]);
      try reflexivity; try discriminate.
    intros q [<- | []]. reflexivity.
Defined.

End UpdaterProperties.
